(** * Provider resolution and name-layout compiler: a shallow embedding

  The development follows the Python sources:
  - [_dataclass_factory/provider/provider_basics.py]
    (request checkers, [create_req_checker], providers),
  - [dataclass_factory_30/model_tools/definitions.py] and
    [dataclass_factory_30/provider/fields_basics.py]
    (fields, figures, [ListCrown.list_len]),
  - [adaptix/_internal/morphing/name_layout/component.py]
    (structure maker, sieves maker, extra move and extra policies maker),
  - [dataclass_factory_30/code_tools/context_namespace.py] and
    [adaptix/_internal/code_tools/compiler.py]
    (the namespace of generated code, the ids of compiled closures).

  Python exceptions are modelled by an explicit [result] type, Python
  dicts (insertion ordered) by association lists with unique keys, Python
  sets by [gset]. *)

From stdpp Require Import gmap strings list pretty.
From Stdlib Require Import ZArith Ascii.

#[local] Set Warnings "-clear-no-such-hyp".
Local Open Scope Z_scope.

(** ** Keys and key paths ([name_layout/base.py]: [Key = Union[str, int]]) *)

Inductive Key : Type :=
| KStr (s : string)
| KInt (i : Z).

Abbreviation KeyPath := (list Key).

#[global] Instance Key_eq_dec : EqDecision Key.
Proof. solve_decision. Defined.

#[global] Instance Key_countable : Countable Key.
Proof.
refine (inj_countable'
  (λ k, match k with KStr s => inl s | KInt i => inr i end)
  (λ x, match x with inl s => KStr s | inr i => KInt i end) _).
by intros [].
Defined.

(** [isinstance(key, int)] *)
Definition is_int (k : Key) : bool :=
match k with KInt _ => true | KStr _ => false end.

(** ** Errors *)

(** The texts of the messages raised by the modelled code.  An f-string is
  kept as a constructor carrying the interpolated values. *)
Inductive Message : Type :=
| MsgPathsPointedToSeveralFields (duplicates : list (KeyPath * list string))
| MsgPrefixOfAnotherPath (details : list (KeyPath * string * list (KeyPath * string)))
| MsgOptionalFieldsAtList (ids : list string)
| MsgInconsistentPathElements (sub_path : KeyPath)
| MsgRequiredFieldsSkipped (ids : list string)
| MsgCollectWithListMapping
| MsgRequestStackTooSmall
| MsgRequestMustBeLocated
| MsgRequestLocationMustBe (location : string)
| MsgFieldNameMustBe (name : string)
| MsgFieldNameMustMatch
| MsgTypeMustBeEqual
| MsgTypeMustBeSubclass
| MsgTypeMustHaveOrigin.

(** [CannotProvide] ([provider/essential.py], whose declaration is outside the
  modelled sources): an optional message, the sub-errors and the two flags;
  [CannotProvide()] is the silent decline [silent]. *)
#[local] Set Warnings "-register-all".
Inductive CannotProvide : Type :=
mkCannotProvide {
  msg : option Message;
  sub_errors : list CannotProvide;
  is_terminal : bool;
  is_demonstrative : bool
}.

Definition silent : CannotProvide := mkCannotProvide None [] false false.

Definition terminal_error (m : Message) : CannotProvide :=
mkCannotProvide (Some m) [] true true.

Inductive ValueErrorMsg : Type :=
| FieldNamesDuplicated
| ParamNamesDuplicated
| ExtraTargetsWild (targets : list string)
| InconsistentOrderOfFields
| NotRequiredAfterRequired
| CanNotCreateRequestChecker
| OriginMustBeNotParametrized
| BareValueError.

Inductive exn : Type :=
| ECannotProvide (e : CannotProvide)
| EValueError (m : ValueErrorMsg)
| EIndexError
| EKeyError
| ENotSubscribedError
| EReError.

Inductive result (A : Type) : Type :=
| Ok (a : A)
| Raise (e : exn).
Arguments Ok {A} a.
Arguments Raise {A} e.

Definition bind {A B} (r : result A) (k : A → result B) : result B :=
match r with
| Ok a => k a
| Raise e => Raise e
end.

Notation "'let!' x ':=' r 'in' k" := (bind r (λ x, k))
(at level 10, x name, r at level 100, k at level 200, only parsing).

(** ** Insertion-ordered dictionaries *)

Section dict.
Context {K V : Type} `{EqDecision K}.

Fixpoint dict_get (d : list (K * V)) (k : K) : option V :=
  match d with
  | [] => None
  | (k', v) :: d' => if decide (k' = k) then Some v else dict_get d' k
  end.

(** [d[k] = v]: an existing key keeps its position, a new one goes last. *)
Fixpoint dict_set (d : list (K * V)) (k : K) (v : V) : list (K * V) :=
  match d with
  | [] => [(k, v)]
  | (k', v') :: d' =>
      if decide (k' = k) then (k, v) :: d' else (k', v') :: dict_set d' k v
  end.

Definition dict_keys (d : list (K * V)) : list K := d.*1.
End dict.


(** ** Python list helpers *)

Fixpoint mapM {A B} (g : A → result B) (xs : list A) : result (list B) :=
  match xs with
  | [] => Ok []
  | x :: xs' => let! y := g x in let! ys := mapM g xs' in Ok (y :: ys)
  end.

(** [max(xs)]: [ValueError] on an empty sequence. *)
Definition py_max (xs : list Z) : result Z :=
match xs with
| [] => Raise (EValueError BareValueError)
| x :: xs' => Ok (foldl Z.max x xs')
end.

(** [xs[i]] with Python's negative indices; [IndexError] out of range. *)
Definition py_getitem {A} (xs : list A) (i : Z) : result A :=
let n := Z.of_nat (length xs) in
let j := if bool_decide (i < 0) then n + i else i in
if bool_decide (0 ≤ j < n) then
  match xs !! Z.to_nat j with
  | Some x => Ok x
  | None => Raise EIndexError
  end
else Raise EIndexError.

(** [xs[:i]] with Python's negative indices. *)
Definition py_slice_to {A} (xs : list A) (i : Z) : list A :=
let n := Z.of_nat (length xs) in
let j := if bool_decide (i < 0) then Z.max 0 (n + i) else i in
take (Z.to_nat j) xs.

(** ** Fields as the layout compiler sees them ([BaseField]) *)

Class BaseField (F : Type) := {
field_id : F → string;
is_required : F → bool
}.

Definition is_optional {F} `{BaseField F} (f : F) : bool := negb (is_required f).

(** ** Requests and request checkers ([provider/provider_basics.py]) *)

(** The helpers of [type_tools], of [re], and [str.isidentifier], which
    [provider_basics.py] imports: they are outside the modelled sources and
    the checkers are parametrised by them.  A type hint, an origin and a
    class are all Python objects of the one type [TypeHint].

    The location classes of [request_cls] are outside the modelled sources
    too.  A field location is known by its name; whether it is also an
    instance of [TypeHintLocation], and then with which [type], is the
    parameter [field_location_type] ([None]: it is not). *)
Class TypeTools : Type := {
  TypeHint : Type;
  NormType : Type;
  Pattern : Type;
  normalize_type : TypeHint → result NormType;
  norm_origin : NormType → TypeHint;
  norm_eqb : NormType → NormType → bool;
  origin_eqb : TypeHint → TypeHint → bool;
  is_norm_tv : NormType → bool;
  is_subclass_soft : TypeHint → TypeHint → bool;
  is_parametrized : TypeHint → bool;
  is_protocol : TypeHint → bool;
  isabstract : TypeHint → bool;
  isidentifier : string → bool;
  re_compile : string → result Pattern;
  fullmatch : Pattern → string → bool;
  field_location_type : string → option TypeHint
}.

Section checkers.
Context `{TypeTools}.

Inductive Location : Type :=
  | FieldLocation (name : string)
  | TypeHintLocation (type : TypeHint).

Inductive Request : Type :=
  | PlainRequest
  | LocatedRequest (loc : Location).

(** The mediator, as far as checkers and providers use it: the stack of
    requests, oldest first, and the outcome of [provide_from_next()]. *)
Record Mediator (T : Type) : Type := {
  request_stack : list Request;
  provide_from_next : result T
}.
Arguments request_stack {T} _.
Arguments provide_from_next {T} _.

Context {T : Type}.

(** The checker classes of the module; [OtherRC] stands for any further
    subclass of [RequestChecker], given by its [check_request]. *)
Inductive RequestChecker : Type :=
  | OrRequestChecker (request_checkers : list RequestChecker)
  | AndRequestChecker (request_checkers : list RequestChecker)
  | NegRequestChecker (rc : RequestChecker)
  | XorRequestChecker (_left _right : RequestChecker)
  | ExactFieldNameRC (field_name : string)
  | ReFieldNameRC (pattern : Pattern)
  | ExactTypeRC (norm : NormType)
  | SubclassRC (type_ : TypeHint)
  | ExactOriginRC (origin : TypeHint)
  | StackEndRC (request_checkers : list RequestChecker)
  | AnyRequestChecker
  | OtherRC (check : Mediator T → Request → result unit).

(** [try: ... except CannotProvide as exc: exceptions.append(exc)] *)
Definition catch_cannot_provide (r : result unit) (exceptions : list CannotProvide)
  : result (list CannotProvide) :=
  match r with
  | Ok _ => Ok exceptions
  | Raise (ECannotProvide exc) => Ok (exceptions ++ [exc])
  | Raise e => Raise e
  end.

Definition cannot_provide (m : Message) : exn :=
  ECannotProvide {| msg := Some m; sub_errors := [];
                    is_terminal := false; is_demonstrative := false |}.

(** [LocatedRequestChecker.check_request] for [LOCATION = FieldLocation] *)
Definition at_field_location (request : Request)
    (_check_location : string → result unit) : result unit :=
  match request with
  | PlainRequest => Raise (cannot_provide MsgRequestMustBeLocated)
  | LocatedRequest (FieldLocation name) => _check_location name
  | LocatedRequest (TypeHintLocation _) =>
      Raise (cannot_provide (MsgRequestLocationMustBe "FieldLocation"))
  end.

(** [request.loc.type] when [isinstance(request.loc, TypeHintLocation)] *)
Definition location_type (request : Request) : option TypeHint :=
  match request with
  | PlainRequest => None
  | LocatedRequest (TypeHintLocation type) => Some type
  | LocatedRequest (FieldLocation name) => field_location_type name
  end.

(** [LocatedRequestChecker.check_request] for [LOCATION = TypeHintLocation] *)
Definition at_type_hint_location (request : Request)
    (_check_location : TypeHint → result unit) : result unit :=
  match request with
  | PlainRequest => Raise (cannot_provide MsgRequestMustBeLocated)
  | LocatedRequest _ =>
      match location_type request with
      | Some type => _check_location type
      | None => Raise (cannot_provide (MsgRequestLocationMustBe "TypeHintLocation"))
      end
  end.

Fixpoint check_request (rc : RequestChecker) (mediator : Mediator T)
    (request : Request) {struct rc} : result unit :=
  match rc with
  | OrRequestChecker request_checkers =>
      (fix loop (checkers : list RequestChecker) (sub_errors : list CannotProvide)
         : result unit :=
         match checkers with
         | [] => Raise (ECannotProvide
                          {| msg := None; sub_errors := sub_errors;
                             is_terminal := false; is_demonstrative := false |})
         | checker :: checkers' =>
             match check_request checker mediator request with
             | Ok _ => Ok ()
             | Raise (ECannotProvide e) => loop checkers' (sub_errors ++ [e])
             | Raise e => Raise e
             end
         end) request_checkers []
  | AndRequestChecker request_checkers =>
      (fix loop (checkers : list RequestChecker) : result unit :=
         match checkers with
         | [] => Ok ()
         | checker :: checkers' =>
             let! _u := check_request checker mediator request in loop checkers'
         end) request_checkers
  | NegRequestChecker rc =>
      match check_request rc mediator request with
      | Ok _ => Raise (ECannotProvide silent)
      | Raise (ECannotProvide _) => Ok ()
      | Raise e => Raise e
      end
  | XorRequestChecker _left _right =>
      let! exceptions :=
        catch_cannot_provide (check_request _left mediator request) [] in
      let! exceptions :=
        catch_cannot_provide (check_request _right mediator request) exceptions in
      if bool_decide (length exceptions = 0%nat) then
        Raise (ECannotProvide silent)
      else if bool_decide (length exceptions = 2%nat) then
        Raise (ECannotProvide
                 {| msg := None; sub_errors := exceptions;
                    is_terminal := false; is_demonstrative := false |})
      else Ok ()
  | ExactFieldNameRC field_name =>
      at_field_location request (λ name,
        if bool_decide (field_name = name) then Ok ()
        else Raise (cannot_provide (MsgFieldNameMustBe field_name)))
  | ReFieldNameRC pattern =>
      at_field_location request (λ name,
        if fullmatch pattern name then Ok ()
        else Raise (cannot_provide MsgFieldNameMustMatch))
  | ExactTypeRC norm =>
      at_type_hint_location request (λ type,
        let! n := normalize_type type in
        if norm_eqb n norm then Ok ()
        else Raise (cannot_provide MsgTypeMustBeEqual))
  | SubclassRC type_ =>
      at_type_hint_location request (λ type,
        let! norm := normalize_type type in
        if is_subclass_soft (norm_origin norm) type_ then Ok ()
        else Raise (cannot_provide MsgTypeMustBeSubclass))
  | ExactOriginRC origin =>
      at_type_hint_location request (λ type,
        let! norm := normalize_type type in
        if origin_eqb (norm_origin norm) origin then Ok ()
        else Raise (cannot_provide MsgTypeMustHaveOrigin))
  | StackEndRC request_checkers =>
      let stack := request_stack mediator in
      let offset := Z.of_nat (length stack) - Z.of_nat (length request_checkers) in
      if bool_decide (offset < 0) then
        Raise (cannot_provide MsgRequestStackTooSmall)
      else
        (fix loop (checkers : list RequestChecker) (requests : list Request)
           : result unit :=
           match checkers, requests with
           | checker :: checkers', stack_request :: requests' =>
               let! _u := check_request checker mediator stack_request in
               loop checkers' requests'
           | _, _ => Ok ()
           end) request_checkers (drop (Z.to_nat offset) stack)
  | AnyRequestChecker => Ok ()
  | OtherRC check => check mediator request
  end.

(** The argument of [create_req_checker]:
    [Union[TypeHint, str, RequestChecker]], and [re.Pattern]. *)
Inductive Pred : Type :=
  | PredStr (s : string)
  | PredPattern (pattern : Pattern)
  | PredChecker (rc : RequestChecker)
  | PredTypeHint (tp : TypeHint).

Definition match_origin (tp : TypeHint) : result RequestChecker :=
  if is_parametrized tp then Raise (EValueError OriginMustBeNotParametrized)
  else
    let! origin :=
      match normalize_type tp with
      | Ok norm => Ok (norm_origin norm)
      | Raise ENotSubscribedError => Ok tp
      | Raise e => Raise e
      end in
    if is_protocol origin || isabstract origin then Ok (SubclassRC origin)
    else Ok (ExactOriginRC origin).

Definition create_type_hint_req_checker (tp : TypeHint) : result RequestChecker :=
  match normalize_type tp with
  | Raise ENotSubscribedError => Ok (ExactOriginRC tp)
  | Raise (EValueError _) => Raise (EValueError CanNotCreateRequestChecker)
  | Raise e => Raise e
  | Ok norm =>
      if is_norm_tv norm then Raise (EValueError CanNotCreateRequestChecker)
      else Ok (ExactTypeRC norm)
  end.

Definition create_req_checker (pred : Pred) : result RequestChecker :=
  match pred with
  | PredStr s =>
      if isidentifier s then Ok (ExactFieldNameRC s)
      else let! pattern := re_compile s in Ok (ReFieldNameRC pattern)
  | PredPattern pattern => Ok (ReFieldNameRC pattern)
  | PredChecker rc => Ok rc
  | PredTypeHint tp => create_type_hint_req_checker tp
  end.
End checkers.

Arguments request_stack {_ T} _.
Arguments provide_from_next {_ T} _.
Arguments RequestChecker {_} T.
Arguments Pred {_} T.

(** ** Providers ([provider/provider_basics.py]) *)

Section providers.
Context `{TypeTools} {Data : Type}.

(** What a chaining provider resolves: a processing routine, which may
    raise. *)
Definition Processor : Type := Data → result Data.

Inductive Chain : Type :=
  | FIRST
  | LAST.

(** [OtherProvider] stands for any further [Provider], given by its
    [apply_provider]; [request_cls] is [isinstance(request, request_cls)]. *)
Inductive Provider : Type :=
  | BoundingProvider (request_checker : RequestChecker Processor) (provider : Provider)
  | ValueProvider (request_cls : Request → bool) (value : Processor)
  | ConcatProvider (providers : list Provider)
  | ChainingProvider (chain : Chain) (provider : Provider)
  | OtherProvider (apply : Mediator Processor → Request → result Processor).

Definition _make_chain (first second : Processor) : Processor :=
  λ data, let! x := first data in second x.

Fixpoint apply_provider (p : Provider) (mediator : Mediator Processor)
    (request : Request) {struct p} : result Processor :=
  match p with
  | BoundingProvider request_checker provider =>
      let! _u := check_request request_checker mediator request in
      apply_provider provider mediator request
  | ValueProvider request_cls value =>
      if request_cls request then Ok value else Raise (ECannotProvide silent)
  | ConcatProvider providers =>
      (fix loop (ps : list Provider) (errors : list CannotProvide)
         : result Processor :=
         match ps with
         | [] => Raise (ECannotProvide
                          {| msg := None; sub_errors := errors;
                             is_terminal := false; is_demonstrative := false |})
         | provider :: ps' =>
             match apply_provider provider mediator request with
             | Ok r => Ok r
             | Raise (ECannotProvide e) => loop ps' (errors ++ [e])
             | Raise e => Raise e
             end
         end) providers []
  | ChainingProvider chain provider =>
      let! current_processor := apply_provider provider mediator request in
      let! next_processor := provide_from_next mediator in
      match chain with
      | FIRST => Ok (_make_chain current_processor next_processor)
      | LAST => Ok (_make_chain next_processor current_processor)
      end
  | OtherProvider apply => apply mediator request
  end.
End providers.

(** ** Fields and figures ([model_tools/definitions.py]) *)

Inductive ParamKind : Type :=
  | POS_ONLY
  | POS_OR_KW
  | KW_ONLY.

#[global] Instance ParamKind_eq_dec : EqDecision ParamKind.
Proof. solve_decision. Defined.

(** [param_kind.value]; 2 is for VAR_POS *)
Definition param_kind_value (k : ParamKind) : Z :=
  match k with
  | POS_ONLY => 0
  | POS_OR_KW => 1
  | KW_ONLY => 3
  end.

(** [InputField]; [type], [default] and [metadata] are not read by the
    validation. *)
Record InputField : Type := {
  name : string;
  inp_is_required : bool;
  param_kind : ParamKind;
  param_name : string
}.

#[global] Instance InputField_BaseField : BaseField InputField :=
  {| field_id := name; is_required := inp_is_required |}.

Inductive BaseFigureExtra : Type :=
  | NoExtra
  | ExtraKwargs
  | ExtraTargets (fields : list string)
  | ExtraSaturate
  | ExtraExtract.

(** [len({...})]: the number of distinct elements *)
Definition count_distinct (xs : list string) : nat :=
  size (list_to_set xs : gset string).

(** [BaseFigure._validate] *)
Definition BaseFigure_validate (fields : list InputField) (extra : BaseFigureExtra)
  : result unit :=
  let field_names := name <$> fields in
  if bool_decide (count_distinct field_names ≠ length fields) then
    Raise (EValueError FieldNamesDuplicated)
  else
    match extra with
    | ExtraTargets targets =>
        let wild_targets := filter (λ target, target ∉ field_names) targets in
        if bool_decide (wild_targets ≠ []) then
          Raise (EValueError (ExtraTargetsWild wild_targets))
        else Ok ()
    | _ => Ok ()
    end.

(** [pairs] lives in [utils], outside the modelled sources; it yields the
    adjacent pairs, as [zip(fields, islice(fields, 1, None))] does in
    [InputFieldsFigure.__post_init__]. *)
Definition pairs {A} (xs : list A) : list (A * A) := zip xs (tail xs).

(** The body of the loop [for past, current in pairs(self.fields)]. *)
Definition check_pair (past current : InputField) : result unit :=
  if bool_decide (param_kind_value (param_kind past)
                  > param_kind_value (param_kind current)) then
    Raise (EValueError InconsistentOrderOfFields)
  else if is_optional past && is_required current
          && bool_decide (param_kind current ≠ KW_ONLY) then
    Raise (EValueError NotRequiredAfterRequired)
  else Ok ().

Fixpoint check_pairs (ps : list (InputField * InputField)) : result unit :=
  match ps with
  | [] => Ok ()
  | (past, current) :: ps' =>
      let! _u := check_pair past current in check_pairs ps'
  end.

(** [InputFigure._validate], run by [__post_init__] when the figure is built. *)
Definition InputFigure_validate (fields : list InputField) (extra : BaseFigureExtra)
  : result unit :=
  let! _u := BaseFigure_validate fields extra in
  let param_names := param_name <$> fields in
  if bool_decide (count_distinct param_names ≠ length fields) then
    Raise (EValueError ParamNamesDuplicated)
  else check_pairs (pairs fields).

(** [InputFieldsFigure.__post_init__] ([provider/fields_basics.py]): the
    same checks on the order, run before the check of the names. *)
Definition InputFieldsFigure_post_init (fields : list InputField)
    (extra : BaseFigureExtra) : result unit :=
  let! _u := check_pairs (pairs fields) in
  BaseFigure_validate fields extra.

(** ** The structure maker ([BuiltinStructureMaker]) *)

Section structure_maker.
Context {F : Type} `{BaseField F}.
Context {Leaf : Type}.

(** [get_prefix_groups] lives in [utils], outside the modelled sources:
    the structure maker is parametrised by it. *)
Variable get_prefix_groups : list KeyPath → list (KeyPath * list KeyPath).

(** [paths_to_fields[path].append(field)] on a [defaultdict(list)] *)
Definition dict_append (d : list (KeyPath * list F)) (path : KeyPath) (f : F)
  : list (KeyPath * list F) :=
  dict_set d path (default [] (dict_get d path) ++ [f]).

Definition make_paths_to_fields (fields_to_paths : list (F * option KeyPath))
  : list (KeyPath * list F) :=
  foldl (λ d fp, match fp.2 with
                 | Some path => dict_append d path fp.1
                 | None => d
                 end) [] fields_to_paths.

Definition make_duplicates (paths_to_fields : list (KeyPath * list F))
  : list (KeyPath * list string) :=
  (λ pf : KeyPath * list F, (pf.1, field_id <$> pf.2))
    <$> filter (λ pf : KeyPath * list F, (1 < length pf.2)%nat) paths_to_fields.

(** [[path for field, path in fields_to_paths if path is not None]] *)
Definition mapped_paths (fields_to_paths : list (F * option KeyPath))
  : list KeyPath :=
  omap snd fields_to_paths.

(** [paths_to_fields[path][0].id] *)
Definition first_field_id (paths_to_fields : list (KeyPath * list F))
    (path : KeyPath) : result string :=
  match default [] (dict_get paths_to_fields path) with
  | f :: _ => Ok (field_id f)
  | [] => Raise EIndexError
  end.

Definition prefix_details (paths_to_fields : list (KeyPath * list F))
    (prefix_groups : list (KeyPath * list KeyPath))
  : result (list (KeyPath * string * list (KeyPath * string))) :=
  mapM (λ g,
    let! prefix_field := first_field_id paths_to_fields g.1 in
    let! paths := mapM (λ path,
        let! path_field := first_field_id paths_to_fields path in
        Ok (path, path_field)) g.2 in
    Ok (g.1, prefix_field, paths)) prefix_groups.

(** [[field.id for field, path in fields_to_paths
      if path is not None and field.is_optional and isinstance(path[-1], int)]] *)
Fixpoint optional_fields_at_list (fields_to_paths : list (F * option KeyPath))
  : result (list string) :=
  match fields_to_paths with
  | [] => Ok []
  | (f, path) :: rest =>
      let! keep :=
        match path with
        | None => Ok false
        | Some path =>
            if is_optional f
            then let! k := py_getitem path (-1) in Ok (is_int k)
            else Ok false
        end in
      let! ids := optional_fields_at_list rest in
      Ok (if keep : bool then field_id f :: ids else ids)
  end.

Definition _validate_structure (fields_to_paths : list (F * option KeyPath))
  : result unit :=
  let paths_to_fields := make_paths_to_fields fields_to_paths in
  let duplicates := make_duplicates paths_to_fields in
  if bool_decide (duplicates ≠ []) then
    Raise (ECannotProvide
             (terminal_error (MsgPathsPointedToSeveralFields duplicates)))
  else
    let prefix_groups := get_prefix_groups (mapped_paths fields_to_paths) in
    if bool_decide (prefix_groups ≠ []) then
      let! details := prefix_details paths_to_fields prefix_groups in
      Raise (ECannotProvide (terminal_error (MsgPrefixOfAnotherPath details)))
    else
      let! at_list := optional_fields_at_list fields_to_paths in
      if bool_decide (at_list ≠ []) then
        Raise (ECannotProvide (terminal_error (MsgOptionalFieldsAtList at_list)))
      else Ok ().

(** The inner loop of [_iterate_sub_paths],
    [for i in range(len(path) - 1, -1, -1)], with [n] iterations left
    ([i = n - 1]); it returns what it yields and the updated [yielded] set.
    [path !! i] is always [Some _] when [n ≤ len(path)]. *)
Fixpoint iterate_path (path : KeyPath) (n : nat)
    (yielded : gset (KeyPath * Key))
  : list (KeyPath * Key) * gset (KeyPath * Key) :=
  match n with
  | O => ([], yielded)
  | S i =>
      match path !! i with
      | None => ([], yielded)
      | Some key =>
          let result := (take i path, key) in
          if decide (result ∈ yielded) then ([], yielded)
          else
            let r := iterate_path path i ({[result]} ∪ yielded) in
            (result :: r.1, r.2)
      end
  end.

Fixpoint iterate_sub_paths_from (paths : list KeyPath)
    (yielded : gset (KeyPath * Key)) : list (KeyPath * Key) :=
  match paths with
  | [] => []
  | path :: rest =>
      let r := iterate_path path (length path) yielded in
      r.1 ++ iterate_sub_paths_from rest r.2
  end.

(** The generator is pure: its consumer sees the list of what it yields. *)
Definition _iterate_sub_paths (paths : list KeyPath) : list (KeyPath * Key) :=
  iterate_sub_paths_from paths ∅.

Definition inconsistent (sub_path : KeyPath) : exn :=
  ECannotProvide (terminal_error (MsgInconsistentPathElements sub_path)).

(** The loop of [_get_paths_to_list] over the yielded pairs.
    [paths_to_lists] is a [defaultdict(set)], [paths_to_dicts] a set. *)
Fixpoint get_paths_to_list_loop (yields : list (KeyPath * Key))
    (paths_to_lists : list (KeyPath * gset Z)) (paths_to_dicts : gset KeyPath)
  : result (list (KeyPath * gset Z)) :=
  match yields with
  | [] => Ok paths_to_lists
  | (sub_path, key) :: rest =>
      match key with
      | KInt i =>
          if decide (sub_path ∈ paths_to_dicts) then Raise (inconsistent sub_path)
          else
            get_paths_to_list_loop rest
              (dict_set paths_to_lists sub_path
                 ({[i]} ∪ default ∅ (dict_get paths_to_lists sub_path)))
              paths_to_dicts
      | KStr _ =>
          if decide (sub_path ∈ dict_keys paths_to_lists)
          then Raise (inconsistent sub_path)
          else
            get_paths_to_list_loop rest paths_to_lists
              ({[sub_path]} ∪ paths_to_dicts)
      end
  end.

Definition _get_paths_to_list (paths : list KeyPath)
  : result (list (KeyPath * gset Z)) :=
  get_paths_to_list_loop (_iterate_sub_paths paths) [] ∅.

Variable field_crown : string → Leaf.
Variable gaps_filler : KeyPath → Leaf.

(** [{path: field_crown(field.id) for field, path in fields_to_paths
      if path is not None}] *)
Definition initial_paths_to_leaves (fields_to_paths : list (F * option KeyPath))
  : list (KeyPath * Leaf) :=
  foldl (λ d fp, match fp.2 with
                 | Some path => dict_set d path (field_crown (field_id fp.1))
                 | None => d
                 end) [] fields_to_paths.

(** [for i in range(max(indexes)): if i not in indexes: ...] *)
Definition fill_step (path : KeyPath) (indexes : gset Z)
    (paths_to_leaves : list (KeyPath * Leaf)) (i : Z) : list (KeyPath * Leaf) :=
  if decide (i ∈ indexes) then paths_to_leaves
  else let complete_path := path ++ [KInt i] in
       dict_set paths_to_leaves complete_path (gaps_filler complete_path).

Definition fill_gaps (paths_to_leaves : list (KeyPath * Leaf))
    (path : KeyPath) (indexes : gset Z) (top : Z) : list (KeyPath * Leaf) :=
  foldl (fill_step path indexes) paths_to_leaves (seqZ 0 top).

Fixpoint fill_all_gaps (paths_to_lists : list (KeyPath * gset Z))
    (paths_to_leaves : list (KeyPath * Leaf)) : result (list (KeyPath * Leaf)) :=
  match paths_to_lists with
  | [] => Ok paths_to_leaves
  | (path, indexes) :: rest =>
      let! top := py_max (elements indexes) in
      fill_all_gaps rest (fill_gaps paths_to_leaves path indexes top)
  end.

Definition _make_paths_to_leaves (fields_to_paths : list (F * option KeyPath))
  : result (list (KeyPath * Leaf)) :=
  let paths_to_leaves := initial_paths_to_leaves fields_to_paths in
  let! paths_to_lists := _get_paths_to_list (dict_keys paths_to_leaves) in
  fill_all_gaps paths_to_lists paths_to_leaves.

(** [make_out_structure] after [_map_fields]: the argument is the list
    [fields_to_paths] that [_map_fields] produced.  The source calls
    [_make_paths_to_leaves] with [OutFieldCrown] and [_fill_output_gap]
    (component.py:322); they are the section's [field_crown] and
    [gaps_filler] here, since neither the placement of the leaves nor the
    validation looks inside a leaf. *)
Definition make_out_structure (fields_to_paths : list (F * option KeyPath))
  : result (list (KeyPath * Leaf)) :=
  let! paths_to_leaves := _make_paths_to_leaves fields_to_paths in
  let! _u := _validate_structure fields_to_paths in
  Ok paths_to_leaves.

Definition skipped_required_fields (fields_to_paths : list (F * option KeyPath))
  : list string :=
  (λ fp : F * option KeyPath, field_id fp.1)
    <$> filter (λ fp : F * option KeyPath, fp.2 = None ∧ is_required fp.1 = true)
          fields_to_paths.

(** [make_inp_structure] after [_map_fields].  The source calls
    [_make_paths_to_leaves] with [InpFieldCrown] and [_fill_input_gap]
    (component.py:308): the section's [field_crown] and [gaps_filler] stand
    for these, and not for those of [make_out_structure]. *)
Definition make_inp_structure (fields_to_paths : list (F * option KeyPath))
  : result (list (KeyPath * Leaf)) :=
  let skipped := skipped_required_fields fields_to_paths in
  if bool_decide (skipped ≠ []) then
    Raise (ECannotProvide (terminal_error (MsgRequiredFieldsSkipped skipped)))
  else
    let! paths_to_leaves := _make_paths_to_leaves fields_to_paths in
    let! _u := _validate_structure fields_to_paths in
    Ok paths_to_leaves.
End structure_maker.

(** ** Python values, defaults and leaf crowns *)

(** The values that fields hold.  [==] identifies [True]/[False] with
    [1]/[0], as Python does. *)
Inductive PyValue : Type :=
  | PyNone
  | PyBool (b : bool)
  | PyInt (z : Z)
  | PyStr (s : string)
  | PyList (items : list PyValue).

Fixpoint py_eq (a b : PyValue) {struct a} : bool :=
  match a, b with
  | PyNone, PyNone => true
  | PyBool x, PyBool y => bool_decide (x = y)
  | PyBool x, PyInt y => bool_decide ((if x then 1 else 0) = y)
  | PyInt x, PyBool y => bool_decide (x = (if y then 1 else 0))
  | PyInt x, PyInt y => bool_decide (x = y)
  | PyStr x, PyStr y => bool_decide (x = y)
  | PyList xs, PyList ys =>
      (fix go (xs ys : list PyValue) {struct xs} : bool :=
         match xs, ys with
         | [], [] => true
         | x :: xs', y :: ys' => py_eq x y && go xs' ys'
         | _, _ => false
         end) xs ys
  | _, _ => false
  end.

(** [a != b] *)
Definition py_ne (a b : PyValue) : bool := negb (py_eq a b).

(** [apply_rc]; [request_checker field] is the outcome of
    [request_checker.check_request] on the filter request made for [field]
    (the checkers of [request_filtering] and the mediator are outside the
    modelled sources). *)
Definition apply_rc {F} (request_checker : F → result unit) (field : F) : result bool :=
  match request_checker field with
  | Ok _ => Ok true
  | Raise (ECannotProvide _) => Ok false
  | Raise e => Raise e
  end.

Section defaults.
(** The state that a default factory may read and change when it is called. *)
Context {St : Type}.

Inductive Default : Type :=
  | NoDefault
  | DefaultValue (value : PyValue)
  | DefaultFactory (factory : St → PyValue * St)
  | DefaultFactoryWithSelf (factory : PyValue → St → PyValue * St).

Inductive LeafInpCrown : Type :=
  | InpFieldCrown (id : string)
  | InpNoneCrown.

Inductive LeafOutCrown : Type :=
  | OutFieldCrown (id : string)
  | OutNoneCrown (placeholder : Default).

Definition _fill_input_gap (path : KeyPath) : LeafInpCrown := InpNoneCrown.

Definition _fill_output_gap (path : KeyPath) : LeafOutCrown :=
  OutNoneCrown (DefaultValue PyNone).

(** *** The sieves maker ([BuiltinSievesMaker]) *)

(** [OutputField], as far as the sieves maker reads it. *)
Record OutputField : Type := {
  out_id : string;
  out_default : Default;
  out_is_required : bool
}.

#[global] Instance OutputField_BaseField : BaseField OutputField :=
  {| field_id := out_id; is_required := out_is_required |}.

(** A sieve is a routine [(obj, value) -> bool]; calling it may call a
    factory, hence the state. *)
Definition Sieve : Type := PyValue → PyValue → St → bool * St.

(** [with_default_clause] ([special_cases_optimization], outside the modelled
    sources) attaches the default to the routine for the code generator and
    returns the routine. *)
Definition with_default_clause (default : Default) (sieve : Sieve) : Sieve := sieve.

Definition _create_sieve (field : OutputField) : result Sieve :=
  match out_default field with
  | DefaultValue default_value =>
      Ok (with_default_clause (out_default field)
            (λ obj value st, (py_ne value default_value, st)))
  | DefaultFactory default_factory =>
      Ok (with_default_clause (out_default field)
            (λ obj value st,
               let r := default_factory st in (py_ne value r.1, r.2)))
  | DefaultFactoryWithSelf default_factory_with_self =>
      Ok (with_default_clause (out_default field)
            (λ obj value st,
               let r := default_factory_with_self obj st in (py_ne value r.1, r.2)))
  | NoDefault => Raise (EValueError BareValueError)
  end.

(** [field.default != NoDefault()] *)
Definition has_default (field : OutputField) : bool :=
  match out_default field with NoDefault => false | _ => true end.

(** [request.shape.fields_dict[id]] *)
Definition fields_dict (fields : list OutputField) (id : string)
  : result OutputField :=
  match list_find (λ f, out_id f = id) fields with
  | Some (_, f) => Ok f
  | None => Raise EKeyError
  end.

(** [SievesSchema]; [omit_default] is given by the outcome of its
    [check_request] on the filter request of a field. *)
Record SievesSchema : Type := {
  omit_default : OutputField → result unit
}.

(** The loop of [make_sieves] over [paths_to_leaves.items()].  [apply_rc] is
    called only for a field that has a default ([and] short-circuits). *)
Fixpoint make_sieves_loop (fields : list OutputField) (schema : SievesSchema)
    (items : list (KeyPath * LeafOutCrown))
    (sieves : list (KeyPath * Sieve)) : result (list (KeyPath * Sieve)) :=
  match items with
  | [] => Ok sieves
  | (path, leaf) :: rest =>
      match leaf with
      | OutFieldCrown id =>
          let! field := fields_dict fields id in
          if has_default field then
            let! omitted := apply_rc (omit_default schema) field in
            if omitted then
              let! sieve := _create_sieve field in
              make_sieves_loop fields schema rest (dict_set sieves path sieve)
            else make_sieves_loop fields schema rest sieves
          else make_sieves_loop fields schema rest sieves
      | OutNoneCrown _ => make_sieves_loop fields schema rest sieves
      end
  end.

(** [make_sieves]; [provided_schema] is the outcome of
    [provide_schema(SievesOverlay, mediator, request.loc_map)], which may
    raise. *)
Definition make_sieves (fields : list OutputField)
    (provided_schema : result SievesSchema)
    (paths_to_leaves : list (KeyPath * LeafOutCrown))
  : result (list (KeyPath * Sieve)) :=
  let! schema := provided_schema in
  make_sieves_loop fields schema paths_to_leaves [].
End defaults.

Arguments Default : clear implicits.
Arguments LeafOutCrown : clear implicits.
Arguments OutputField : clear implicits.
Arguments Sieve : clear implicits.
Arguments SievesSchema : clear implicits.

(** ** List crowns *)

(** [ListCrown.list_len]: [max(self.map) + 1] over the keys of the map. *)
Definition list_len {C} (map : list (Z * C)) : result Z :=
  let! top := py_max (dict_keys map) in Ok (top + 1).

(** Modelled from the spec: the crown assembler is outside the modelled
    sources; the spec has it "assemble the final Crown tree from the validated
    path→field mapping".  The map of the list crown at [parent] has one entry
    per integer key that continues [parent] in a leaf path, holding the leaves
    below that key. *)
Definition list_crown_map {Leaf} (paths_to_leaves : list (KeyPath * Leaf))
    (parent : KeyPath) : list (Z * list (KeyPath * Leaf)) :=
  foldl (λ m pl,
           if decide (take (length parent) pl.1 = parent) then
             match pl.1 !! length parent with
             | Some (KInt i) =>
                 dict_set m i (default [] (dict_get m i)
                               ++ [(drop (S (length parent)) pl.1, pl.2)])
             | _ => m
             end
           else m) [] paths_to_leaves.

(** ** The extra policies maker ([BuiltinExtraMoveAndPoliciesMaker]) *)

Inductive DictExtraPolicy : Type :=
  | ExtraSkip
  | ExtraForbid
  | ExtraCollect.

#[global] Instance DictExtraPolicy_eq_dec : EqDecision DictExtraPolicy.
Proof. solve_decision. Defined.

(** [schema.extra_in] *)
Inductive ExtraIn : Type :=
  | ExtraInSkip
  | ExtraInForbid
  | ExtraInKwargs
  | ExtraInCallable
  | ExtraInNames (names : list string).

Definition _get_extra_policy (extra_in : ExtraIn) : DictExtraPolicy :=
  match extra_in with
  | ExtraInSkip => ExtraSkip
  | ExtraInForbid => ExtraForbid
  | _ => ExtraCollect
  end.

(** What a generator does when it is iterated: it yields, ends or raises. *)
Inductive gen (A : Type) : Type :=
  | GEnd
  | GYield (a : A) (rest : gen A)
  | GRaise (e : exn).
Arguments GEnd {A}.
Arguments GYield {A} a rest.
Arguments GRaise {A} e.

(** [range(len(path) - 1, -2, -1)] *)
Definition branch_range (path : KeyPath) : list Z :=
  (λ k : nat, Z.of_nat (length path) - 1 - Z.of_nat k) <$> seq 0 (S (length path)).

(** The inner loop of [_paths_to_branches] over the remaining values of [i];
    [next] is the rest of the generator.  [yielded_branch_path] is never
    added to in the source. *)
Fixpoint branches_of_path (path : KeyPath) (range : list Z)
    (yielded_branch_path : gset KeyPath) (next : gen (KeyPath * Key))
  : gen (KeyPath * Key) :=
  match range with
  | [] => next
  | i :: range' =>
      let sub_path := py_slice_to path i in
      if decide (sub_path ∈ yielded_branch_path) then next
      else
        match py_getitem path i with
        | Ok key =>
            GYield (sub_path, key)
              (branches_of_path path range' yielded_branch_path next)
        | Raise e => GRaise e
        end
  end.

Fixpoint paths_to_branches_from (paths : list KeyPath)
    (yielded_branch_path : gset KeyPath) : gen (KeyPath * Key) :=
  match paths with
  | [] => GEnd
  | path :: rest =>
      branches_of_path path (branch_range path) yielded_branch_path
        (paths_to_branches_from rest yielded_branch_path)
  end.

Definition _paths_to_branches {Leaf} (paths_to_leaves : list (KeyPath * Leaf))
  : gen (KeyPath * Key) :=
  paths_to_branches_from (dict_keys paths_to_leaves) ∅.

Definition collect_with_list : exn :=
  ECannotProvide (terminal_error MsgCollectWithListMapping).

Fixpoint extra_policies_loop (branches : gen (KeyPath * Key))
    (policy : DictExtraPolicy)
    (path_to_extra_policy : list (KeyPath * DictExtraPolicy))
  : result (list (KeyPath * DictExtraPolicy)) :=
  match branches with
  | GEnd => Ok path_to_extra_policy
  | GRaise e => Raise e
  | GYield (path, key) rest =>
      if bool_decide (policy = ExtraCollect) && is_int key
      then Raise collect_with_list
      else extra_policies_loop rest policy
             (dict_set path_to_extra_policy path policy)
  end.

(** [make_extra_policies]; [extra_in] is [schema.extra_in]. *)
Definition make_extra_policies {Leaf} (extra_in : ExtraIn)
    (paths_to_leaves : list (KeyPath * Leaf))
  : result (list (KeyPath * DictExtraPolicy)) :=
  let policy := _get_extra_policy extra_in in
  extra_policies_loop (_paths_to_branches paths_to_leaves) policy [([], policy)].

(** ** Predicates used by the statements *)

(** [x] is a pair [(path[:i], path[i])] of [path]. *)
Definition sub_of (path : KeyPath) (x : KeyPath * Key) : Prop :=
  ∃ i, path !! i = Some x.2 ∧ x.1 = take i path.

(** [Y] holds, with every pair, the pairs of the shorter sub-paths. *)
Definition closed (Y : gset (KeyPath * Key)) : Prop :=
  ∀ x, x ∈ Y → ∀ y, sub_of x.1 y → y ∈ Y.

(** Two mapped paths use [parent] with keys of different kinds. *)
Definition mixed_at (paths : list KeyPath) (parent : KeyPath) : Prop :=
  ∃ p q i s, p ∈ paths ∧ q ∈ paths ∧
    take (length parent) p = parent ∧ p !! length parent = Some (KInt i) ∧
    take (length parent) q = parent ∧ q !! length parent = Some (KStr s).

(** [i] is an integer key that continues [parent] in one of [paths]. *)
Definition index_under (paths : list KeyPath) (parent : KeyPath) (i : Z) : Prop :=
  ∃ p, p ∈ paths ∧ sub_of p (parent, KInt i).

(** [key] is the path of a gap below an entry of [paths_to_lists]. *)
Definition gap_key (paths_to_lists : list (KeyPath * gset Z)) (key : KeyPath) : Prop :=
  ∃ sp S top i, (sp, S) ∈ paths_to_lists ∧ py_max (elements S) = Ok top ∧
    (0 ≤ i < top) ∧ (i ∉ S) ∧ key = sp ++ [KInt i].

(** [top] is the greatest integer key under [parent]. *)
Definition max_index_under (paths : list KeyPath) (parent : KeyPath) (top : Z) : Prop :=
  index_under paths parent top ∧ ∀ j, index_under paths parent j → j ≤ top.

(** [key] is [parent + (i,)] for an index [i] below the greatest one under
    [parent] that no path uses. *)
Definition is_gap (paths : list KeyPath) (key : KeyPath) : Prop :=
  ∃ parent top i, max_index_under paths parent top ∧
    (0 ≤ i < top) ∧ ¬ index_under paths parent i ∧ key = parent ++ [KInt i].

(** The fields that [fields_to_paths] maps to [path], in order. *)
Definition fields_at {F} (fields_to_paths : list (F * option KeyPath))
    (path : KeyPath) : list F :=
  (filter (λ fp : F * option KeyPath, fp.2 = Some path) fields_to_paths).*1.

(** The entries at the positions [i ≠ j] are mapped to the same [path]. *)
Definition collide {F} (fields_to_paths : list (F * option KeyPath))
    (i j : nat) (f g : F) (path : KeyPath) : Prop :=
  i ≠ j ∧ fields_to_paths !! i = Some (f, Some path)
        ∧ fields_to_paths !! j = Some (g, Some path).

Definition duplicates_error (duplicates : list (KeyPath * list string)) : CannotProvide :=
  {| msg := Some (MsgPathsPointedToSeveralFields duplicates);
     sub_errors := [];
     is_terminal := true; is_demonstrative := true |}.

(** The first half of C1 read literally, for the output direction: whenever
    two entries collide, [make_out_structure] raises the duplicates error. *)
Definition duplicates_always_reported : Prop :=
  ∀ (get_prefix_groups : list KeyPath → list (KeyPath * list KeyPath))
    (fields_to_paths : list (OutputField unit * option KeyPath))
    i j f g path,
    collide fields_to_paths i j f g path →
    ∃ duplicates,
      make_out_structure get_prefix_groups (@OutFieldCrown unit) _fill_output_gap
        fields_to_paths
      = Raise (ECannotProvide (duplicates_error duplicates)).

(** What iterating a generator to its end produces: the values yielded, and
    the exception that stopped it, if any. *)
Fixpoint gen_to_list {A} (g : gen A) : list A * option exn :=
  match g with
  | GEnd => ([], None)
  | GRaise e => ([], Some e)
  | GYield a rest => let r := gen_to_list rest in (a :: r.1, r.2)
  end.

(** [branch] is the path of a branch of the tree of [paths], with [key] one
    of its child keys. *)
Definition branch_of (paths : list KeyPath) (branch : KeyPath) (key : Key) : Prop :=
  ∃ p, p ∈ paths ∧ sub_of p (branch, key).

(** Some branch key of the tree is a list index. *)
Definition int_branch_key (paths : list KeyPath) : Prop :=
  ∃ branch i, branch_of paths branch (KInt i).

(** The second half of C9 read literally: without an integer branch key
    the extra policies maker succeeds. *)
Definition extra_policies_total : Prop :=
  ∀ (extra_in : ExtraIn) (paths_to_leaves : list (KeyPath * LeafInpCrown)),
    ¬ int_branch_key (dict_keys paths_to_leaves) →
    ∃ d, make_extra_policies extra_in paths_to_leaves = Ok d.

(** The sieve that [make_sieves] stores for a leaf, if it stores one. *)
Definition sieve_for {St} (fields : list (OutputField St))
    (schema : SievesSchema St) (leaf : LeafOutCrown St)
  : option (Sieve St) :=
  match leaf with
  | OutFieldCrown id =>
      match fields_dict fields id with
      | Ok field =>
          if has_default field then
            match apply_rc (omit_default schema) field with
            | Ok true =>
                match _create_sieve field with
                | Ok sieve => Some sieve
                | Raise _ => None
                end
            | _ => None
            end
          else None
      | Raise _ => None
      end
  | OutNoneCrown _ => None
  end.

(** What the sieve of a field with the given default answers. *)
Definition sieve_answer {St} (default : Default St) (obj value : PyValue) (st : St)
  : bool * St :=
  match default with
  | NoDefault => (true, st)
  | DefaultValue v => (negb (py_eq value v), st)
  | DefaultFactory f => (negb (py_eq value (f st).1), (f st).2)
  | DefaultFactoryWithSelf f => (negb (py_eq value (f obj st).1), (f obj st).2)
  end.

(** ** Orderings of the fields of an input figure *)

(** positional-only, then positional-or-keyword, then keyword-only *)
Definition kinds_monotonic (fields : list InputField) : Prop :=
  ∀ i j a b, (i < j)%nat → fields !! i = Some a → fields !! j = Some b →
    param_kind_value (param_kind a) ≤ param_kind_value (param_kind b).

(** No optional parameter is followed by a required one that is not
    keyword-only: required parameters come first, except keyword-only ones. *)
Definition required_first (fields : list InputField) : Prop :=
  ∀ i j a b, (i < j)%nat → fields !! i = Some a → fields !! j = Some b →
    inp_is_required a = false → inp_is_required b = true →
    param_kind b = KW_ONLY.

(** The ordering as C4 words it: every optional parameter comes before
    every required one, keyword-only required ones excepted. *)
Definition optional_first (fields : list InputField) : Prop :=
  ∀ i j a b, fields !! i = Some a → fields !! j = Some b →
    inp_is_required a = true → param_kind a ≠ KW_ONLY →
    inp_is_required b = false → (j < i)%nat.

Definition targets_exist (fields : list InputField) (extra : BaseFigureExtra) : Prop :=
  match extra with
  | ExtraTargets targets => ∀ t, t ∈ targets → t ∈ name <$> fields
  | _ => True
  end.

(** C4 read literally. *)
Definition optional_first_enforced : Prop :=
  ∀ fields extra,
    (¬ optional_first fields →
       ∃ m, InputFigure_validate fields extra = Raise (EValueError m)) ∧
    (optional_first fields → kinds_monotonic fields →
       NoDup (name <$> fields) → NoDup (param_name <$> fields) →
       targets_exist fields extra →
       InputFigure_validate fields extra = Ok ()).

(** ** Statements about checkers *)

(** The contract of [check_request]: it returns, or raises [CannotProvide]. *)
Definition conforms (r : result unit) : Prop :=
  r = Ok () ∨ ∃ e, r = Raise (ECannotProvide e).

(** What lets [make_sieves] run to its end: every field crown names a known
    field, and the omit-default checker gives a decision (it returns or raises
    [CannotProvide]) for each such field that has a default. *)
Definition sieves_decided {St} (fields : list (OutputField St))
    (schema : SievesSchema St) (items : list (KeyPath * LeafOutCrown St)) : Prop :=
  ∀ path id, (path, OutFieldCrown id) ∈ items →
    ∃ f, fields_dict fields id = Ok f
         ∧ (has_default f = true → conforms (omit_default schema f)).

(** C6 read literally: [a ^ b] succeeds exactly when one of [a], [b]
    succeeds and the other does not. *)
Definition xor_succeeds_iff_exactly_one_does `{TypeTools} {T : Type} : Prop :=
  ∀ (a b : RequestChecker T) (mediator : Mediator T) (r : Request),
    check_request (XorRequestChecker a b) mediator r = Ok () ↔
    (check_request a mediator r = Ok () ∧ check_request b mediator r ≠ Ok ())
    ∨ (check_request a mediator r ≠ Ok () ∧ check_request b mediator r = Ok ()).

(** [for checker, stack_request in zip(checkers, requests):
       checker.check_request(mediator, stack_request)] *)
Definition check_zip {C R} (check : C → R → result unit)
  : list C → list R → result unit :=
  fix loop (checkers : list C) (requests : list R) : result unit :=
    match checkers, requests with
    | checker :: checkers', stack_request :: requests' =>
        let! _u := check checker stack_request in
        loop checkers' requests'
    | _, _ => Ok ()
    end.

(** ** An instance of the type tools for the examples *)

Inductive ToyHint : Type :=
  | TInt            (* a plain class *)
  | TGenericList    (* a generic used without its arguments *)
  | TTypeVar        (* a type variable *)
  | TSupportsInt    (* a protocol class *)
  | TAbstractBase   (* an abstract base class *)
  | TBroken.        (* not a type hint at all *)

Inductive ToyNorm : Type :=
  | ToyNormType (origin : ToyHint)
  | ToyNormTV.

#[global] Instance ToyHint_eq_dec : EqDecision ToyHint.
Proof. solve_decision. Defined.

#[global] Instance ToyNorm_eq_dec : EqDecision ToyNorm.
Proof. solve_decision. Defined.

Definition is_ascii_letter (c : ascii) : bool :=
  let n := nat_of_ascii c in
  (bool_decide (65 ≤ n ≤ 90) || bool_decide (97 ≤ n ≤ 122) || bool_decide (n = 95))%nat.

Definition is_ascii_digit (c : ascii) : bool :=
  let n := nat_of_ascii c in bool_decide (48 ≤ n ≤ 57)%nat.

Fixpoint string_forallb (f : ascii → bool) (s : string) : bool :=
  match s with
  | EmptyString => true
  | String c rest => f c && string_forallb f rest
  end.

(** [str.isidentifier] on ASCII strings *)
Definition ascii_isidentifier (s : string) : bool :=
  match s with
  | EmptyString => false
  | String c rest =>
      is_ascii_letter c
      && string_forallb (λ c, is_ascii_letter c || is_ascii_digit c) rest
  end.

(** Patterns are literal strings here; ["("] does not compile.  The field
    location named ["age"] is a type hint location of type [TInt]; the other
    field locations have no type. *)
#[global] Instance toy_tools : TypeTools := {|
  TypeHint := ToyHint;
  NormType := ToyNorm;
  Pattern := string;
  normalize_type tp :=
    match tp with
    | TGenericList => Raise ENotSubscribedError
    | TTypeVar => Ok ToyNormTV
    | TBroken => Raise (EValueError BareValueError)
    | _ => Ok (ToyNormType tp)
    end;
  norm_origin n := match n with ToyNormType o => o | ToyNormTV => TTypeVar end;
  norm_eqb a b := bool_decide (a = b);
  origin_eqb a b := bool_decide (a = b);
  is_norm_tv n := match n with ToyNormTV => true | _ => false end;
  is_subclass_soft a b :=
    bool_decide (a = b) || (bool_decide (a = TInt) && bool_decide (b = TSupportsInt));
  is_parametrized _ := false;
  is_protocol tp := bool_decide (tp = TSupportsInt);
  isabstract tp := bool_decide (tp = TAbstractBase);
  isidentifier := ascii_isidentifier;
  re_compile s := if bool_decide (s = "(") then Raise EReError else Ok s;
  fullmatch p s := bool_decide (p = s);
  field_location_type name := if bool_decide (name = "age") then Some TInt else None
|}.

(** The type-hint branch of C5 read literally: a hint whose origin is a
    protocol or an abstract class gives a subclass checker. *)
Definition abstract_origin_gives_subclass : Prop :=
  ∀ (tp : ToyHint) (norm : ToyNorm),
    normalize_type tp = Ok norm → is_norm_tv norm = false →
    is_protocol (norm_origin norm) || isabstract (norm_origin norm) = true →
    create_req_checker (T:=unit) (PredTypeHint tp)
      = Ok (SubclassRC (norm_origin norm)).

(** * Further code of the modelled files *)

(** ** The operators of [RequestChecker] and the loops of its subclasses *)

Section checker_operators.
Context `{TypeTools} {T : Type}.

(** [RequestChecker.__or__] *)
Definition __or__ (self other : RequestChecker T) : RequestChecker T :=
  OrRequestChecker [self; other].

(** [RequestChecker.__and__] *)
Definition __and__ (self other : RequestChecker T) : RequestChecker T :=
  AndRequestChecker [self; other].

(** [RequestChecker.__xor__] *)
Definition __xor__ (self other : RequestChecker T) : RequestChecker T :=
  XorRequestChecker self other.

(** [RequestChecker.__neg__] *)
Definition __neg__ (self : RequestChecker T) : RequestChecker T :=
  NegRequestChecker self.
End checker_operators.

(** The loop of [OrRequestChecker.check_request], over the outcomes of the
    checkers. *)
Definition or_loop {C} (check : C → result unit)
  : list C → list CannotProvide → result unit :=
  fix loop (checkers : list C) (sub_errors : list CannotProvide) : result unit :=
    match checkers with
    | [] => Raise (ECannotProvide
                     {| msg := None; sub_errors := sub_errors;
                        is_terminal := false; is_demonstrative := false |})
    | checker :: checkers' =>
        match check checker with
        | Ok _ => Ok ()
        | Raise (ECannotProvide e) => loop checkers' (sub_errors ++ [e])
        | Raise e => Raise e
        end
    end.

(** The loop of [AndRequestChecker.check_request]. *)
Definition and_loop {C} (check : C → result unit) : list C → result unit :=
  fix loop (checkers : list C) : result unit :=
    match checkers with
    | [] => Ok ()
    | checker :: checkers' => let! _u := check checker in loop checkers'
    end.

(** The loop of [ConcatProvider.apply_provider], over the outcomes of the
    providers. *)
Definition concat_loop {P R} (apply : P → result R)
  : list P → list CannotProvide → result R :=
  fix loop (ps : list P) (errors : list CannotProvide) : result R :=
    match ps with
    | [] => Raise (ECannotProvide
                     {| msg := None; sub_errors := errors;
                        is_terminal := false; is_demonstrative := false |})
    | provider :: ps' =>
        match apply provider with
        | Ok r => Ok r
        | Raise (ECannotProvide e) => loop ps' (errors ++ [e])
        | Raise e => Raise e
        end
    end.

(** Two outcomes agree up to the content of [CannotProvide]: the same value,
    the same exception, or [CannotProvide] on both sides. *)
Definition same_outcome {A} (r1 r2 : result A) : Prop :=
  match r1, r2 with
  | Ok a1, Ok a2 => a1 = a2
  | Raise (ECannotProvide _), Raise (ECannotProvide _) => True
  | Raise e1, Raise e2 => e1 = e2
  | _, _ => False
  end.

(** ** Statements about the structure maker *)

(** The entries of [fields_to_paths] whose field is mapped to a path. *)
Definition drop_unmapped {F} (fields_to_paths : list (F * option KeyPath))
  : list (F * option KeyPath) :=
  filter (λ fp : F * option KeyPath, is_Some fp.2) fields_to_paths.

(** ** Python string helpers *)

(** [s.endswith(suffix)] *)
Fixpoint endswith (s suffix : string) : bool :=
  if bool_decide (s = suffix) then true
  else match s with
       | EmptyString => false
       | String _ rest => endswith rest suffix
       end.

(** [s.rstrip(c)] for a one-character argument: all the trailing [c] go. *)
Fixpoint rstrip (s : string) (c : ascii) : string :=
  match s with
  | EmptyString => EmptyString
  | String a rest =>
      let stripped := rstrip rest c in
      if bool_decide (stripped = EmptyString) && bool_decide (a = c)
      then EmptyString else String a stripped
  end.

(** [xs.index(x)]: the first position of [x]; [ValueError] when absent. *)
Definition py_index {A} `{EqDecision A} (xs : list A) (x : A) : result Z :=
  match list_find (λ y, y = x) xs with
  | Some (i, _) => Ok (Z.of_nat i)
  | None => Raise (EValueError BareValueError)
  end.

(** Fields are frozen dataclasses: [==] compares them by value. *)
#[global] Instance InputField_eq_dec : EqDecision InputField.
Proof. solve_decision. Defined.

(** ** Mapping the fields to paths ([BuiltinStructureMaker._map_fields]) *)

(** [StructureSchema].  [skip] and [only] are given by the outcome of
    their [check_request] on the filter request of a field; [map] by the
    outcome of the provider made of the recipe ([_create_map_provider]) on the
    [NameMappingRequest] of a field and its generated key: a path, [None], or
    an exception. *)
Record StructureSchema (F NameStyle : Type) : Type := {
  schema_skip : F → result unit;
  schema_only : F → result unit;
  schema_map : F → Key → result (option KeyPath);
  trim_trailing_underscore : bool;
  name_style : option NameStyle;
  as_list : bool
}.
Arguments schema_skip {F NameStyle} _.
Arguments schema_only {F NameStyle} _.
Arguments schema_map {F NameStyle} _.
Arguments trim_trailing_underscore {F NameStyle} _.
Arguments name_style {F NameStyle} _.
Arguments as_list {F NameStyle} _.

Module BuiltinStructureMaker.
Section map_fields.
Context {F : Type} `{BaseField F} `{EqDecision F} {NameStyle : Type}.

(** [convert_snake_style] lives in [name_style], outside the modelled
    sources. *)
Variable convert_snake_style : string → NameStyle → result string.

Definition _generate_key (schema : StructureSchema F NameStyle)
    (shape_fields : list F) (field : F) : result Key :=
  if as_list schema then
    let! i := py_index shape_fields field in Ok (KInt i)
  else
    let name := field_id field in
    let name :=
      if trim_trailing_underscore schema && endswith name "_"
         && negb (endswith name "__")
      then rstrip name "_" else name in
    match name_style schema with
    | Some style => let! name := convert_snake_style name style in Ok (KStr name)
    | None => Ok (KStr name)
    end.

Definition _create_map_provider (schema : StructureSchema F NameStyle)
  : F → Key → result (option KeyPath) :=
  schema_map schema.

(** The body of the loop of [_map_fields] for a field that is not an extra
    target: what is yielded for it. *)
Definition map_field (schema : StructureSchema F NameStyle)
    (shape_fields : list F) (field : F) : result (F * option KeyPath) :=
  let map_provider := _create_map_provider schema in
  let! generated_key := _generate_key schema shape_fields field in
  let! path :=
    match map_provider field generated_key with
    | Raise (ECannotProvide _) => Ok (Some [generated_key])
    | outcome => outcome
    end in
  match path with
  | None => Ok (field, None)
  | Some path =>
      let! skipped := apply_rc (schema_skip schema) field in
      if negb skipped then
        let! chosen := apply_rc (schema_only schema) field in
        if chosen then Ok (field, Some path) else Ok (field, None)
      else Ok (field, None)
  end.

(** [extra_move.fields if isinstance(extra_move, ExtraTargets) else ()] *)
Definition extra_targets_of (extra_move : BaseFigureExtra) : list string :=
  match extra_move with
  | ExtraTargets fields => fields
  | _ => []
  end.

(** The loop of [_map_fields] over the remaining fields. *)
Fixpoint map_fields_loop (schema : StructureSchema F NameStyle)
    (shape_fields : list F) (extra_targets : list string) (fields : list F)
  : result (list (F * option KeyPath)) :=
  match fields with
  | [] => Ok []
  | field :: rest =>
      if bool_decide (field_id field ∈ extra_targets) then
        map_fields_loop schema shape_fields extra_targets rest
      else
        let! entry := map_field schema shape_fields field in
        let! entries := map_fields_loop schema shape_fields extra_targets rest in
        Ok (entry :: entries)
  end.

(** [list(self._map_fields(mediator, request, schema, extra_move))]: the
    generator is consumed to its end by both callers, so an exception of any
    step is the outcome. *)
Definition _map_fields (schema : StructureSchema F NameStyle)
    (shape_fields : list F) (extra_move : BaseFigureExtra)
  : result (list (F * option KeyPath)) :=
  map_fields_loop schema shape_fields (extra_targets_of extra_move) shape_fields.

Context {Leaf : Type}.
Variable get_prefix_groups : list KeyPath → list (KeyPath * list KeyPath).
Variable field_crown : string → Leaf.
Variable gaps_filler : KeyPath → Leaf.

(** [BuiltinStructureMaker.make_inp_structure], from the schema that
    [provide_schema] gives and the fields of the shape. *)
Definition make_inp_structure (schema : StructureSchema F NameStyle)
    (shape_fields : list F) (extra_move : BaseFigureExtra)
  : result (list (KeyPath * Leaf)) :=
  let! fields_to_paths := _map_fields schema shape_fields extra_move in
  make_inp_structure get_prefix_groups field_crown gaps_filler fields_to_paths.

(** [BuiltinStructureMaker.make_out_structure] *)
Definition make_out_structure (schema : StructureSchema F NameStyle)
    (shape_fields : list F) (extra_move : BaseFigureExtra)
  : result (list (KeyPath * Leaf)) :=
  let! fields_to_paths := _map_fields schema shape_fields extra_move in
  make_out_structure get_prefix_groups field_crown gaps_filler fields_to_paths.
End map_fields.
End BuiltinStructureMaker.

(** ** The extra move maker ([BuiltinExtraMoveAndPoliciesMaker]) *)







(** ** The namespace of generated code ([code_tools/context_namespace.py]) *)

Section context_namespace.
Context {V : Type}.

(** [BuiltinContextNamespace.__init__]: the given dict, or a new empty one. *)
Definition BuiltinContextNamespace_init (namespace : option (gmap string V))
  : gmap string V :=
  match namespace with
  | None => ∅
  | Some namespace => namespace
  end.

(** [BuiltinContextNamespace.add], on the dict of the namespace. *)
Definition BuiltinContextNamespace_add (dict : gmap string V) (name : string)
    (value : V) : result (gmap string V) :=
  if bool_decide (name ∈ dom dict) then Raise EKeyError
  else Ok (<[name := value]> dict).

(** A sequence of calls of [add] on the same namespace, stopped by the first
    exception. *)
Fixpoint add_all (dict : gmap string V) (items : list (string * V))
  : result (gmap string V) :=
  match items with
  | [] => Ok dict
  | (name, value) :: rest =>
      let! dict := BuiltinContextNamespace_add dict name value in
      add_all dict rest
  end.
End context_namespace.

(** ** Unique ids of compiled closures ([code_tools/compiler.py]) *)

(** [ConcurrentCounter.generate_idx]: the lock makes each call atomic, so a
    run is a sequence of calls on the [defaultdict(lambda: 0)]. *)
Definition generate_idx (name_to_idx : gmap string nat) (name : string)
  : nat * gmap string nat :=
  let idx := default 0%nat (name_to_idx !! name) in
  (idx, <[name := S idx]> name_to_idx).

(** [BasicClosureCompiler._get_unique_id], with the state of [_counter]. *)
Definition _get_unique_id (counter : gmap string nat) (base_filename : string)
  : string * gmap string nat :=
  let r := generate_idx counter base_filename in
  let idx := r.1 in
  (if bool_decide (idx = 0%nat) then base_filename
   else base_filename +:+ " " +:+ pretty idx, r.2).

(** The ids given to a sequence of calls of [_get_unique_id]. *)
Fixpoint unique_ids (counter : gmap string nat) (base_filenames : list string)
  : list string :=
  match base_filenames with
  | [] => []
  | base_filename :: rest =>
      let r := _get_unique_id counter base_filename in
      r.1 :: unique_ids r.2 rest
  end.

(** ** The checks made when a field is built ([model_tools/definitions.py]) *)

(** The [ValueError]s of [BaseField.__post_init__] and
    [InputField.__post_init__], by their message. *)
Inductive FieldError : Type :=
  | NameMustBeIdentifier (name : string)
  | ParamNameMustBeIdentifier (param_name : string)
  | PositionalOnlyAndOptional.

Section field_post_init.
(** [str.isidentifier] *)
Variable isidentifier : string → bool.

(** [BaseField.__post_init__]: [None] when the field is built, [Some e] when
    [ValueError] is raised with the message [e]. *)
Definition BaseField_post_init (field : InputField) : option FieldError :=
  if negb (isidentifier (name field)) then Some (NameMustBeIdentifier (name field))
  else None.

(** [InputField.__post_init__] *)
Definition InputField_post_init (field : InputField) : option FieldError :=
  match BaseField_post_init field with
  | Some e => Some e
  | None =>
      if negb (isidentifier (param_name field)) then
        Some (ParamNameMustBeIdentifier (param_name field))
      else if bool_decide (param_kind field = POS_ONLY) && negb (is_required field) then
        Some PositionalOnlyAndOptional
      else None
  end.
End field_post_init.
(** * Lemmas and theorems *)

Section dict_lemmas.
Context {K V : Type} `{EqDecision K}.
Implicit Types (d : list (K * V)).

Lemma dict_get_set_eq d k v : dict_get (dict_set d k v) k = Some v.
Proof.
  induction d as [|[k' v'] d IH]; simpl.
  - by rewrite decide_True.
  - destruct (decide (k' = k)) as [->|Hne]; simpl.
    + by rewrite decide_True.
    + by rewrite decide_False.
Qed.

Lemma dict_get_set_ne d k k' v :
  k ≠ k' → dict_get (dict_set d k v) k' = dict_get d k'.
Proof.
  intros Hne. induction d as [|[k0 v0] d IH]; simpl.
  - by rewrite decide_False.
  - destruct (decide (k0 = k)) as [->|Hne0]; simpl.
    + by rewrite !decide_False.
    + by rewrite IH.
Qed.

Lemma dict_get_Some_keys d k v : dict_get d k = Some v → k ∈ dict_keys d.
Proof.
  induction d as [|[k0 v0] d IH]; simpl; [done|].
  destruct (decide (k0 = k)) as [->|Hne]; intros H.
  - apply list_elem_of_here.
  - apply list_elem_of_further. by apply IH.
Qed.

Lemma dict_get_None_keys d k : dict_get d k = None ↔ k ∉ dict_keys d.
Proof.
  induction d as [|[k0 v0] d IH]; simpl.
  - split; [intros _ H; by apply elem_of_nil in H|done].
  - destruct (decide (k0 = k)) as [->|Hne].
    + split; [done|]. intros H. exfalso. apply H, list_elem_of_here.
    + rewrite IH. rewrite not_elem_of_cons. naive_solver.
Qed.

Lemma dict_keys_set d k v :
  ∀ k', k' ∈ dict_keys (dict_set d k v) ↔ k' = k ∨ k' ∈ dict_keys d.
Proof.
  intros k'. induction d as [|[k0 v0] d IH]; simpl.
  - rewrite list_elem_of_singleton. rewrite elem_of_nil. naive_solver.
  - destruct (decide (k0 = k)) as [->|Hne]; simpl.
    + rewrite !elem_of_cons. naive_solver.
    + rewrite !elem_of_cons, IH. naive_solver.
Qed.
End dict_lemmas.

(** ** Properties of the sub-path iteration *)

Section sub_paths.
Implicit Types (path sp : KeyPath) (x : KeyPath * Key)
  (Y : gset (KeyPath * Key)).

Lemma sub_of_take path i k y :
  path !! i = Some k → sub_of (take i path) y → sub_of path y.
Proof.
  intros Hi (j & Hj & Hy). exists j.
  apply lookup_take_Some in Hj as [Hj Hlt].
  split; [done|]. rewrite Hy, take_take. f_equal. lia.
Qed.

Lemma iterate_path_spec path Y0 :
  closed Y0 →
  ∀ n Y, (n ≤ length path)%nat →
    (∀ x, x ∈ Y ↔ x ∈ Y0 ∨ ∃ j, (n ≤ j)%nat ∧ path !! j = Some x.2 ∧ x.1 = take j path) →
    let r := iterate_path path n Y in
    (∀ x, x ∈ r.2 ↔ x ∈ Y0 ∨ sub_of path x) ∧
    (∀ x, x ∈ r.2 ↔ x ∈ Y ∨ x ∈ r.1) ∧
    (∀ x, x ∈ r.1 → sub_of path x ∧ x ∉ Y).
Proof.
  intros Hclosed n. induction n as [|i IH]; intros Y Hn HY; simpl.
  - split_and!.
    + intros x. rewrite HY. unfold sub_of. split.
      * intros [?|(j & _ & ?)]; eauto.
      * intros [?|(j & ?)]; [by left|right; exists j; split; [lia|done]].
    + intros x. rewrite elem_of_nil. tauto.
    + intros x Hx. by apply elem_of_nil in Hx.
  - destruct (path !! i) as [key|] eqn:Hkey;
      [|apply lookup_ge_None in Hkey; lia].
    destruct (decide ((take i path, key) ∈ Y)) as [Hin|Hnin]; simpl.
    + split_and!.
      * intros x. rewrite HY. split.
        { intros [?|(j & _ & ?)]; [by left|right; by exists j]. }
        intros [?|(j & Hj & Hx)]; [by left|].
        destruct (decide (S i ≤ j)%nat); [right; by exists j|].
        destruct (decide (j = i)) as [->|Hne].
        { apply HY. destruct x as [sp k]; simpl in *.
          rewrite Hkey in Hj. by simplify_eq. }
        assert (sub_of (take i path) x) as Hsub.
        { exists j. split; [rewrite lookup_take_lt by lia; done|].
          rewrite take_take. rewrite Hx. f_equal. lia. }
        apply HY in Hin as [Hin|(j' & Hj' & Hk & Ht)]; simpl in *.
        { left. by apply (Hclosed _ Hin). }
        apply (f_equal length) in Ht. rewrite !length_take in Ht.
        apply lookup_lt_Some in Hk. lia.
      * intros x. rewrite elem_of_nil. tauto.
      * intros x Hx. by apply elem_of_nil in Hx.
    + destruct (IH ({[(take i path, key)]} ∪ Y)) as (H1 & H2 & H3); [lia| |].
      { intros x. rewrite elem_of_union, elem_of_singleton, HY. split.
        - intros [->|[?|(j & ? & ?)]]; [right; exists i; by split|by left|].
          right. exists j. split; [lia|done].
        - intros [?|(j & Hj & Hk & Hx)]; [right; by left|].
          destruct (decide (j = i)) as [->|].
          + left. destruct x; simpl in *. rewrite Hkey in Hk. by simplify_eq.
          + right. right. exists j. split; [lia|done]. }
      split_and!; [done| |].
      * intros x. rewrite H2, elem_of_union, elem_of_singleton, elem_of_cons.
        tauto.
      * intros x [->|Hx]%elem_of_cons.
        { split; [by exists i|done]. }
        apply H3 in Hx as [? Hx]. split; [done|]. set_solver.
Qed.

Lemma closed_extend path Y0 Y :
  closed Y0 → (∀ x, x ∈ Y ↔ x ∈ Y0 ∨ sub_of path x) → closed Y.
Proof.
  intros Hc HY x Hx y Hy. apply HY. apply HY in Hx as [Hx|(i & Hi & Hx)].
  - left. by apply (Hc _ Hx).
  - right. rewrite Hx in Hy. by eapply sub_of_take.
Qed.

Lemma iterate_sub_paths_from_spec paths :
  ∀ Y0, closed Y0 → ∀ x,
    (x ∈ iterate_sub_paths_from paths Y0 → ∃ path, path ∈ paths ∧ sub_of path x) ∧
    ((∃ path, path ∈ paths ∧ sub_of path x) →
       x ∈ Y0 ∨ x ∈ iterate_sub_paths_from paths Y0).
Proof.
  induction paths as [|path paths IH]; intros Y0 Hc x; simpl.
  - split; [by intros ?%elem_of_nil|].
    intros (p & Hp & _). by apply elem_of_nil in Hp.
  - destruct (iterate_path_spec path Y0 Hc (length path) Y0) as (H1 & H2 & H3);
      [lia| |].
    { intros y. split; [by left|]. intros [?|(j & Hj & Hk & _)]; [done|].
      apply lookup_lt_Some in Hk. lia. }
    pose proof (closed_extend _ _ _ Hc H1) as Hc'.
    destruct (IH _ Hc' x) as [IH1 IH2]. split.
    + intros [Hx|Hx]%elem_of_app.
      * exists path. split; [apply list_elem_of_here|]. by apply H3.
      * destruct (IH1 Hx) as (p & ? & ?). exists p.
        split; [by apply list_elem_of_further|done].
    + intros (p & [->|Hp]%elem_of_cons & Hsub).
      * assert (x ∈ (iterate_path path (length path) Y0).2) as Hx
          by (apply H1; by right).
        apply H2 in Hx as [?|?]; [by left|right]. apply elem_of_app. by left.
      * destruct IH2 as [Hx|Hx]; [by exists p| |].
        -- apply H2 in Hx as [?|?]; [by left|right]. apply elem_of_app. by left.
        -- right. apply elem_of_app. by right.
Qed.

Lemma iterate_sub_paths_spec paths x :
  x ∈ _iterate_sub_paths paths ↔ ∃ path, path ∈ paths ∧ sub_of path x.
Proof.
  assert (closed ∅) as Hc by (intros y Hy; set_solver).
  destruct (iterate_sub_paths_from_spec paths ∅ Hc x) as [H1 H2].
  split; [done|]. intros Hx. destruct (H2 Hx) as [?|?]; [set_solver|done].
Qed.
End sub_paths.

(** ** Properties of [_get_paths_to_list] *)

Section paths_to_list.
Implicit Types (ys : list (KeyPath * Key)) (L : list (KeyPath * gset Z))
  (D : gset KeyPath) (sp : KeyPath).

Lemma get_paths_to_list_loop_result ys :
  ∀ L D, (∃ L', get_paths_to_list_loop ys L D = Ok L') ∨
         (∃ sp, get_paths_to_list_loop ys L D = Raise (inconsistent sp)).
Proof.
  induction ys as [|[sp [s|i]] ys IH]; intros L D; simpl; [eauto|..];
    case_decide; eauto.
Qed.

(** A sub-path seen with an integer key and with a string key makes the
    loop raise. *)
Lemma get_paths_to_list_loop_raises ys :
  ∀ L D sp,
    ((∃ i, (sp, KInt i) ∈ ys) ∨ sp ∈ dict_keys L) →
    ((∃ s, (sp, KStr s) ∈ ys) ∨ sp ∈ D) →
    ¬ (sp ∈ dict_keys L ∧ sp ∈ D) →
    ∃ sp', get_paths_to_list_loop ys L D = Raise (inconsistent sp').
Proof.
  induction ys as [|[sp0 key] ys IH]; intros L D sp Hi Hs Hnot.
  - destruct Hi as [[i Hi]|Hi]; [by apply elem_of_nil in Hi|].
    destruct Hs as [[s Hs]|Hs]; [by apply elem_of_nil in Hs|].
    destruct Hnot; done.
  - simpl. destruct key as [s0|i0].
    + case_decide as Hk; [eauto|].
      apply (IH _ _ sp).
      * destruct Hi as [[i Hi]|Hi]; [|by right].
        apply elem_of_cons in Hi as [?|?]; [simplify_eq|left; eauto].
      * destruct Hs as [[s Hs]|Hs]; [|right; set_solver].
        apply elem_of_cons in Hs as [?|?]; [simplify_eq; right; set_solver|].
        left; eauto.
      * intros [H1 [->%elem_of_singleton|H2]%elem_of_union]; [done|].
        by apply Hnot.
    + case_decide as Hk; [eauto|].
      apply (IH _ _ sp).
      * destruct Hi as [[i Hi]|Hi].
        -- apply elem_of_cons in Hi as [?|?];
             [simplify_eq; right; apply dict_keys_set; by left|left; eauto].
        -- right. apply dict_keys_set. by right.
      * destruct Hs as [[s Hs]|Hs]; [|by right].
        apply elem_of_cons in Hs as [?|?]; [simplify_eq|left; eauto].
      * intros [[->|H1]%dict_keys_set H2]; [done|]. by apply Hnot.
Qed.

(** Without such a sub-path the loop succeeds. *)
Lemma get_paths_to_list_loop_ok ys :
  ∀ L D,
    (∀ sp, ((∃ i, (sp, KInt i) ∈ ys) ∨ sp ∈ dict_keys L) →
           ((∃ s, (sp, KStr s) ∈ ys) ∨ sp ∈ D) → False) →
    ∃ L', get_paths_to_list_loop ys L D = Ok L'.
Proof.
  induction ys as [|[sp0 key] ys IH]; intros L D Hno; simpl; [eauto|].
  destruct key as [s0|i0].
  - case_decide as Hk.
    { exfalso. apply (Hno sp0); [by right|left; exists s0; apply list_elem_of_here]. }
    apply IH. intros sp Hi Hs. apply (Hno sp).
    + destruct Hi as [[i Hi]|Hi]; [left; exists i; by apply list_elem_of_further|by right].
    + destruct Hs as [[s Hs]|[->%elem_of_singleton|Hs]%elem_of_union].
      * left; exists s; by apply list_elem_of_further.
      * left; exists s0; apply list_elem_of_here.
      * by right.
  - case_decide as Hk.
    { exfalso. apply (Hno sp0); [left; exists i0; apply list_elem_of_here|by right]. }
    apply IH. intros sp Hi Hs. apply (Hno sp).
    + destruct Hi as [[i Hi]|[->|Hi]%dict_keys_set].
      * left; exists i; by apply list_elem_of_further.
      * left; exists i0; apply list_elem_of_here.
      * by right.
    + destruct Hs as [[s Hs]|Hs]; [left; exists s; by apply list_elem_of_further|by right].
Qed.

(** What a successful run returns: for every sub-path the set of the
    integer keys seen under it. *)
Lemma get_paths_to_list_loop_indexes ys :
  ∀ L D L', get_paths_to_list_loop ys L D = Ok L' →
    ∀ sp i, i ∈ default ∅ (dict_get L' sp) ↔
            i ∈ default ∅ (dict_get L sp) ∨ (sp, KInt i) ∈ ys.
Proof.
  induction ys as [|[sp0 key] ys IH]; intros L D L' Hrun sp i; simpl in Hrun.
  - simplify_eq. rewrite elem_of_nil. tauto.
  - destruct key as [s0|i0]; case_decide; try done.
    + rewrite (IH _ _ _ Hrun), elem_of_cons. naive_solver.
    + rewrite (IH _ _ _ Hrun), elem_of_cons.
      destruct (decide (sp0 = sp)) as [->|Hne].
      * rewrite dict_get_set_eq. simpl. rewrite elem_of_union, elem_of_singleton.
        naive_solver.
      * rewrite dict_get_set_ne by done. naive_solver.
Qed.

Lemma get_paths_to_list_loop_nonempty ys :
  ∀ L D L', get_paths_to_list_loop ys L D = Ok L' →
    (∀ sp S, dict_get L sp = Some S → S ≠ ∅) →
    ∀ sp S, dict_get L' sp = Some S → S ≠ ∅.
Proof.
  induction ys as [|[sp0 key] ys IH]; intros L D L' Hrun HL; simpl in Hrun.
  - by simplify_eq.
  - destruct key as [s0|i0]; case_decide; try done.
    + by apply (IH _ _ _ Hrun).
    + apply (IH _ _ _ Hrun). intros sp S.
      destruct (decide (sp0 = sp)) as [->|Hne].
      * rewrite dict_get_set_eq. intros ?; simplify_eq. set_solver.
      * rewrite dict_get_set_ne by done. apply HL.
Qed.
End paths_to_list.

Lemma sub_of_iff path sp k :
sub_of path (sp, k) ↔ take (length sp) path = sp ∧ path !! length sp = Some k.
Proof.
unfold sub_of; simpl. split.
- intros (i & Hi & ->). apply lookup_lt_Some in Hi as Hlt.
  rewrite length_take, Nat.min_l by lia. done.
- intros [Ht Hk]. exists (length sp). done.
Qed.

Lemma get_paths_to_list_raises paths parent :
mixed_at paths parent →
∃ sp, _get_paths_to_list paths = Raise (inconsistent sp).
Proof.
intros (p & q & i & s & Hp & Hq & Hp1 & Hp2 & Hq1 & Hq2).
apply (get_paths_to_list_loop_raises _ [] ∅ parent).
- left. exists i. apply iterate_sub_paths_spec. exists p. split; [done|].
  by apply sub_of_iff.
- left. exists s. apply iterate_sub_paths_spec. exists q. split; [done|].
  by apply sub_of_iff.
- intros [H _]. by apply elem_of_nil in H.
Qed.

Lemma get_paths_to_list_ok paths :
(∀ parent, ¬ mixed_at paths parent) →
∃ L, _get_paths_to_list paths = Ok L.
Proof.
intros Hno. apply get_paths_to_list_loop_ok. intros sp Hi Hs.
destruct Hi as [[i Hi]|Hi]; [|by apply elem_of_nil in Hi].
destruct Hs as [[s Hs]|Hs]; [|set_solver].
apply iterate_sub_paths_spec in Hi as (p & Hp & [? ?]%sub_of_iff).
apply iterate_sub_paths_spec in Hs as (q & Hq & [? ?]%sub_of_iff).
apply (Hno sp). by exists p, q, i, s.
Qed.

(** ** More facts on dictionaries and [py_max] *)

Section dict_more.
Context {K V : Type} `{EqDecision K}.
Implicit Types (d : list (K * V)).

Lemma dict_get_Some_elem d k v : dict_get d k = Some v → (k, v) ∈ d.
Proof.
  induction d as [|[k0 v0] d IH]; simpl; [done|].
  case_decide; intros ?; simplify_eq.
  - apply list_elem_of_here.
  - apply list_elem_of_further. by apply IH.
Qed.

Lemma dict_set_NoDup d k v : NoDup (dict_keys d) → NoDup (dict_keys (dict_set d k v)).
Proof.
  unfold dict_keys. induction d as [|[k0 v0] d IH]; simpl.
  - intros _. apply NoDup_singleton.
  - intros [Hk0 Hd]%NoDup_cons. case_decide; simplify_eq; simpl.
    + by apply NoDup_cons.
    + apply NoDup_cons. split; [|by apply IH].
      intros [?|?]%(dict_keys_set d k v); [done|]. by apply Hk0.
Qed.

Lemma dict_elem_get d k v : NoDup (dict_keys d) → (k, v) ∈ d → dict_get d k = Some v.
Proof.
  unfold dict_keys. induction d as [|[k0 v0] d IH]; simpl.
  - by intros _ ?%elem_of_nil.
  - intros [Hk0 Hd]%NoDup_cons [?|Hin]%elem_of_cons; simplify_eq.
    + by rewrite decide_True.
    + rewrite decide_False; [by apply IH|].
      intros ->. apply Hk0. apply list_elem_of_fmap. by exists (k, v).
Qed.

Lemma dict_get_is_Some d k : is_Some (dict_get d k) ↔ k ∈ dict_keys d.
Proof.
  destruct (dict_get d k) as [v|] eqn:Hg.
  - split; [intros _; by eapply dict_get_Some_keys|by eauto].
  - apply dict_get_None_keys in Hg. split; [by intros [? ?]|done].
Qed.
End dict_more.

Lemma foldl_max_spec (xs : list Z) (x : Z) :
  (foldl Z.max x xs = x ∨ foldl Z.max x xs ∈ xs) ∧
  x ≤ foldl Z.max x xs ∧ ∀ y, y ∈ xs → y ≤ foldl Z.max x xs.
Proof.
  revert x. induction xs as [|a xs IH]; intros x; simpl.
  - split_and!; [by left|lia|]. by intros y ?%elem_of_nil.
  - destruct (IH (Z.max x a)) as (H1 & H2 & H3). split_and!.
    + destruct H1 as [H1|H1].
      * rewrite H1. destruct (Z.max_spec x a) as [[? ->]|[? ->]];
          [right; apply list_elem_of_here|by left].
      * right. by apply list_elem_of_further.
    + lia.
    + intros y [->|?]%elem_of_cons; [lia|by apply H3].
Qed.

Lemma py_max_spec (xs : list Z) (m : Z) :
  py_max xs = Ok m ↔ m ∈ xs ∧ ∀ y, y ∈ xs → y ≤ m.
Proof.
  destruct xs as [|x xs]; simpl.
  - split; [done|]. by intros [?%elem_of_nil _].
  - destruct (foldl_max_spec xs x) as (H1 & H2 & H3). split.
    + intros ?; simplify_eq. split.
      * destruct H1 as [->|?]; [apply list_elem_of_here|by apply list_elem_of_further].
      * intros y [->|?]%elem_of_cons; [done|by apply H3].
    + intros [Hm Hle]. f_equal. apply Z.le_antisymm.
      * apply Hle. destruct H1 as [->|?];
          [apply list_elem_of_here|by apply list_elem_of_further].
      * apply elem_of_cons in Hm as [->|?]; [done|by apply H3].
Qed.

Lemma py_max_nonempty (xs : list Z) : xs ≠ [] → ∃ m, py_max xs = Ok m.
Proof. destruct xs; [done|]. simpl. eauto. Qed.

(** ** Properties of [_make_paths_to_leaves] *)

Section initial_leaves.
Context {F : Type} `{BaseField F} {Leaf : Type}.
Variable field_crown : string → Leaf.
Implicit Types (ftp : list (F * option KeyPath)) (d : list (KeyPath * Leaf)).

Lemma mapped_paths_elem ftp p :
  p ∈ mapped_paths ftp ↔ ∃ f, (f, Some p) ∈ ftp.
Proof.
  unfold mapped_paths. rewrite list_elem_of_omap. split.
  - intros ([f o] & Hin & Ho). simpl in Ho. subst. eauto.
  - intros [f Hf]. by exists (f, Some p).
Qed.

Lemma initial_paths_to_leaves_snoc ftp f o :
  initial_paths_to_leaves field_crown (ftp ++ [(f, o)]) =
  match o with
  | Some path => dict_set (initial_paths_to_leaves field_crown ftp) path
                   (field_crown (field_id f))
  | None => initial_paths_to_leaves field_crown ftp
  end.
Proof. unfold initial_paths_to_leaves. by rewrite foldl_app. Qed.

Lemma initial_paths_to_leaves_keys ftp p :
  p ∈ dict_keys (initial_paths_to_leaves field_crown ftp) ↔ p ∈ mapped_paths ftp.
Proof.
  induction ftp as [|[f o] ftp IH] using rev_ind.
  - done.
  - rewrite initial_paths_to_leaves_snoc. unfold mapped_paths in *.
    rewrite omap_app, elem_of_app. simpl. destruct o as [path|]; simpl.
    + rewrite dict_keys_set, IH, list_elem_of_singleton. tauto.
    + rewrite IH, elem_of_nil. tauto.
Qed.

Lemma initial_paths_to_leaves_NoDup ftp :
  NoDup (dict_keys (initial_paths_to_leaves field_crown ftp)).
Proof.
  induction ftp as [|[f o] ftp IH] using rev_ind.
  - apply NoDup_nil_2.
  - rewrite initial_paths_to_leaves_snoc. destruct o; [|done].
    by apply dict_set_NoDup.
Qed.

Lemma initial_paths_to_leaves_get ftp p v :
  dict_get (initial_paths_to_leaves field_crown ftp) p = Some v →
  ∃ f, (f, Some p) ∈ ftp ∧ v = field_crown (field_id f).
Proof.
  induction ftp as [|[f o] ftp IH] using rev_ind; [done|].
  rewrite initial_paths_to_leaves_snoc. destruct o as [path|].
  - destruct (decide (path = p)) as [->|Hne].
    + rewrite dict_get_set_eq. intros ?; simplify_eq. exists f.
      split; [|done]. apply elem_of_app. right. apply list_elem_of_here.
    + rewrite dict_get_set_ne by done. intros (g & ? & ?)%IH. exists g.
      split; [|done]. apply elem_of_app. by left.
  - intros (g & ? & ?)%IH. exists g. split; [|done]. apply elem_of_app. by left.
Qed.

End initial_leaves.

Section leaves.
Context {Leaf : Type}.
Variable gaps_filler : KeyPath → Leaf.
Implicit Types (d : list (KeyPath * Leaf)) (L : list (KeyPath * gset Z)).

Lemma fill_loop_keep path S (idxs : list Z) key :
  ∀ d, dict_get d key = Some (gaps_filler key) →
       dict_get (foldl (fill_step gaps_filler path S) d idxs) key = Some (gaps_filler key).
Proof.
  induction idxs as [|i idxs IH]; intros d Hd; simpl; [done|].
  apply IH. unfold fill_step. case_decide; [done|].
  destruct (decide (path ++ [KInt i] = key)) as [<-|Hne].
  - by rewrite dict_get_set_eq.
  - by rewrite dict_get_set_ne.
Qed.

Lemma fill_loop_hit path S (idxs : list Z) i :
  i ∈ idxs → i ∉ S →
  ∀ d, dict_get (foldl (fill_step gaps_filler path S) d idxs) (path ++ [KInt i])
       = Some (gaps_filler (path ++ [KInt i])).
Proof.
  intros Hi HS. induction idxs as [|j idxs IH]; intros d; simpl.
  - by apply elem_of_nil in Hi.
  - apply elem_of_cons in Hi as [<-|Hi]; [|by apply IH].
    apply fill_loop_keep. unfold fill_step. rewrite decide_False by done.
    by rewrite dict_get_set_eq.
Qed.

Lemma fill_loop_miss path S (idxs : list Z) key :
  (∀ i, i ∈ idxs → i ∉ S → key ≠ path ++ [KInt i]) →
  ∀ d, dict_get (foldl (fill_step gaps_filler path S) d idxs) key = dict_get d key.
Proof.
  induction idxs as [|j idxs IH]; intros Hmiss d; simpl; [done|].
  rewrite IH.
  - unfold fill_step. case_decide as Hj; [done|].
    rewrite dict_get_set_ne; [done|]. intros Heq.
    by apply (Hmiss j (list_elem_of_here _ _) Hj).
  - intros i Hi. apply Hmiss. by apply list_elem_of_further.
Qed.

Lemma fill_gaps_get d path S top key :
  (∀ i, 0 ≤ i < top → i ∉ S → key = path ++ [KInt i] →
        dict_get (fill_gaps gaps_filler d path S top) key = Some (gaps_filler key)) ∧
  ((∀ i, 0 ≤ i < top → i ∉ S → key ≠ path ++ [KInt i]) →
        dict_get (fill_gaps gaps_filler d path S top) key = dict_get d key).
Proof.
  split.
  - intros i Hi HS ->. apply (fill_loop_hit path S); [|done].
    apply elem_of_seqZ. lia.
  - intros Hmiss. apply (fill_loop_miss path S).
    intros i Hi%elem_of_seqZ. apply Hmiss. lia.
Qed.

Lemma fill_all_gaps_keep L key :
  ∀ d d', fill_all_gaps gaps_filler L d = Ok d' →
    dict_get d key = Some (gaps_filler key) →
    dict_get d' key = Some (gaps_filler key).
Proof.
  induction L as [|[sp S] L IH]; intros d d' Hrun Hd; simpl in Hrun.
  - by simplify_eq.
  - destruct (py_max (elements S)) as [top|]; [|done]. simpl in Hrun.
    apply (IH _ _ Hrun). by apply fill_loop_keep.
Qed.

Lemma fill_all_gaps_spec L :
  (∀ sp S, (sp, S) ∈ L → S ≠ ∅) →
  ∀ d, ∃ d', fill_all_gaps gaps_filler L d = Ok d' ∧
    ∀ key, (gap_key L key → dict_get d' key = Some (gaps_filler key)) ∧
           (¬ gap_key L key → dict_get d' key = dict_get d key).
Proof.
  induction L as [|[sp S] L IH]; intros Hne d; simpl.
  - exists d. split; [done|]. intros key. split; [|done].
    intros (? & ? & ? & ? & Hin & _). by apply elem_of_nil in Hin.
  - destruct (py_max_nonempty (elements S)) as [top Htop].
    { intros Hnil. apply (Hne sp S); [apply list_elem_of_here|].
      by apply elements_empty_inv in Hnil as ?%leibniz_equiv. }
    rewrite Htop. simpl.
    destruct (IH (λ sp' S' Hin, Hne sp' S' (list_elem_of_further _ _ _ Hin))
                (fill_gaps gaps_filler d sp S top)) as (d' & Hrun & Hd').
    exists d'. split; [done|]. intros key.
    destruct (fill_gaps_get d sp S top key) as [Hhit Hmiss]. split.
    + intros (sp' & S' & top' & i & Hin & Hmax & Hi & HS & ->).
      apply elem_of_cons in Hin as [?|Hin]; simplify_eq.
      * rewrite Htop in Hmax. simplify_eq.
        apply (fill_all_gaps_keep _ _ _ _ Hrun). by apply (Hhit i).
      * apply Hd'. by exists sp', S', top', i.
    + intros Hngap. destruct (Hd' key) as [_ Hd2]. rewrite Hd2.
      * apply Hmiss. intros i Hi HS ->. apply Hngap.
        exists sp, S, top, i. split_and!; [apply list_elem_of_here|try done; lia..].
      * intros (sp' & S' & top' & i & Hin & ?). apply Hngap.
        exists sp', S', top', i. split; [by apply list_elem_of_further|done].
Qed.
End leaves.

Section paths_to_list_spec.
Implicit Types (ys : list (KeyPath * Key)) (L : list (KeyPath * gset Z))
  (D : gset KeyPath) (sp : KeyPath).

Lemma get_paths_to_list_loop_NoDup ys :
  ∀ L D L', get_paths_to_list_loop ys L D = Ok L' →
    NoDup (dict_keys L) → NoDup (dict_keys L').
Proof.
  induction ys as [|[sp0 key] ys IH]; intros L D L' Hrun HL; simpl in Hrun.
  - by simplify_eq.
  - destruct key as [s0|i0]; case_decide; try done.
    + by apply (IH _ _ _ Hrun).
    + apply (IH _ _ _ Hrun). by apply dict_set_NoDup.
Qed.

Lemma index_under_yields paths sp i :
  (sp, KInt i) ∈ _iterate_sub_paths paths ↔ index_under paths sp i.
Proof. apply iterate_sub_paths_spec. Qed.

Lemma get_paths_to_list_spec paths L :
  _get_paths_to_list paths = Ok L →
  (∀ sp S, (sp, S) ∈ L → S ≠ ∅ ∧ ∀ i, i ∈ S ↔ index_under paths sp i) ∧
  (∀ sp i, index_under paths sp i → ∃ S, (sp, S) ∈ L).
Proof.
  intros Hrun. unfold _get_paths_to_list in Hrun.
  pose proof (get_paths_to_list_loop_NoDup _ _ _ _ Hrun (NoDup_nil_2)) as Hnd.
  pose proof (get_paths_to_list_loop_indexes _ _ _ _ Hrun) as Hidx.
  pose proof (get_paths_to_list_loop_nonempty _ _ _ _ Hrun) as Hne.
  split.
  - intros sp S Hin. apply (dict_elem_get _ _ _ Hnd) in Hin. split.
    + apply (Hne ltac:(done) sp S Hin).
    + intros i. specialize (Hidx sp i). rewrite Hin in Hidx. simpl in Hidx.
      rewrite Hidx, index_under_yields. set_solver.
  - intros sp i Hi. apply index_under_yields in Hi.
    specialize (Hidx sp i). simpl in Hidx.
    destruct (dict_get L sp) as [S|] eqn:Hg.
    + exists S. by apply dict_get_Some_elem.
    + simpl in Hidx. set_solver.
Qed.

Lemma gap_key_is_gap paths L key :
  _get_paths_to_list paths = Ok L → gap_key L key ↔ is_gap paths key.
Proof.
  intros [HL1 HL2]%get_paths_to_list_spec. split.
  - intros (sp & S & top & i & Hin & Hmax & Hi & HS & ->).
    destruct (HL1 _ _ Hin) as [_ HS']. apply py_max_spec in Hmax as [Htop Hle].
    exists sp, top, i. split; [split|split; [lia|split; [by rewrite <-HS'|done]]].
    + apply HS'. by apply elem_of_elements.
    + intros j Hj%HS'. apply Hle. by apply elem_of_elements.
  - intros (parent & top & i & [Htop Hle] & Hi & Hni & ->).
    destruct (HL2 _ _ Htop) as [S Hin]. destruct (HL1 _ _ Hin) as [_ HS'].
    exists parent, S, top, i.
    split; [done|split; [|split; [lia|split; [by rewrite HS'|done]]]].
    apply py_max_spec. split.
    + apply elem_of_elements. by apply HS'.
    + intros y Hy%elem_of_elements. by apply Hle, HS'.
Qed.
End paths_to_list_spec.

Lemma index_under_ext paths paths' parent i :
  (∀ p, p ∈ paths → p ∈ paths') →
  index_under paths parent i → index_under paths' parent i.
Proof. intros Hsub (p & Hp & ?). exists p. split; [by apply Hsub|done]. Qed.

Lemma mixed_at_ext paths paths' parent :
  (∀ p, p ∈ paths → p ∈ paths') → mixed_at paths parent → mixed_at paths' parent.
Proof.
  intros Hsub (p & q & i & s & Hp & Hq & ?). exists p, q, i, s.
  split_and!; [by apply Hsub|by apply Hsub|tauto..].
Qed.

Lemma is_gap_ext paths paths' key :
  (∀ p, p ∈ paths ↔ p ∈ paths') → is_gap paths key → is_gap paths' key.
Proof.
  intros Hsub (parent & top & i & [Htop Hle] & Hi & Hni & ->).
  exists parent, top, i. split; [|split; [lia|split; [|done]]].
  - split.
    + eapply index_under_ext; [|done]. intros p. apply Hsub.
    + intros j Hj. apply Hle. eapply index_under_ext; [|done]. intros p. apply Hsub.
  - intros Hin. apply Hni. eapply index_under_ext; [|done]. intros p. apply Hsub.
Qed.

Section make_paths_to_leaves_spec.
Context {F : Type} `{BaseField F} {Leaf : Type}.
Variable field_crown : string → Leaf.
Variable gaps_filler : KeyPath → Leaf.
Implicit Types (ftp : list (F * option KeyPath)).

Lemma make_paths_to_leaves_raises ftp parent :
  mixed_at (mapped_paths ftp) parent →
  ∃ sp, _get_paths_to_list (dict_keys (initial_paths_to_leaves field_crown ftp))
          = Raise (inconsistent sp) ∧
        _make_paths_to_leaves field_crown gaps_filler ftp = Raise (inconsistent sp).
Proof.
  intros Hmixed.
  destruct (get_paths_to_list_raises
              (dict_keys (initial_paths_to_leaves field_crown ftp)) parent)
    as [sp Hsp].
  { eapply mixed_at_ext; [|done]. intros p. by rewrite initial_paths_to_leaves_keys. }
  exists sp. split; [done|]. unfold _make_paths_to_leaves. by rewrite Hsp.
Qed.

Lemma make_paths_to_leaves_ok ftp :
  (∀ parent, ¬ mixed_at (mapped_paths ftp) parent) →
  ∃ ptl, _make_paths_to_leaves field_crown gaps_filler ftp = Ok ptl ∧
    ∀ key,
      (is_gap (mapped_paths ftp) key → dict_get ptl key = Some (gaps_filler key)) ∧
      (¬ is_gap (mapped_paths ftp) key →
         dict_get ptl key = dict_get (initial_paths_to_leaves field_crown ftp) key).
Proof.
  intros Hno. set (d0 := initial_paths_to_leaves field_crown ftp).
  destruct (get_paths_to_list_ok (dict_keys d0)) as [L HL].
  { intros parent Hm. apply (Hno parent). eapply mixed_at_ext; [|done].
    intros p. unfold d0. by rewrite initial_paths_to_leaves_keys. }
  destruct (fill_all_gaps_spec gaps_filler L) with (d := d0) as (ptl & Hrun & Hptl).
  { intros sp S Hin. by apply (proj1 (get_paths_to_list_spec _ _ HL) sp S). }
  exists ptl. split.
  { unfold _make_paths_to_leaves. fold d0. by rewrite HL. }
  assert (∀ key, gap_key L key ↔ is_gap (mapped_paths ftp) key) as Hgap.
  { intros key. rewrite (gap_key_is_gap _ _ _ HL). split; apply is_gap_ext;
      intros p; unfold d0; by rewrite initial_paths_to_leaves_keys. }
  intros key. rewrite <-Hgap. apply Hptl.
Qed.

Lemma make_paths_to_leaves_result ftp :
  (∃ ptl, _make_paths_to_leaves field_crown gaps_filler ftp = Ok ptl) ∨
  (∃ sp, _make_paths_to_leaves field_crown gaps_filler ftp = Raise (inconsistent sp)).
Proof.
  unfold _make_paths_to_leaves.
  set (d0 := initial_paths_to_leaves field_crown ftp).
  destruct (get_paths_to_list_loop_result (_iterate_sub_paths (dict_keys d0)) [] ∅)
    as [[L HL]|[sp Hsp]].
  - left. destruct (fill_all_gaps_spec gaps_filler L) with (d := d0) as (ptl & Hrun & _).
    { intros sp S Hin. by apply (proj1 (get_paths_to_list_spec _ _ HL) sp S). }
    exists ptl. unfold _get_paths_to_list. by rewrite HL.
  - right. exists sp. unfold _get_paths_to_list. by rewrite Hsp.
Qed.
End make_paths_to_leaves_spec.

(** ** Mixed dict/list keys under one parent *)

Lemma mixed_paths_differ (parent p q : KeyPath) (i : Z) (s : string) :
  p !! length parent = Some (KInt i) → q !! length parent = Some (KStr s) →
  p ≠ q ∧ ¬ p `prefix_of` q ∧ ¬ q `prefix_of` p.
Proof.
  intros Hp Hq. split_and!.
  - intros ->. rewrite Hp in Hq. done.
  - intros [k ->]. rewrite (lookup_app_l_Some _ _ _ _ Hp) in Hq. done.
  - intros [k ->]. rewrite (lookup_app_l_Some _ _ _ _ Hq) in Hp. done.
Qed.

(** C10: when two mapped paths continue the same parent sub-path, one with a
    list index and the other with a dict key, [_get_paths_to_list] raises the
    terminal, demonstrative [CannotProvide] "Inconsistent path elements", and
    so do [_make_paths_to_leaves] and [make_out_structure];
    [make_inp_structure] raises a terminal, demonstrative [CannotProvide],
    which is this one unless required fields were skipped.  The two paths are
    neither equal nor prefixes of one another. *)
Theorem C10_inconsistent_path_elements
    {F : Type} `{BaseField F} {Leaf : Type}
    (get_prefix_groups : list KeyPath → list (KeyPath * list KeyPath))
    (field_crown : string → Leaf) (gaps_filler : KeyPath → Leaf)
    (fields_to_paths : list (F * option KeyPath))
    (parent p q : KeyPath) (i : Z) (s : string) :
  p ∈ mapped_paths fields_to_paths →
  q ∈ mapped_paths fields_to_paths →
  take (length parent) p = parent → p !! length parent = Some (KInt i) →
  take (length parent) q = parent → q !! length parent = Some (KStr s) →
  (p ≠ q ∧ ¬ p `prefix_of` q ∧ ¬ q `prefix_of` p) ∧
  ∃ sub_path,
    let error := {| msg := Some (MsgInconsistentPathElements sub_path);
                    sub_errors := [];
                    is_terminal := true; is_demonstrative := true |} in
    _get_paths_to_list
      (dict_keys (initial_paths_to_leaves field_crown fields_to_paths))
      = Raise (ECannotProvide error) ∧
    _make_paths_to_leaves field_crown gaps_filler fields_to_paths
      = Raise (ECannotProvide error) ∧
    make_out_structure get_prefix_groups field_crown gaps_filler fields_to_paths
      = Raise (ECannotProvide error) ∧
    ∃ e, make_inp_structure get_prefix_groups field_crown gaps_filler fields_to_paths
           = Raise (ECannotProvide e) ∧
         is_terminal e = true ∧ is_demonstrative e = true ∧
         (skipped_required_fields fields_to_paths = [] → e = error).
Proof.
  intros Hp Hq Hp1 Hp2 Hq1 Hq2. split; [by eapply mixed_paths_differ|].
  destruct (make_paths_to_leaves_raises field_crown gaps_filler fields_to_paths parent)
    as (sp & Hget & Hmake).
  { by exists p, q, i, s. }
  exists sp. simpl. split_and!; [done|done|..].
  - unfold make_out_structure. by rewrite Hmake.
  - unfold make_inp_structure. case_bool_decide as Hskip.
    + eexists. split_and!; [done|done|done|]. intros Hnil. by destruct Hskip.
    + rewrite Hmake. eexists. split_and!; done.
Qed.

Lemma C10_inconsistent_path_elements_witness :
  let fields_to_paths :=
    [({| name := "a"; inp_is_required := true; param_kind := POS_OR_KW;
         param_name := "a" |}, Some [KStr "x"; KInt 0]);
     ({| name := "b"; inp_is_required := true; param_kind := POS_OR_KW;
         param_name := "b" |}, Some [KStr "x"; KStr "y"])] in
  ∃ sub_path,
    make_out_structure (λ _, []) InpFieldCrown _fill_input_gap fields_to_paths
    = Raise (ECannotProvide (terminal_error (MsgInconsistentPathElements sub_path))).
Proof.
  intros fields_to_paths.
  destruct (C10_inconsistent_path_elements (λ _, []) InpFieldCrown _fill_input_gap
              fields_to_paths [KStr "x"] [KStr "x"; KInt 0] [KStr "x"; KStr "y"]
              0 "y") as (_ & sp & _ & _ & Hout & _).
  - apply list_elem_of_here.
  - apply list_elem_of_further, list_elem_of_here.
  - reflexivity.
  - reflexivity.
  - reflexivity.
  - reflexivity.
  - exists sp. exact Hout.
Defined.

(** ** The keys of the filled mapping and the length of a list crown *)

Section filled_keys.
Context {Leaf : Type}.
Variable gaps_filler : KeyPath → Leaf.
Implicit Types (d : list (KeyPath * Leaf)) (L : list (KeyPath * gset Z)).

Lemma fill_loop_keys path S (idxs : list Z) key :
  ∀ d, key ∈ dict_keys (foldl (fill_step gaps_filler path S) d idxs) ↔
       key ∈ dict_keys d ∨ ∃ i, i ∈ idxs ∧ (i ∉ S) ∧ key = path ++ [KInt i].
Proof.
  induction idxs as [|j idxs IH]; intros d; simpl.
  - split; [by left|]. intros [?|(i & Hi & _)]; [done|by apply elem_of_nil in Hi].
  - rewrite IH. unfold fill_step. case_decide as Hj.
    + split.
      * intros [?|(i & ? & ? & ?)]; [by left|right]. exists i.
        split; [by apply list_elem_of_further|done].
      * intros [?|(i & [->|?]%elem_of_cons & ? & ?)]; [by left|done|right].
        by exists i.
    + simpl. rewrite dict_keys_set. split.
      * intros [[->|?]|(i & ? & ? & ?)]; [right|by left|right].
        -- exists j. split; [apply list_elem_of_here|done].
        -- exists i. split; [by apply list_elem_of_further|done].
      * intros [?|(i & [->|?]%elem_of_cons & ? & ?)];
          [left; by right|left; by left|right; by exists i].
Qed.

Lemma fill_all_gaps_keys L :
  ∀ d d', fill_all_gaps gaps_filler L d = Ok d' →
    ∀ key, key ∈ dict_keys d' ↔ key ∈ dict_keys d ∨ gap_key L key.
Proof.
  induction L as [|[sp S] L IH]; intros d d' Hrun key; simpl in Hrun.
  - simplify_eq. split; [by left|]. intros [?|(? & ? & ? & ? & Hin & _)]; [done|].
    by apply elem_of_nil in Hin.
  - destruct (py_max (elements S)) as [top|] eqn:Htop; [|done]. simpl in Hrun.
    rewrite (IH _ _ Hrun). unfold fill_gaps. rewrite fill_loop_keys. split.
    + intros [[?|(i & Hi%elem_of_seqZ & ? & ?)]|(sp' & S' & top' & i & Hin & ?)].
      * by left.
      * right. exists sp, S, top, i. split; [apply list_elem_of_here|].
        split; [done|]. split; [lia|done].
      * right. exists sp', S', top', i. split; [by apply list_elem_of_further|done].
    + intros [?|(sp' & S' & top' & i & [?|Hin]%elem_of_cons & Hmax & Hi & ? & ?)].
      * left. by left.
      * simplify_eq. rewrite Htop in Hmax. simplify_eq. left. right.
        exists i. split; [apply elem_of_seqZ; lia|done].
      * right. by exists sp', S', top', i.
Qed.
End filled_keys.

Section crown_map.
Context {Leaf : Type}.
Implicit Types (d : list (KeyPath * Leaf)).

Lemma list_crown_map_keys d parent i :
  i ∈ dict_keys (list_crown_map d parent) ↔ index_under (dict_keys d) parent i.
Proof.
  unfold index_under. setoid_rewrite sub_of_iff.
  induction d as [|[p v] d IH] using rev_ind.
  - simpl. split; [by intros ?%elem_of_nil|]. by intros (? & ?%elem_of_nil & _).
  - assert (dict_keys (d ++ [(p, v)]) = dict_keys d ++ [p]) as ->
      by (unfold dict_keys; by rewrite fmap_app).
    unfold list_crown_map in *. rewrite foldl_app. simpl.
    setoid_rewrite elem_of_app. setoid_rewrite list_elem_of_singleton.
    case_decide as Hpre.
    + destruct (p !! length parent) as [[s|j]|] eqn:Hk.
      * rewrite IH. split; [naive_solver|].
        intros (p' & [?| ->] & ? & ?); [naive_solver|congruence].
      * rewrite dict_keys_set, IH. split.
        -- intros [->|(p' & ? & ?)]; [exists p; by auto|exists p'; by auto].
        -- intros (p' & [?| ->] & ? & ?); [right; by exists p'|left; congruence].
      * rewrite IH. split; [naive_solver|].
        intros (p' & [?| ->] & ? & ?); [naive_solver|congruence].
    + rewrite IH. split; [naive_solver|].
      intros (p' & [?| ->] & ? & ?); [naive_solver|congruence].
Qed.
End crown_map.


Lemma gap_index_bound paths key parent y top :
  is_gap paths key → max_index_under paths parent top →
  sub_of key (parent, KInt y) → y ≤ top.
Proof.
  intros (sp & top' & i' & [(p' & Hp' & Hsub') Hle'] & Hi' & _ & ->) [Htop Hle].
  intros [Hpre Hk]%sub_of_iff. apply sub_of_iff in Hsub' as [Hpre' Hk'].
  apply lookup_lt_Some in Hk as Hlen. rewrite length_app in Hlen. simpl in Hlen.
  destruct (decide (length parent = length sp)) as [Heq|Hne].
  - rewrite Heq, take_app_length in Hpre. subst parent.
    rewrite list_lookup_middle in Hk by done. simplify_eq.
    assert (top' ≤ top); [|lia]. apply Hle. exists p'. split; [done|].
    by apply sub_of_iff.
  - apply Hle. exists p'. split; [done|]. apply sub_of_iff.
    rewrite lookup_app_l in Hk by lia. rewrite take_app_le in Hpre by lia.
    split.
    + transitivity (take (length parent) (take (length sp) p')).
      * rewrite take_take. f_equal. lia.
      * by rewrite Hpre'.
    + rewrite <-Hpre' in Hk. by rewrite lookup_take_lt in Hk by lia.
Qed.

Lemma mapped_path_not_gap paths p : p ∈ paths → ¬ is_gap paths p.
Proof.
  intros Hp (parent & top & i & _ & _ & Hni & ->). apply Hni.
  exists (parent ++ [KInt i]). split; [done|]. apply sub_of_iff. simpl.
  split; [by rewrite take_app_length|by rewrite list_lookup_middle].
Qed.

Section gaps.
Context {F : Type} `{BaseField F} {Leaf : Type}.
Variable field_crown : string → Leaf.
Variable gaps_filler : KeyPath → Leaf.
Implicit Types (ftp : list (F * option KeyPath)).

Lemma make_paths_to_leaves_keys ftp ptl :
  _make_paths_to_leaves field_crown gaps_filler ftp = Ok ptl →
  ∀ key, key ∈ dict_keys ptl ↔
         key ∈ mapped_paths ftp ∨ is_gap (mapped_paths ftp) key.
Proof.
  unfold _make_paths_to_leaves.
  set (d0 := initial_paths_to_leaves field_crown ftp).
  destruct (_get_paths_to_list (dict_keys d0)) as [L|] eqn:HL; [|done].
  simpl. intros Hrun key.
  rewrite (fill_all_gaps_keys _ _ _ _ Hrun), (gap_key_is_gap _ _ _ HL).
  unfold d0. rewrite initial_paths_to_leaves_keys.
  assert (is_gap (dict_keys (initial_paths_to_leaves field_crown ftp)) key
          ↔ is_gap (mapped_paths ftp) key) as ->; [|done].
  split; apply is_gap_ext; intros p; by rewrite initial_paths_to_leaves_keys.
Qed.

Lemma filled_list_len ftp ptl parent top :
  _make_paths_to_leaves field_crown gaps_filler ftp = Ok ptl →
  max_index_under (mapped_paths ftp) parent top →
  list_len (list_crown_map ptl parent) = Ok (top + 1).
Proof.
  intros Hrun [Htop Hle]. pose proof (make_paths_to_leaves_keys _ _ Hrun) as Hkeys.
  unfold list_len.
  assert (py_max (dict_keys (list_crown_map ptl parent)) = Ok top) as ->; [|done].
  apply py_max_spec. split.
  - apply list_crown_map_keys. eapply index_under_ext; [|done].
    intros p Hp. apply Hkeys. by left.
  - intros y (p & [Hp|Hgap]%Hkeys & Hsub)%list_crown_map_keys.
    + apply Hle. by exists p.
    + by eapply gap_index_bound.
Qed.
End gaps.

(** C2: when the mapped paths are consistent, [_make_paths_to_leaves]
    returns a mapping in which, for every parent path, every index [i] with
    [0 ≤ i] below the greatest index under that parent and not used there
    holds the placeholder [gaps_filler (parent + (i,))] ([InpNoneCrown] on
    the input direction, [OutNoneCrown(DefaultValue(None))] on the output
    direction); the mapped paths keep their field crowns, nothing else is
    added, and the list crown at the parent has [list_len] equal to the
    greatest index plus one.  Fields at the indices 0 and 2 of the root give
    a placeholder at index 1 and [list_len = 3]. *)
Theorem C2_list_gaps_are_filled :
  (∀ (F : Type) (BF : BaseField F) (Leaf : Type)
     (field_crown : string → Leaf) (gaps_filler : KeyPath → Leaf)
     (fields_to_paths : list (F * option KeyPath)),
     let paths := mapped_paths fields_to_paths in
     (∀ parent, ¬ mixed_at paths parent) →
     ∃ paths_to_leaves,
       _make_paths_to_leaves field_crown gaps_filler fields_to_paths
         = Ok paths_to_leaves ∧
       (∀ parent top i,
          max_index_under paths parent top → 0 ≤ i < top →
          ¬ index_under paths parent i →
          dict_get paths_to_leaves (parent ++ [KInt i])
            = Some (gaps_filler (parent ++ [KInt i]))) ∧
       (∀ p, p ∈ paths →
          ∃ f, (f, Some p) ∈ fields_to_paths ∧
               dict_get paths_to_leaves p = Some (field_crown (field_id f))) ∧
       (∀ key, key ∈ dict_keys paths_to_leaves ↔ key ∈ paths ∨ is_gap paths key) ∧
       (∀ parent top,
          max_index_under paths parent top →
          list_len (list_crown_map paths_to_leaves parent) = Ok (top + 1))) ∧
  (∀ path, _fill_input_gap path = InpNoneCrown) ∧
  (∀ (St : Type) path,
     @_fill_output_gap St path = OutNoneCrown (DefaultValue PyNone)) ∧
  (∀ (F : Type) (BF : BaseField F) (Leaf : Type)
     (field_crown : string → Leaf) (gaps_filler : KeyPath → Leaf) (fa fb : F),
     ∃ paths_to_leaves,
       _make_paths_to_leaves field_crown gaps_filler
         [(fa, Some [KInt 0]); (fb, Some [KInt 2])] = Ok paths_to_leaves ∧
       paths_to_leaves = [([KInt 0], field_crown (field_id fa));
                          ([KInt 2], field_crown (field_id fb));
                          ([KInt 1], gaps_filler [KInt 1])] ∧
       list_len (list_crown_map paths_to_leaves []) = Ok 3).
Proof.
  split_and!.
  - intros F BF Leaf field_crown gaps_filler ftp paths Hno.
    destruct (make_paths_to_leaves_ok field_crown gaps_filler ftp Hno)
      as (ptl & Hrun & Hget).
    exists ptl. split_and!; [done|..].
    + intros parent top i Htop Hi Hni. apply Hget. by exists parent, top, i.
    + intros p Hp. destruct (Hget p) as [_ Hkeep].
      rewrite Hkeep by by apply mapped_path_not_gap.
      assert (is_Some (dict_get (initial_paths_to_leaves field_crown ftp) p))
        as [v Hv].
      { apply dict_get_is_Some. by apply initial_paths_to_leaves_keys. }
      apply initial_paths_to_leaves_get in Hv as Hf. destruct Hf as (f & Hf & ->).
      by exists f.
    + by apply (make_paths_to_leaves_keys field_crown gaps_filler ftp).
    + intros parent top. by apply (filled_list_len field_crown gaps_filler ftp).
  - done.
  - done.
  - intros F BF Leaf field_crown gaps_filler fa fb. eexists.
    split; [vm_compute; reflexivity|]. split; [reflexivity|].
    vm_compute. reflexivity.
Qed.

Lemma C2_list_gaps_are_filled_witness :
  ∃ paths_to_leaves,
    _make_paths_to_leaves InpFieldCrown _fill_input_gap
      [({| name := "a"; inp_is_required := true; param_kind := POS_OR_KW;
           param_name := "a" |}, Some [KInt 0]);
       ({| name := "b"; inp_is_required := true; param_kind := POS_OR_KW;
           param_name := "b" |}, Some [KInt 2])] = Ok paths_to_leaves ∧
    dict_get paths_to_leaves ([] ++ [KInt 1]) = Some InpNoneCrown ∧
    list_len (list_crown_map paths_to_leaves []) = Ok (2 + 1).
Proof.
  destruct C2_list_gaps_are_filled as [Hgen _].
  set (ftp := [({| name := "a"; inp_is_required := true; param_kind := POS_OR_KW;
                   param_name := "a" |}, Some [KInt 0]);
               ({| name := "b"; inp_is_required := true; param_kind := POS_OR_KW;
                   param_name := "b" |}, Some [KInt 2])]).
  assert (max_index_under (mapped_paths ftp) [] 2) as Hmax.
  { split.
    - exists [KInt 2]. split; [apply list_elem_of_further, list_elem_of_here|].
      by exists 0%nat.
    - intros j (p & Hp & [_ Hj]%sub_of_iff). simpl in Hp, Hj.
      apply elem_of_cons in Hp as [->|Hp]; [simpl in Hj; simplify_eq; lia|].
      apply list_elem_of_singleton in Hp as ->. simpl in Hj. simplify_eq. lia. }
  destruct (Hgen InputField _ LeafInpCrown InpFieldCrown _fill_input_gap ftp)
    as (ptl & Hrun & Hgap & _ & _ & Hlen).
  - intros parent (p & q & i & s & _ & Hq & _ & _ & _ & Hs). simpl in Hq.
    apply elem_of_cons in Hq as [->|Hq];
      [|apply list_elem_of_singleton in Hq as ->];
      destruct parent; simpl in Hs; simplify_eq.
  - exists ptl. split_and!; [done| |by apply Hlen].
    apply (Hgap [] 2 1 Hmax); [lia|].
    intros (p & Hp & [_ Hj]%sub_of_iff). simpl in Hp, Hj.
    apply elem_of_cons in Hp as [->|Hp]; [simpl in Hj; simplify_eq|].
    apply list_elem_of_singleton in Hp as ->. simpl in Hj. simplify_eq.
Defined.

(** ** Duplicate destination paths *)

Section filter_two.
Context {A : Type} (P : A → Prop) `{∀ x, Decision (P x)}.

Lemma filter_two_positions (l : list A) :
  ∀ i j x y, (i < j)%nat → l !! i = Some x → l !! j = Some y → P x → P y →
    (1 < length (filter P l))%nat.
Proof.
  induction l as [|a l IH]; intros i j x y Hlt Hi Hj Hx Hy; [done|].
  destruct i as [|i]; simpl in Hi.
  - simplify_eq. destruct j as [|j]; [lia|]. simpl in Hj.
    rewrite filter_cons_True by done. simpl.
    assert (y ∈ filter P l) as Hin.
    { apply list_elem_of_filter. split; [done|]. by eapply list_elem_of_lookup_2. }
    destruct (filter P l); [by apply elem_of_nil in Hin|simpl; lia].
  - destruct j as [|j]; [lia|]. simpl in Hj.
    assert (1 < length (filter P l))%nat as Hl by (apply (IH i j x y); [lia|done..]).
    rewrite filter_cons. case_decide; simpl; lia.
Qed.

Lemma filter_two_positions_inv (l : list A) :
  (1 < length (filter P l))%nat →
  ∃ i j x y, (i < j)%nat ∧ l !! i = Some x ∧ l !! j = Some y ∧ P x ∧ P y.
Proof.
  induction l as [|a l IH]; [simpl; lia|].
  rewrite filter_cons. case_decide as Ha; simpl.
  - intros Hlen. destruct (filter P l) as [|y l'] eqn:Hf; [simpl in Hlen; lia|].
    assert (y ∈ filter P l) as [Hy [j Hj]%list_elem_of_lookup]%list_elem_of_filter
      by (rewrite Hf; apply list_elem_of_here).
    exists 0%nat, (S j), a, y. split_and!; [lia|done..].
  - intros (i & j & x & y & ? & ? & ? & ? & ?)%IH.
    exists (S i), (S j), x, y. split_and!; [lia|done..].
Qed.
End filter_two.

Section duplicates.
Context {F : Type} `{BaseField F}.
Implicit Types (ftp : list (F * option KeyPath)).

Lemma fields_at_snoc ftp f o p :
  fields_at (ftp ++ [(f, o)]) p =
  fields_at ftp p ++ (if decide (o = Some p) then [f] else []).
Proof.
  unfold fields_at. rewrite filter_app, fmap_app. f_equal.
  rewrite filter_cons, filter_nil. simpl. by case_decide.
Qed.

Lemma make_paths_to_fields_snoc ftp f o :
  make_paths_to_fields (ftp ++ [(f, o)]) =
  match o with
  | Some path => dict_append (make_paths_to_fields ftp) path f
  | None => make_paths_to_fields ftp
  end.
Proof. unfold make_paths_to_fields. by rewrite foldl_app. Qed.

Lemma make_paths_to_fields_NoDup ftp : NoDup (dict_keys (make_paths_to_fields ftp)).
Proof.
  induction ftp as [|[f o] ftp IH] using rev_ind.
  - apply NoDup_nil_2.
  - rewrite make_paths_to_fields_snoc. destruct o; [|done].
    by apply dict_set_NoDup.
Qed.

Lemma make_paths_to_fields_get ftp p :
  dict_get (make_paths_to_fields ftp) p =
  match fields_at ftp p with
  | [] => None
  | fs => Some fs
  end.
Proof.
  induction ftp as [|[f o] ftp IH] using rev_ind; [done|].
  rewrite make_paths_to_fields_snoc, fields_at_snoc.
  destruct o as [path|].
  - unfold dict_append. destruct (decide (path = p)) as [->|Hne].
    + rewrite dict_get_set_eq, decide_True by done. rewrite IH.
      destruct (fields_at ftp p); done.
    + rewrite dict_get_set_ne by done. rewrite decide_False by congruence.
      by rewrite app_nil_r.
  - rewrite decide_False by done. by rewrite app_nil_r.
Qed.

Lemma make_paths_to_fields_elem ftp p fs :
  (p, fs) ∈ make_paths_to_fields ftp ↔ fs = fields_at ftp p ∧ fs ≠ [].
Proof.
  split.
  - intros Hin%(dict_elem_get _ _ _ (make_paths_to_fields_NoDup ftp)).
    rewrite make_paths_to_fields_get in Hin.
    destruct (fields_at ftp p); by simplify_eq.
  - intros [-> Hne]. apply dict_get_Some_elem. rewrite make_paths_to_fields_get.
    by destruct (fields_at ftp p).
Qed.

Lemma make_duplicates_elem ftp p ids :
  (p, ids) ∈ make_duplicates (make_paths_to_fields ftp) ↔
  ids = field_id <$> fields_at ftp p ∧ (1 < length (fields_at ftp p))%nat.
Proof.
  unfold make_duplicates. rewrite list_elem_of_fmap. split.
  - intros ([p' fs] & Heq & [Hlen Hin]%list_elem_of_filter). simpl in *.
    simplify_eq. apply make_paths_to_fields_elem in Hin as [-> _]. done.
  - intros [-> Hlen]. exists (p, fields_at ftp p). split; [done|].
    apply list_elem_of_filter. split; [done|].
    apply make_paths_to_fields_elem. split; [done|].
    intros Hnil. rewrite Hnil in Hlen. simpl in Hlen. lia.
Qed.

Lemma collide_duplicates ftp i j f g p :
  collide ftp i j f g p →
  (1 < length (fields_at ftp p))%nat ∧ f ∈ fields_at ftp p ∧ g ∈ fields_at ftp p.
Proof.
  intros (Hne & Hi & Hj). unfold fields_at. rewrite length_fmap. split_and!.
  - destruct (decide (i < j)%nat).
    + by apply (filter_two_positions _ _ i j (f, Some p) (g, Some p)).
    + apply (filter_two_positions _ _ j i (g, Some p) (f, Some p)); [lia|done..].
  - apply list_elem_of_fmap. exists (f, Some p). split; [done|].
    apply list_elem_of_filter. split; [done|]. by eapply list_elem_of_lookup_2.
  - apply list_elem_of_fmap. exists (g, Some p). split; [done|].
    apply list_elem_of_filter. split; [done|]. by eapply list_elem_of_lookup_2.
Qed.

Lemma no_collision_no_duplicates ftp :
  (∀ i j f g p, ¬ collide ftp i j f g p) →
  make_duplicates (make_paths_to_fields ftp) = [].
Proof.
  intros Hno. destruct (make_duplicates _) as [|[p ids] l] eqn:Hd; [done|].
  assert ((p, ids) ∈ make_duplicates (make_paths_to_fields ftp)) as Hin
    by (rewrite Hd; apply list_elem_of_here).
  apply make_duplicates_elem in Hin as [_ Hlen]. unfold fields_at in Hlen.
  rewrite length_fmap in Hlen.
  apply filter_two_positions_inv in Hlen
    as (i & j & [f o] & [g o'] & Hlt & Hi & Hj & Ho & Ho').
  simpl in *. subst. exfalso. apply (Hno i j f g p). split; [lia|done].
Qed.

Variable get_prefix_groups : list KeyPath → list (KeyPath * list KeyPath).

Lemma validate_structure_duplicates ftp i j f g p :
  collide ftp i j f g p →
  _validate_structure get_prefix_groups ftp =
    Raise (ECannotProvide
             (duplicates_error (make_duplicates (make_paths_to_fields ftp)))).
Proof.
  intros Hc. unfold _validate_structure. rewrite bool_decide_eq_true_2; [done|].
  apply collide_duplicates in Hc as (Hlen & _ & _). intros Hnil.
  assert ((p, field_id <$> fields_at ftp p)
            ∈ make_duplicates (make_paths_to_fields ftp)) as Hin
    by by apply make_duplicates_elem.
  rewrite Hnil in Hin. by apply elem_of_nil in Hin.
Qed.

Lemma mapM_raise {A B} (h : A → result B) (xs : list A) e :
  mapM h xs = Raise e → ∃ x, x ∈ xs ∧ h x = Raise e.
Proof.
  induction xs as [|x xs IH]; simpl; [done|].
  destruct (h x) as [y|e'] eqn:Hx; simpl.
  - destruct (mapM h xs) as [ys|e'']; simpl; [done|]. intros ?; simplify_eq.
    destruct IH as (x' & ? & ?); [done|]. exists x'.
    split; [by apply list_elem_of_further|done].
  - intros ?; simplify_eq. exists x. split; [apply list_elem_of_here|done].
Qed.

Lemma first_field_id_raise (ptf : list (KeyPath * list F)) p e :
  first_field_id ptf p = Raise e → e = EIndexError.
Proof.
  unfold first_field_id. destruct (default [] (dict_get ptf p)); by intros ?; simplify_eq.
Qed.

Lemma prefix_details_raise (ptf : list (KeyPath * list F)) groups e :
  prefix_details ptf groups = Raise e → e = EIndexError.
Proof.
  intros (g & _ & Hg)%mapM_raise.
  destruct (first_field_id ptf g.1) eqn:H1; simpl in Hg;
    [|simplify_eq; by eapply first_field_id_raise].
  destruct (mapM _ g.2) eqn:H2; simpl in Hg; [done|]. simplify_eq.
  apply mapM_raise in H2 as (p & _ & Hp).
  destruct (first_field_id ptf p) eqn:H3; simpl in Hp; [done|]. simplify_eq.
  by eapply first_field_id_raise.
Qed.

Lemma optional_fields_at_list_raise ftp e :
  optional_fields_at_list ftp = Raise e → e = EIndexError.
Proof.
  induction ftp as [|[f o] ftp IH]; simpl; [done|].
  destruct o as [p|]; simpl.
  - destruct (is_optional f); simpl.
    + unfold py_getitem. case_bool_decide; simpl; [|by intros ?; simplify_eq].
      destruct (p !! _); simpl; [|by intros ?; simplify_eq].
      destruct (optional_fields_at_list ftp); simpl; [done|].
      intros ?; simplify_eq. by apply IH.
    + destruct (optional_fields_at_list ftp); simpl; [done|].
      intros ?; simplify_eq. by apply IH.
  - destruct (optional_fields_at_list ftp); simpl; [done|].
    intros ?; simplify_eq. by apply IH.
Qed.

(** The outcomes of [_validate_structure]. *)
Lemma validate_structure_result ftp :
  let duplicates := make_duplicates (make_paths_to_fields ftp) in
  (duplicates ≠ [] ∧
   _validate_structure get_prefix_groups ftp
     = Raise (ECannotProvide (duplicates_error duplicates))) ∨
  (duplicates = [] ∧
   (_validate_structure get_prefix_groups ftp = Ok () ∨
    _validate_structure get_prefix_groups ftp = Raise EIndexError ∨
    (∃ details, _validate_structure get_prefix_groups ftp
       = Raise (ECannotProvide (terminal_error (MsgPrefixOfAnotherPath details)))) ∨
    (∃ ids, _validate_structure get_prefix_groups ftp
       = Raise (ECannotProvide (terminal_error (MsgOptionalFieldsAtList ids)))))).
Proof.
  intros duplicates. unfold _validate_structure. fold duplicates.
  case_bool_decide as Hd; [left; by split|right].
  split; [by destruct duplicates; [|destruct Hd]|].
  case_bool_decide.
  - destruct (prefix_details _ _) as [details|e] eqn:Hp; simpl.
    + right. right. left. by exists details.
    + apply prefix_details_raise in Hp as ->. right. by left.
  - destruct (optional_fields_at_list ftp) as [ids|e] eqn:Ho; simpl.
    + case_bool_decide; [|by left]. right. right. right. by exists ids.
    + apply optional_fields_at_list_raise in Ho as ->. right. by left.
Qed.

Lemma validate_structure_no_duplicates ftp :
  (∀ i j f g p, ¬ collide ftp i j f g p) →
  make_duplicates (make_paths_to_fields ftp) = [] ∧
  ∀ duplicates,
    _validate_structure get_prefix_groups ftp
      ≠ Raise (ECannotProvide (duplicates_error duplicates)).
Proof.
  intros Hno%no_collision_no_duplicates. split; [done|]. intros dups.
  destruct (validate_structure_result ftp) as [[Hne _]|[_ Hres]]; [done|].
  destruct Hres as [->|[->|[[? ->]|[? ->]]]]; done.
Qed.
End duplicates.

(** C1 (as amended): when two entries of the mapped fields collide on a
    path, the duplicate check of [_validate_structure] raises a terminal,
    demonstrative [CannotProvide] whose message lists every path that several
    fields point to, each with the ids of all the fields mapped to it;
    [make_out_structure] and [make_inp_structure] then fail with a terminal,
    demonstrative [CannotProvide], which is this error whenever no earlier
    check (skipped required fields, inconsistent path elements) fails first.
    Without a collision the list of duplicates is empty and
    [_validate_structure] does not raise the duplicates error. *)
Theorem C1_duplicate_paths_rejected
    {F : Type} `{BaseField F} {Leaf : Type}
    (get_prefix_groups : list KeyPath → list (KeyPath * list KeyPath))
    (field_crown : string → Leaf) (gaps_filler : KeyPath → Leaf)
    (fields_to_paths : list (F * option KeyPath)) :
  let duplicates := make_duplicates (make_paths_to_fields fields_to_paths) in
  (∀ path ids, (path, ids) ∈ duplicates ↔
     ids = field_id <$> fields_at fields_to_paths path ∧
     (1 < length (fields_at fields_to_paths path))%nat) ∧
  (∀ i j f g path, collide fields_to_paths i j f g path →
     (path, field_id <$> fields_at fields_to_paths path) ∈ duplicates ∧
     field_id f ∈ field_id <$> fields_at fields_to_paths path ∧
     field_id g ∈ field_id <$> fields_at fields_to_paths path ∧
     _validate_structure get_prefix_groups fields_to_paths
       = Raise (ECannotProvide
                  {| msg := Some (MsgPathsPointedToSeveralFields duplicates);
                     sub_errors := [];
                     is_terminal := true; is_demonstrative := true |}) ∧
     (∃ e, make_out_structure get_prefix_groups field_crown gaps_filler
             fields_to_paths = Raise (ECannotProvide e) ∧
           is_terminal e = true ∧ is_demonstrative e = true ∧
           ((∀ parent, ¬ mixed_at (mapped_paths fields_to_paths) parent) →
            e = duplicates_error duplicates)) ∧
     (∃ e, make_inp_structure get_prefix_groups field_crown gaps_filler
             fields_to_paths = Raise (ECannotProvide e) ∧
           is_terminal e = true ∧ is_demonstrative e = true ∧
           (skipped_required_fields fields_to_paths = [] →
            (∀ parent, ¬ mixed_at (mapped_paths fields_to_paths) parent) →
            e = duplicates_error duplicates))) ∧
  ((∀ i j f g path, ¬ collide fields_to_paths i j f g path) →
     duplicates = [] ∧
     ∀ d, _validate_structure get_prefix_groups fields_to_paths
            ≠ Raise (ECannotProvide (duplicates_error d))).
Proof.
  intros duplicates. split_and!.
  - intros path ids. apply make_duplicates_elem.
  - intros i j f g path Hc.
    pose proof (validate_structure_duplicates get_prefix_groups _ _ _ _ _ _ Hc)
      as Hval.
    destruct (collide_duplicates _ _ _ _ _ _ Hc) as (Hlen & Hf & Hg).
    assert (∃ e, make_out_structure get_prefix_groups field_crown gaps_filler
                   fields_to_paths = Raise (ECannotProvide e) ∧
                 is_terminal e = true ∧ is_demonstrative e = true ∧
                 ((∀ parent, ¬ mixed_at (mapped_paths fields_to_paths) parent) →
                  e = duplicates_error duplicates)) as Hout.
    { unfold make_out_structure.
      destruct (make_paths_to_leaves_result field_crown gaps_filler fields_to_paths)
        as [[ptl Hptl]|[sp Hsp]].
      - rewrite Hptl. simpl. rewrite Hval. simpl. eexists. split_and!; done.
      - rewrite Hsp. simpl. eexists. split_and!; [done..|]. intros Hno.
        destruct (make_paths_to_leaves_ok field_crown gaps_filler _ Hno)
          as (ptl & Hptl & _). congruence. }
    split_and!; [by apply make_duplicates_elem|by apply list_elem_of_fmap_2..
                 |done|done|].
    unfold make_inp_structure. case_bool_decide as Hskip.
    + eexists. split_and!; [done..|]. intros Hnil. by destruct Hskip.
    + destruct Hout as (e & Hout & ? & ? & ?). exists e.
      split_and!; [done..|]. auto.
  - apply validate_structure_no_duplicates.
Qed.

Lemma C1_duplicate_paths_rejected_witness :
  let fa := {| name := "x"; inp_is_required := true; param_kind := POS_OR_KW;
               param_name := "x" |} in
  let fb := {| name := "y"; inp_is_required := true; param_kind := POS_OR_KW;
               param_name := "y" |} in
  let fields_to_paths := [(fa, Some [KStr "a"]); (fb, Some [KStr "a"])] in
  _validate_structure (λ _, []) fields_to_paths
  = Raise (ECannotProvide
             {| msg := Some (MsgPathsPointedToSeveralFields
                               (make_duplicates (make_paths_to_fields fields_to_paths)));
                sub_errors := [];
                is_terminal := true; is_demonstrative := true |}) ∧
  make_duplicates (make_paths_to_fields fields_to_paths) = [([KStr "a"], ["x"; "y"])].
Proof.
  intros fa fb fields_to_paths.
  destruct (C1_duplicate_paths_rejected (λ _, []) InpFieldCrown _fill_input_gap
              fields_to_paths) as (_ & Hdup & _).
  destruct (Hdup 0%nat 1%nat fa fb [KStr "a"]) as (_ & _ & _ & Hval & _).
  - split_and!; [lia|reflexivity|reflexivity].
  - split; [exact Hval|vm_compute; reflexivity].
Defined.

(** C1 as stated fails: these three output fields have two entries on the
    path [("a", 0)], yet [make_out_structure] and [make_inp_structure] raise
    "Inconsistent path elements", which names no field. *)
Lemma C1_counterexample :
  let fa := {| out_id := "x"; out_default := NoDefault; out_is_required := true |} in
  let fb := {| out_id := "y"; out_default := NoDefault; out_is_required := true |} in
  let fc := {| out_id := "z"; out_default := NoDefault; out_is_required := true |} in
  let fields_to_paths : list (OutputField unit * option KeyPath) :=
    [(fa, Some [KStr "a"; KInt 0]); (fb, Some [KStr "a"; KInt 0]);
     (fc, Some [KStr "a"; KStr "b"])] in
  collide fields_to_paths 0 1 fa fb [KStr "a"; KInt 0] ∧
  make_out_structure (λ _, []) (@OutFieldCrown unit) _fill_output_gap fields_to_paths
    = Raise (ECannotProvide
               (terminal_error (MsgInconsistentPathElements [KStr "a"]))) ∧
  make_inp_structure (λ _, []) (@OutFieldCrown unit) _fill_output_gap fields_to_paths
    = Raise (ECannotProvide
               (terminal_error (MsgInconsistentPathElements [KStr "a"]))) ∧
  ¬ duplicates_always_reported.
Proof.
  intros fa fb fc fields_to_paths.
  assert (collide fields_to_paths 0 1 fa fb [KStr "a"; KInt 0]) as Hc
    by (split_and!; [lia|reflexivity|reflexivity]).
  assert (make_out_structure (λ _, []) (@OutFieldCrown unit) _fill_output_gap fields_to_paths
          = Raise (ECannotProvide
                     (terminal_error (MsgInconsistentPathElements [KStr "a"]))))
    as Hout by (vm_compute; reflexivity).
  split_and!; [done|done|vm_compute; reflexivity|].
  intros Hclaim. destruct (Hclaim (λ _, []) fields_to_paths _ _ _ _ _ Hc) as [d Hd].
  rewrite Hout in Hd. discriminate Hd.
Qed.

(** ** The extra policies maker *)

Lemma branch_range_elem (p : KeyPath) (i : Z) :
  i ∈ branch_range p ↔ -1 ≤ i ≤ Z.of_nat (length p) - 1.
Proof.
  unfold branch_range. rewrite list_elem_of_fmap. split.
  - intros (k & -> & Hk%elem_of_seq). lia.
  - intros Hi. exists (Z.to_nat (Z.of_nat (length p) - 1 - i)). split; [lia|].
    apply elem_of_seq. lia.
Qed.

Lemma branch_pair_valid (p : KeyPath) (i : Z) :
  p ≠ [] → -1 ≤ i ≤ Z.of_nat (length p) - 1 →
  ∃ k, py_getitem p i = Ok k ∧ sub_of p (py_slice_to p i, k).
Proof.
  intros Hp Hi. assert (0 < length p)%nat by (destruct p; [done|simpl; lia]).
  unfold py_getitem, py_slice_to. destruct (decide (i < 0)) as [Hneg|Hneg].
  - assert (i = -1) as -> by lia.
    rewrite !(bool_decide_eq_true_2 (-1 < 0)) by done.
    rewrite bool_decide_eq_true_2 by lia.
    destruct (lookup_lt_is_Some_2 p (Z.to_nat (Z.of_nat (length p) + -1)))
      as [k Hk]; [lia|].
    rewrite Hk. exists k. split; [done|].
    exists (Z.to_nat (Z.of_nat (length p) + -1)). simpl. split; [done|].
    f_equal. lia.
  - rewrite !(bool_decide_eq_false_2 (i < 0)) by done.
    rewrite bool_decide_eq_true_2 by lia.
    destruct (lookup_lt_is_Some_2 p (Z.to_nat i)) as [k Hk]; [lia|].
    rewrite Hk. exists k. split; [done|]. by exists (Z.to_nat i).
Qed.

Lemma branch_pair_cover (p : KeyPath) (x : KeyPath * Key) :
  sub_of p x →
  ∃ i, i ∈ branch_range p ∧ py_getitem p i = Ok x.2 ∧ py_slice_to p i = x.1.
Proof.
  intros (idx & Hk & Hx). apply lookup_lt_Some in Hk as Hlt.
  exists (Z.of_nat idx). split; [apply branch_range_elem; lia|].
  unfold py_getitem, py_slice_to.
  rewrite !(bool_decide_eq_false_2 (Z.of_nat idx < 0)) by lia.
  rewrite bool_decide_eq_true_2 by lia. rewrite Nat2Z.id, Hk, Hx. done.
Qed.

Lemma branches_of_path_list (p : KeyPath) (range : list Z)
    (next : gen (KeyPath * Key)) :
  (∀ i, i ∈ range → ∃ k, py_getitem p i = Ok k) →
  ∃ l, gen_to_list (branches_of_path p range ∅ next)
         = (l ++ (gen_to_list next).1, (gen_to_list next).2) ∧
       ∀ x, x ∈ l ↔ ∃ i, i ∈ range ∧ py_getitem p i = Ok x.2 ∧ py_slice_to p i = x.1.
Proof.
  induction range as [|i range IH]; intros Hvalid; simpl.
  - exists []. split; [by destruct (gen_to_list next)|].
    intros x. split; [by intros ?%elem_of_nil|].
    by intros (i & ?%elem_of_nil & _).
  - rewrite decide_False by set_solver.
    destruct (Hvalid i) as [k Hk]; [apply list_elem_of_here|]. rewrite Hk.
    destruct IH as (l & Hl & Hin).
    { intros j Hj. apply Hvalid. by apply list_elem_of_further. }
    exists ((py_slice_to p i, k) :: l). simpl. rewrite Hl. split; [done|].
    intros x. rewrite elem_of_cons, Hin. split.
    + intros [->|(j & ? & ?)].
      * exists i. split; [apply list_elem_of_here|done].
      * exists j. split; [by apply list_elem_of_further|done].
    + intros (j & [->|?]%elem_of_cons & Hj & Hs).
      * left. destruct x; simpl in *. rewrite Hk in Hj. by simplify_eq.
      * right. by exists j.
Qed.

Lemma paths_to_branches_list (paths : list KeyPath) :
  (∀ p, p ∈ paths → p ≠ []) →
  ∃ l, gen_to_list (paths_to_branches_from paths ∅) = (l, None) ∧
       ∀ x, x ∈ l ↔ branch_of paths x.1 x.2.
Proof.
  induction paths as [|p paths IH]; intros Hne; cbn [paths_to_branches_from].
  - exists []. split; [done|]. intros x. split; [by intros ?%elem_of_nil|].
    by intros (? & ?%elem_of_nil & _).
  - destruct IH as (l' & Hl' & Hin').
    { intros q Hq. apply Hne. by apply list_elem_of_further. }
    assert (p ≠ []) as Hp by (apply Hne, list_elem_of_here).
    destruct (branches_of_path_list p (branch_range p)
                (paths_to_branches_from paths ∅)) as (l & Hl & Hin).
    { intros i Hi%branch_range_elem.
      destruct (branch_pair_valid p i Hp Hi) as (k & ? & _). by exists k. }
    rewrite Hl, Hl'. simpl. exists (l ++ l'). split; [done|].
    intros [b k]. rewrite elem_of_app, Hin, Hin'. unfold branch_of. simpl. split.
    + intros [(i & Hi%branch_range_elem & Hk & Hs)|(q & ? & ?)].
      * exists p. split; [apply list_elem_of_here|].
        destruct (branch_pair_valid p i Hp Hi) as (k' & Hk' & Hsub).
        rewrite Hk in Hk'. simplify_eq. done.
      * exists q. split; [by apply list_elem_of_further|done].
    + intros (q & [->|?]%elem_of_cons & Hsub).
      * left. by apply branch_pair_cover in Hsub.
      * right. by exists q.
Qed.

(** The consumer loop over a generator that yields [l] and then ends
    ([stop = None]) or raises. *)
Lemma extra_policies_loop_spec (policy : DictExtraPolicy) (g : gen (KeyPath * Key)) :
  ∀ d,
    ((policy = ExtraCollect ∧ ∃ x, x ∈ (gen_to_list g).1 ∧ is_int x.2 = true) →
       extra_policies_loop g policy d = Raise collect_with_list) ∧
    (¬ (policy = ExtraCollect ∧ ∃ x, x ∈ (gen_to_list g).1 ∧ is_int x.2 = true) →
       (gen_to_list g).2 = None →
       ∃ d', extra_policies_loop g policy d = Ok d' ∧
         ∀ b, (b ∈ (gen_to_list g).1.*1 → dict_get d' b = Some policy) ∧
              (b ∉ (gen_to_list g).1.*1 → dict_get d' b = dict_get d b)).
Proof.
  induction g as [|[path key] rest IH|e]; intros d;
    cbn [extra_policies_loop gen_to_list fst snd].
  - split; [by intros [_ (x & ?%elem_of_nil & _)]|].
    intros _ _. exists d. split; [done|]. intros b.
    split; [by intros ?%elem_of_nil|done].
  - destruct (IH (dict_set d path policy)) as [IH1 IH2]. split.
    + intros [-> (x & [->|Hx]%elem_of_cons & Hint)]; simpl in *.
      * by rewrite Hint.
      * destruct (is_int key); [done|]. simpl. apply IH1. split; [done|].
        by exists x.
    + intros Hno Hend.
      assert (bool_decide (policy = ExtraCollect) && is_int key = false) as ->.
      { apply andb_false_iff. destruct (decide (policy = ExtraCollect)) as [->|];
          [right|left; by apply bool_decide_eq_false_2].
        apply not_true_is_false. intros Hint. apply Hno. split; [done|].
        exists (path, key). split; [apply list_elem_of_here|done]. }
      destruct IH2 as (d' & Hrun & Hd'); [|done|].
      { intros [-> (x & ? & ?)]. apply Hno. split; [done|]. exists x.
        split; [by apply list_elem_of_further|done]. }
      exists d'. split; [done|]. intros b. destruct (Hd' b) as [Hin Hout].
      rewrite fmap_cons. cbn [fst].
      destruct (decide (b ∈ (gen_to_list rest).1.*1)) as [Hb|Hb].
      * split; [intros _; by apply Hin|]. intros Hnb. exfalso. apply Hnb.
        by apply list_elem_of_further.
      * rewrite (Hout Hb). split.
        -- intros [->|?]%elem_of_cons; [by apply dict_get_set_eq|done].
        -- intros [? ?]%not_elem_of_cons. by apply dict_get_set_ne.
  - split; [by intros [_ (x & ?%elem_of_nil & _)]|]. by intros _ ?.
Qed.

(** C9 (as amended): for non-empty leaf paths, when the root policy is
    [ExtraCollect] and some branch key of the tree is a list index,
    [make_extra_policies] raises the terminal, demonstrative [CannotProvide]
    "Can not use collecting extra_in with list mapping"; when no branch key is
    a list index (or the policy is not [ExtraCollect]) it returns a mapping
    that gives the root policy to the root path and to every branch path,
    and to nothing else. *)
Theorem C9_collect_under_list_rejected {Leaf : Type}
    (extra_in : ExtraIn) (paths_to_leaves : list (KeyPath * Leaf)) :
  let policy := _get_extra_policy extra_in in
  let paths := dict_keys paths_to_leaves in
  (∀ p, p ∈ paths → p ≠ []) →
  (policy = ExtraCollect → int_branch_key paths →
     make_extra_policies extra_in paths_to_leaves
     = Raise (ECannotProvide
                {| msg := Some MsgCollectWithListMapping; sub_errors := [];
                   is_terminal := true; is_demonstrative := true |})) ∧
  (policy ≠ ExtraCollect ∨ ¬ int_branch_key paths →
     ∃ path_to_extra_policy,
       make_extra_policies extra_in paths_to_leaves = Ok path_to_extra_policy ∧
       ∀ b, (b = [] ∨ (∃ k, branch_of paths b k) →
               dict_get path_to_extra_policy b = Some policy) ∧
            (¬ (b = [] ∨ ∃ k, branch_of paths b k) →
               dict_get path_to_extra_policy b = None)).
Proof.
  intros policy paths Hne.
  destruct (paths_to_branches_list paths Hne) as (l & Hl & Hin).
  unfold make_extra_policies, _paths_to_branches. fold policy paths.
  destruct (extra_policies_loop_spec policy (paths_to_branches_from paths ∅)
              [([], policy)]) as [Hraise Hok].
  rewrite Hl in Hraise, Hok. simpl in Hraise, Hok. split.
  - intros Hpol (b & i & Hb). apply Hraise. split; [done|].
    exists (b, KInt i). split; [by apply Hin|done].
  - intros Hcase. destruct Hok as (d & Hrun & Hd); [|done|].
    { intros [Hpol ([b k] & Hx%Hin & Hint)]. simpl in *.
      destruct k as [s|i]; [done|].
      destruct Hcase as [?|Hno]; [done|]. apply Hno. by exists b, i. }
    exists d. split; [done|]. intros b. destruct (Hd b) as [Hd1 Hd2].
    assert (b ∈ l.*1 ↔ ∃ k, branch_of paths b k) as Hbranch.
    { rewrite list_elem_of_fmap. split.
      - intros ([b' k] & -> & Hx%Hin). by exists k.
      - intros [k Hk]. exists (b, k). split; [done|]. by apply Hin. }
    split.
    + intros [->|Hb%Hbranch]; [|by apply Hd1].
      destruct (decide ([] ∈ l.*1)); [by apply Hd1|]. rewrite Hd2 by done.
      cbn [dict_get]. by rewrite decide_True.
    + intros Hnot. rewrite Hd2 by (intros ?%Hbranch; apply Hnot; by right).
      cbn [dict_get]. rewrite decide_False; [done|]. intros <-. apply Hnot. by left.
Qed.

Lemma C9_collect_under_list_rejected_witness :
  make_extra_policies ExtraInKwargs
    [([KStr "a"; KInt 0], InpFieldCrown "x"); ([KStr "b"], InpFieldCrown "y")]
  = Raise (ECannotProvide
             {| msg := Some MsgCollectWithListMapping; sub_errors := [];
                is_terminal := true; is_demonstrative := true |}).
Proof.
  destruct (C9_collect_under_list_rejected ExtraInKwargs
              [([KStr "a"; KInt 0], InpFieldCrown "x");
               ([KStr "b"], InpFieldCrown "y")]) as [Hraise _].
  - intros p Hp. simpl in Hp.
    apply elem_of_cons in Hp as [->|Hp]; [done|].
    by apply list_elem_of_singleton in Hp as ->.
  - apply Hraise; [reflexivity|].
    exists [KStr "a"], 0, [KStr "a"; KInt 0]. split; [apply list_elem_of_here|].
    by exists 1%nat.
Defined.

(** C9 as stated fails on a leaf at the root path, which the structure maker
    returns for a field mapped to [()]: there is no branch key at all, yet
    the generator evaluates [path[-1]] on the empty path and the maker stops
    with [IndexError]. *)
Lemma C9_counterexample :
  make_inp_structure (λ _, []) InpFieldCrown _fill_input_gap
    [({| name := "x"; inp_is_required := true; param_kind := POS_OR_KW;
         param_name := "x" |}, Some [])]
    = Ok [([], InpFieldCrown "x")] ∧
  ¬ int_branch_key (dict_keys [([] : KeyPath, InpFieldCrown "x")]) ∧
  make_extra_policies ExtraInKwargs [([], InpFieldCrown "x")] = Raise EIndexError ∧
  make_extra_policies ExtraInSkip [([], InpFieldCrown "x")] = Raise EIndexError ∧
  ¬ extra_policies_total.
Proof.
  assert (¬ int_branch_key (dict_keys [([] : KeyPath, InpFieldCrown "x")])) as Hno.
  { intros (b & i & p & Hp & idx & Hk & _). simpl in Hp.
    apply list_elem_of_singleton in Hp as ->. by rewrite lookup_nil in Hk. }
  split_and!; [by vm_compute|done|reflexivity|reflexivity|].
  intros Htotal. destruct (Htotal ExtraInKwargs _ Hno) as [d Hd]. discriminate Hd.
Qed.

(** ** The sieves maker *)

Section sieves.
Context {St : Type}.
Implicit Types (fields : list (OutputField St)) (field : OutputField St)
  (items : list (KeyPath * LeafOutCrown St)) (sieves : list (KeyPath * Sieve St)).

Lemma create_sieve_ok field :
  has_default field = true →
  ∃ sieve, _create_sieve field = Ok sieve ∧
    ∀ obj value st, sieve obj value st = sieve_answer (out_default field) obj value st.
Proof.
  unfold has_default, _create_sieve, with_default_clause, sieve_answer, py_ne.
  destruct (out_default field); intros Hd; [done|eexists; split; [done|done]..].
Qed.

Lemma fields_dict_result fields id :
  (∃ f, fields_dict fields id = Ok f) ∨ fields_dict fields id = Raise EKeyError.
Proof. unfold fields_dict. destruct (list_find _ fields) as [[i f]|]; eauto. Qed.

(** One step of the loop, by the cases of the leaf. *)
Lemma make_sieves_loop_step fields (schema : SievesSchema St) p leaf items sieves :
  make_sieves_loop fields schema ((p, leaf) :: items) sieves =
  match leaf with
  | OutNoneCrown _ => make_sieves_loop fields schema items sieves
  | OutFieldCrown id =>
      match fields_dict fields id with
      | Raise e => Raise e
      | Ok f =>
          if has_default f then
            match omit_default schema f with
            | Ok _ =>
                match _create_sieve f with
                | Ok sieve => make_sieves_loop fields schema items (dict_set sieves p sieve)
                | Raise e => Raise e
                end
            | Raise (ECannotProvide _) => make_sieves_loop fields schema items sieves
            | Raise e => Raise e
            end
          else make_sieves_loop fields schema items sieves
      end
  end.
Proof.
  cbn [make_sieves_loop]. destruct leaf as [id|placeholder]; [|done].
  destruct (fields_dict fields id) as [f|e]; simpl; [|done].
  destruct (has_default f); [|done]. unfold apply_rc.
  by destruct (omit_default schema f) as [[]|[]].
Qed.

Lemma make_sieves_loop_returns fields (schema : SievesSchema St) items :
  ∀ sieves,
    (∃ sieves', make_sieves_loop fields schema items sieves = Ok sieves')
    ↔ sieves_decided fields schema items.
Proof.
  unfold sieves_decided.
  induction items as [|[p leaf] items IH]; intros sieves.
  - split; [by intros _ ? ? ?%elem_of_nil|]. intros _. by eexists.
  - rewrite make_sieves_loop_step.
    assert (∀ sieves0,
      (∃ sieves', make_sieves_loop fields schema items sieves0 = Ok sieves') →
      (∀ id, leaf = OutFieldCrown id →
         ∃ f, fields_dict fields id = Ok f
              ∧ (has_default f = true → conforms (omit_default schema f))) →
      ∀ path id, (path, OutFieldCrown id) ∈ (p, leaf) :: items →
        ∃ f, fields_dict fields id = Ok f
             ∧ (has_default f = true → conforms (omit_default schema f))) as Hcons.
    { intros sieves0 Hrest Hleaf path id [[= <- <-]|Hin]%elem_of_cons;
        [by apply Hleaf|]. by eapply (proj1 (IH sieves0) Hrest). }
    assert ((∀ path id, (path, OutFieldCrown id) ∈ (p, leaf) :: items →
               ∃ f, fields_dict fields id = Ok f
                    ∧ (has_default f = true → conforms (omit_default schema f))) →
            ∀ sieves0,
              ∃ sieves', make_sieves_loop fields schema items sieves0 = Ok sieves')
      as Htail.
    { intros Hall sieves0. apply (proj2 (IH sieves0)).
      intros path id Hin. apply (Hall path id). by right. }
    destruct leaf as [id|placeholder].
    + destruct (fields_dict fields id) as [f|e] eqn:Hf.
      * destruct (has_default f) eqn:Hd.
        -- destruct (omit_default schema f) as [[]|[cp| | | | |]] eqn:Ho.
           ++ destruct (create_sieve_ok f Hd) as (s & -> & _).
              split; [|intros Hall; by apply Htail].
              intros Hrest. apply (Hcons _ Hrest). intros id' [= <-]. exists f.
              split; [done|]. intros _. by left.
           ++ split; [|intros Hall; by apply Htail].
              intros Hrest. apply (Hcons _ Hrest). intros id' [= <-]. exists f.
              split; [done|]. intros _. right. by eexists.
           ++ split; [by intros [? ?]|]. intros Hall.
              destruct (Hall p id) as (f' & Hf' & Hconf); [by left|].
              assert (f' = f) as -> by congruence.
              destruct (Hconf Hd) as [?|[? ?]]; congruence.
           ++ split; [by intros [? ?]|]. intros Hall.
              destruct (Hall p id) as (f' & Hf' & Hconf); [by left|].
              assert (f' = f) as -> by congruence.
              destruct (Hconf Hd) as [?|[? ?]]; congruence.
           ++ split; [by intros [? ?]|]. intros Hall.
              destruct (Hall p id) as (f' & Hf' & Hconf); [by left|].
              assert (f' = f) as -> by congruence.
              destruct (Hconf Hd) as [?|[? ?]]; congruence.
           ++ split; [by intros [? ?]|]. intros Hall.
              destruct (Hall p id) as (f' & Hf' & Hconf); [by left|].
              assert (f' = f) as -> by congruence.
              destruct (Hconf Hd) as [?|[? ?]]; congruence.
           ++ split; [by intros [? ?]|]. intros Hall.
              destruct (Hall p id) as (f' & Hf' & Hconf); [by left|].
              assert (f' = f) as -> by congruence.
              destruct (Hconf Hd) as [?|[? ?]]; congruence.
        -- split; [|intros Hall; by apply Htail].
           intros Hrest. apply (Hcons _ Hrest). intros id' [= <-]. exists f.
           split; [done|]. intros ?. congruence.
      * split; [by intros [? ?]|]. intros Hall.
        destruct (Hall p id) as (f' & Hf' & _); [by left|]. congruence.
    + split; [|intros Hall; by apply Htail].
      intros Hrest. by apply (Hcons _ Hrest).
Qed.

Lemma make_sieves_loop_get fields (schema : SievesSchema St) items :
  NoDup (dict_keys items) →
  ∀ sieves sieves',
    make_sieves_loop fields schema items sieves = Ok sieves' →
    ∀ path, dict_get sieves' path =
      match dict_get items path ≫= sieve_for fields schema with
      | Some sieve => Some sieve
      | None => dict_get sieves path
      end.
Proof.
  induction items as [|[p leaf] items IH]; intros Hnd sieves sieves' Hrun.
  - simpl in Hrun. by simplify_eq.
  - apply NoDup_cons in Hnd as [Hp Hnd].
    assert (dict_get items p = None) as Hnone by by apply dict_get_None_keys.
    rewrite make_sieves_loop_step in Hrun.
    assert (∀ sieves0 (stored : option (Sieve St)),
      make_sieves_loop fields schema items sieves0 = Ok sieves' →
      sieve_for fields schema leaf = stored →
      dict_get sieves0 p = match stored with
                           | Some sieve => Some sieve
                           | None => dict_get sieves p
                           end →
      (∀ path, p ≠ path → dict_get sieves0 path = dict_get sieves path) →
      ∀ path, dict_get sieves' path =
        match dict_get ((p, leaf) :: items) path ≫= sieve_for fields schema with
        | Some sieve => Some sieve
        | None => dict_get sieves path
        end) as Hstep.
    { intros sieves0 stored Hrest Hstored Hp0 Hother path.
      rewrite (IH Hnd _ _ Hrest path). cbn [dict_get].
      destruct (decide (p = path)) as [<-|Hne].
      - rewrite Hnone. simpl. by rewrite Hstored, Hp0.
      - destruct (dict_get items path ≫= _); [done|]. by apply Hother. }
    destruct leaf as [id|placeholder].
    + destruct (fields_dict fields id) as [f|e] eqn:Hf; [|done].
      destruct (has_default f) eqn:Hd.
      * destruct (omit_default schema f) as [[]|[cp| | | | |]] eqn:Ho; try done.
        -- destruct (_create_sieve f) as [s|e] eqn:Hs; [|done].
           apply (Hstep _ (Some s) Hrun).
           ++ simpl. unfold apply_rc. by rewrite Hf, Hd, Ho, Hs.
           ++ apply dict_get_set_eq.
           ++ intros path Hne. by apply dict_get_set_ne.
        -- apply (Hstep _ None Hrun); [|done|done].
           simpl. unfold apply_rc. by rewrite Hf, Hd, Ho.
      * apply (Hstep _ None Hrun); [|done|done]. simpl. by rewrite Hf, Hd.
    + by apply (Hstep _ None Hrun).
Qed.

Lemma make_sieves_loop_raises fields (schema : SievesSchema St) items :
  ∀ sieves e,
    make_sieves_loop fields schema items sieves = Raise e →
    (e = EKeyError ∧
     ∃ path id, (path, OutFieldCrown id) ∈ items
                ∧ fields_dict fields id = Raise EKeyError)
    ∨ (∃ path id f, (path, OutFieldCrown id) ∈ items ∧ fields_dict fields id = Ok f
                    ∧ has_default f = true ∧ omit_default schema f = Raise e
                    ∧ ∀ cp, e ≠ ECannotProvide cp).
Proof.
  induction items as [|[p leaf] items IH]; intros sieves e Hrun; [done|].
  rewrite make_sieves_loop_step in Hrun.
  assert (∀ sieves0,
    make_sieves_loop fields schema items sieves0 = Raise e →
    (e = EKeyError ∧
     ∃ path id, (path, OutFieldCrown id) ∈ (p, leaf) :: items
                ∧ fields_dict fields id = Raise EKeyError)
    ∨ (∃ path id f, (path, OutFieldCrown id) ∈ (p, leaf) :: items
                    ∧ fields_dict fields id = Ok f
                    ∧ has_default f = true ∧ omit_default schema f = Raise e
                    ∧ ∀ cp, e ≠ ECannotProvide cp)) as Hrest.
  { intros sieves0 [(-> & path & id & Hin & ?)|(path & id & f & Hin & ?)]%IH.
    - left. split; [done|]. exists path, id. split; [by right|done].
    - right. exists path, id, f. split; [by right|done]. }
  destruct leaf as [id|placeholder]; [|by apply Hrest in Hrun].
  destruct (fields_dict_result fields id) as [[f Hf]|Hunk]; rewrite ?Hf, ?Hunk in Hrun.
  - destruct (has_default f) eqn:Hd; [|by apply Hrest in Hrun].
    destruct (omit_default schema f) as [[]|e0] eqn:Ho.
    + destruct (create_sieve_ok f Hd) as (s & Hs & _). rewrite Hs in Hrun.
      by apply Hrest in Hrun.
    + destruct e0 as [cp| | | | |]; [by apply Hrest in Hrun|..]; simplify_eq;
        right; exists p, id, f; split_and!; try done; by left.
  - simplify_eq. left. split; [done|]. exists p, id. split; [by left|done].
Qed.
End sieves.

(** C3: the sieves that [make_sieves] builds.  It returns when the schema is
    provided, every field crown of the mapping names a known field and the
    omit-default checker gives a decision for each such field that has a
    default.  Whenever it returns, it has stored a sieve exactly for the field
    leaves whose field has a default and a positive omit-default decision.
    That sieve is the routine [(obj, value) -> keep] of [_create_sieve]: it
    answers [value != v] for [DefaultValue(v)], [value != f()] with [f] called
    at that moment for [DefaultFactory(f)], and [value != f(obj)] for
    [DefaultFactoryWithSelf(f)]; so [keep] is false exactly when the value
    equals the default.  With [DefaultValue(0)] the value 0 is omitted and
    the value 1 is kept. *)
Theorem C3_sieve_omits_default_values {St : Type}
    (fields : list (OutputField St)) (provided_schema : result (SievesSchema St))
    (paths_to_leaves : list (KeyPath * LeafOutCrown St)) :
  NoDup (dict_keys paths_to_leaves) →
  (∀ schema, provided_schema = Ok schema →
     sieves_decided fields schema paths_to_leaves →
     ∃ sieves, make_sieves fields provided_schema paths_to_leaves = Ok sieves) ∧
  (∀ sieves, make_sieves fields provided_schema paths_to_leaves = Ok sieves →
     ∃ schema, provided_schema = Ok schema ∧
       sieves_decided fields schema paths_to_leaves ∧
       (∀ path id field,
          (path, OutFieldCrown id) ∈ paths_to_leaves →
          fields_dict fields id = Ok field →
          (has_default field = true → omit_default schema field = Ok () →
             ∃ sieve, dict_get sieves path = Some sieve ∧
               _create_sieve field = Ok sieve ∧
               (∀ obj value st,
                  sieve obj value st =
                  match out_default field with
                  | NoDefault => (true, st)
                  | DefaultValue v => (negb (py_eq value v), st)
                  | DefaultFactory f => (negb (py_eq value (f st).1), (f st).2)
                  | DefaultFactoryWithSelf f =>
                      (negb (py_eq value (f obj st).1), (f obj st).2)
                  end) ∧
               (∀ obj st,
                  out_default field = DefaultValue (PyInt 0) →
                  (sieve obj (PyInt 0) st).1 = false ∧
                  (sieve obj (PyInt 1) st).1 = true)) ∧
          (has_default field = false
           ∨ (∃ e, omit_default schema field = Raise (ECannotProvide e)) →
             dict_get sieves path = None)) ∧
       (∀ path placeholder,
          (path, OutNoneCrown placeholder) ∈ paths_to_leaves →
          dict_get sieves path = None)).
Proof.
  intros Hnd. unfold make_sieves. split.
  - intros schema -> Hdecided. simpl. by apply make_sieves_loop_returns.
  - intros sieves Hrun. destruct provided_schema as [schema|e]; simpl in Hrun; [|done].
    exists schema. split; [done|].
    pose proof (make_sieves_loop_get fields schema paths_to_leaves Hnd [] sieves Hrun)
      as Hget.
    split; [apply (make_sieves_loop_returns fields schema paths_to_leaves []);
            by exists sieves|].
    split.
    + intros path id field Hin%(dict_elem_get _ _ _ Hnd) Hf.
      specialize (Hget path). rewrite Hin in Hget. simpl in Hget.
      rewrite Hf in Hget. split.
      * intros Hdef Homit. unfold apply_rc in Hget. rewrite Hdef, Homit in Hget.
        destruct (create_sieve_ok field Hdef) as (s & Hs & Hans).
        rewrite Hs in Hget. exists s. split_and!; [done|done|exact Hans|].
        intros obj st Hzero. rewrite !Hans, Hzero. done.
      * intros [Hdef|[e He]].
        -- by rewrite Hdef in Hget.
        -- unfold apply_rc in Hget. rewrite He in Hget.
           by destruct (has_default field).
    + intros path placeholder Hin%(dict_elem_get _ _ _ Hnd).
      specialize (Hget path). by rewrite Hin in Hget.
Qed.

Lemma C3_sieve_omits_default_values_witness :
  let field : OutputField nat :=
    {| out_id := "a"; out_default := DefaultValue (PyInt 0);
       out_is_required := true |} in
  let schema : SievesSchema nat := {| omit_default := λ _, Ok () |} in
  ∃ sieves sieve,
    make_sieves [field] (Ok schema) [([KStr "a"], OutFieldCrown "a")] = Ok sieves ∧
    dict_get sieves [KStr "a"] = Some sieve ∧
    (sieve PyNone (PyInt 0) 0%nat).1 = false ∧
    (sieve PyNone (PyInt 1) 0%nat).1 = true.
Proof.
  intros field schema.
  destruct (C3_sieve_omits_default_values [field] (Ok schema)
              [([KStr "a"], OutFieldCrown "a")]) as (Hreturns & Hright).
  { apply NoDup_singleton. }
  destruct (Hreturns schema eq_refl) as [sieves Hrun].
  { intros path id Hin. apply list_elem_of_singleton in Hin. simplify_eq.
    exists field. split; [reflexivity|]. intros _. by left. }
  destruct (Hright sieves Hrun) as (schema' & [= <-] & _ & Hfield & _).
  destruct (Hfield [KStr "a"] "a" field) as [Hsieve _];
    [apply list_elem_of_here|reflexivity|].
  destruct Hsieve as (sieve & Hget & _ & _ & Hzero); [reflexivity..|].
  exists sieves, sieve. split_and!; [done|done|..];
    by apply (Hzero PyNone 0%nat).
Defined.

(** ** Validation of input figures *)

Lemma count_distinct_le (xs : list string) : (count_distinct xs ≤ length xs)%nat.
Proof.
  unfold count_distinct. induction xs as [|x xs IH].
  - by vm_compute.
  - rewrite list_to_set_cons, size_union_alt, size_singleton. cbn [length].
    assert (list_to_set xs ∖ {[x]} ⊆ (list_to_set xs : gset string)) as Hsub
      by set_solver.
    apply subseteq_size in Hsub. lia.
Qed.

Lemma count_distinct_NoDup (xs : list string) :
  count_distinct xs = length xs ↔ NoDup xs.
Proof.
  split; [|apply size_list_to_set].
  induction xs as [|x xs IH]; [intros _; apply NoDup_nil_2|].
  intros Hsize. pose proof (count_distinct_le xs) as Hle.
  unfold count_distinct in *. rewrite list_to_set_cons in Hsize. cbn [length] in Hsize.
  destruct (decide (x ∈ xs)) as [Hin|Hnin].
  - assert ({[x]} ∪ list_to_set xs = (list_to_set xs : gset string)) as Heq
      by set_solver.
    rewrite Heq in Hsize. lia.
  - rewrite size_union, size_singleton in Hsize by set_solver.
    apply NoDup_cons. split; [done|]. apply IH. lia.
Qed.

Lemma check_pair_result past current :
  check_pair past current = Ok () ∨
  ∃ m, check_pair past current = Raise (EValueError m).
Proof. unfold check_pair. repeat case_match; eauto. Qed.

Lemma check_pair_ok past current :
  check_pair past current = Ok () ↔
  param_kind_value (param_kind past) ≤ param_kind_value (param_kind current) ∧
  (inp_is_required past = false → inp_is_required current = true →
   param_kind current = KW_ONLY).
Proof.
  unfold check_pair, is_optional. simpl. case_bool_decide as Hk.
  - split; [done|]. intros [? _]. lia.
  - destruct (inp_is_required past), (inp_is_required current); simpl;
      try (split; [intros _; split; [lia|done]|done]).
    case_bool_decide as Hkw; simpl.
    + split; [done|]. intros [_ Hc]. by destruct Hkw; apply Hc.
    + split; [|done]. intros _. split; [lia|]. intros _ _.
      by destruct (decide (param_kind current = KW_ONLY)).
Qed.

Lemma check_pairs_result ps :
  check_pairs ps = Ok () ∨ ∃ m, check_pairs ps = Raise (EValueError m).
Proof.
  induction ps as [|[past current] ps IH]; simpl; [by left|].
  destruct (check_pair_result past current) as [->|[m ->]]; simpl; [done|].
  right. by exists m.
Qed.

Lemma check_pairs_ok (fields : list InputField) :
  check_pairs (pairs fields) = Ok () ↔
  ∀ i past current, fields !! i = Some past → fields !! S i = Some current →
    check_pair past current = Ok ().
Proof.
  unfold pairs. induction fields as [|a fields IH]; simpl.
  - split; [|done]. by intros _ i past current ?.
  - destruct fields as [|b fields]; simpl.
    + split; [|done]. intros _ i past current _ Hc. by destruct i.
    + destruct (check_pair_result a b) as [Hab|[m Hab]]; rewrite Hab; simpl.
      * rewrite IH. split.
        -- intros Hall [|i] past current Hp Hc; simpl in *; [by simplify_eq|].
           by apply (Hall i).
        -- intros Hall i past current Hp Hc. by apply (Hall (S i)).
      * split; [done|]. intros Hall.
        rewrite (Hall 0%nat a b eq_refl eq_refl) in Hab. done.
Qed.

Lemma adjacent_kinds_monotonic (fields : list InputField) :
  check_pairs (pairs fields) = Ok () → kinds_monotonic fields.
Proof.
  intros Hadj0 i j a b Hlt. pose proof (proj1 (check_pairs_ok _) Hadj0) as Hadj.
  revert b.
  induction j as [|j IH]; intros b Ha Hb; [lia|].
  destruct (lookup_lt_is_Some_2 fields j) as [c Hc];
    [apply lookup_lt_Some in Hb; lia|].
  pose proof (Hadj j c b Hc Hb) as [Hcb _]%check_pair_ok.
  destruct (decide (i = j)) as [->|Hne]; [by simplify_eq|].
  assert (param_kind_value (param_kind a) ≤ param_kind_value (param_kind c))
    by (apply IH; [lia|done..]).
  lia.
Qed.

Lemma adjacent_required_first (fields : list InputField) :
  check_pairs (pairs fields) = Ok () → required_first fields.
Proof.
  intros Hadj0. pose proof (adjacent_kinds_monotonic _ Hadj0) as Hmono.
  pose proof (proj1 (check_pairs_ok _) Hadj0) as Hadj.
  intros i j a b Hlt Ha Hb Hopt Hreq.
  remember (j - i)%nat as d eqn:Hd. revert i a Hlt Ha Hopt Hd.
  induction d as [d IH] using lt_wf_ind. intros i a Hlt Ha Hopt Hd.
  destruct (lookup_lt_is_Some_2 fields (S i)) as [c Hc];
    [apply lookup_lt_Some in Hb; lia|].
  pose proof (Hadj i a c Ha Hc) as [_ Hac]%check_pair_ok.
  destruct (decide (S i = j)) as [<-|Hne]; [simplify_eq; by apply Hac|].
  destruct (inp_is_required c) eqn:Hcreq.
  - specialize (Hac Hopt eq_refl).
    assert (param_kind_value (param_kind c) ≤ param_kind_value (param_kind b)) as Hle
      by (apply (Hmono (S i) j); [lia|done..]).
    rewrite Hac in Hle. by destruct (param_kind b).
  - apply (IH (j - S i)%nat ltac:(lia) (S i) c); [lia|done..].
Qed.

Lemma required_first_adjacent (fields : list InputField) :
  kinds_monotonic fields → required_first fields →
  check_pairs (pairs fields) = Ok ().
Proof.
  intros Hmono Hreq. apply check_pairs_ok. intros i past current Hp Hc.
  apply check_pair_ok. split.
  - apply (Hmono i (S i)); [lia|done..].
  - apply (Hreq i (S i)); [lia|done..].
Qed.

Lemma BaseFigure_validate_result fields extra :
  BaseFigure_validate fields extra = Ok () ∨
  ∃ m, BaseFigure_validate fields extra = Raise (EValueError m).
Proof.
  unfold BaseFigure_validate. case_bool_decide; [eauto|].
  destruct extra; eauto. case_bool_decide; eauto.
Qed.

Lemma BaseFigure_validate_ok fields extra :
  BaseFigure_validate fields extra = Ok () ↔
  NoDup (name <$> fields) ∧ targets_exist fields extra.
Proof.
  unfold BaseFigure_validate. rewrite <-count_distinct_NoDup, length_fmap.
  case_bool_decide as Hn; [split; [done|by intros [? _]]|].
  assert (count_distinct (name <$> fields) = length fields) as Hn'
    by (destruct (decide (count_distinct (name <$> fields) = length fields)); done).
  destruct extra as [| |targets| |]; simpl; try (split; [done|split; done]).
  case_bool_decide as Hw.
  - split; [done|]. intros [_ Ht]. destruct Hw.
    destruct (filter _ targets) as [|t l] eqn:Hf; [done|].
    assert (t ∈ filter (λ target, target ∉ name <$> fields) targets) as Hin
      by (rewrite Hf; apply list_elem_of_here).
    apply list_elem_of_filter in Hin as [Hnin Hin]. by apply Ht in Hin.
  - split; [|done]. intros _. split; [done|]. intros t Ht.
    destruct (decide (t ∈ name <$> fields)) as [|Hnin]; [done|].
    assert (t ∈ @nil string) as Hin
      by (rewrite <-Hw; apply list_elem_of_filter; done).
    by apply elem_of_nil in Hin.
Qed.

Lemma InputFigure_validate_result fields extra :
  InputFigure_validate fields extra = Ok () ∨
  ∃ m, InputFigure_validate fields extra = Raise (EValueError m).
Proof.
  unfold InputFigure_validate.
  destruct (BaseFigure_validate_result fields extra) as [->|[m ->]]; simpl; [|eauto].
  case_bool_decide; [eauto|]. apply check_pairs_result.
Qed.

Lemma InputFigure_validate_ok fields extra :
  InputFigure_validate fields extra = Ok () ↔
  NoDup (name <$> fields) ∧ targets_exist fields extra ∧
  NoDup (param_name <$> fields) ∧
  kinds_monotonic fields ∧ required_first fields.
Proof.
  unfold InputFigure_validate.
  destruct (BaseFigure_validate_result fields extra) as [Hb|[m Hb]]; rewrite Hb; simpl.
  - apply BaseFigure_validate_ok in Hb as [Hn Ht].
    rewrite <-(count_distinct_NoDup (param_name <$> fields)), length_fmap.
    case_bool_decide as Hp.
    + split; [done|]. intros (_ & _ & ? & _). done.
    + assert (count_distinct (param_name <$> fields) = length fields) as Hp'
        by (destruct (decide (count_distinct (param_name <$> fields)
                              = length fields)); done).
      split.
      * intros Hadj. split_and!; [done..| |].
        -- by apply adjacent_kinds_monotonic.
        -- by apply adjacent_required_first.
      * intros (_ & _ & _ & ? & ?). by apply required_first_adjacent.
  - split; [done|]. intros (Hn & Ht & _).
    assert (BaseFigure_validate fields extra = Ok ()) as Hok
      by (apply BaseFigure_validate_ok; done).
    rewrite Hok in Hb. done.
Qed.

Lemma InputFieldsFigure_post_init_ok fields extra :
  InputFieldsFigure_post_init fields extra = Ok () ↔
  NoDup (name <$> fields) ∧ targets_exist fields extra ∧
  kinds_monotonic fields ∧ required_first fields.
Proof.
  unfold InputFieldsFigure_post_init.
  destruct (check_pairs_result (pairs fields)) as [Hc|[m Hc]]; rewrite Hc; simpl.
  - rewrite BaseFigure_validate_ok. split.
    + intros [? ?]. split_and!; [done..| |].
      * by apply adjacent_kinds_monotonic.
      * by apply adjacent_required_first.
    + intros (? & ? & _). done.
  - split; [done|]. intros (_ & _ & ? & ?).
    rewrite required_first_adjacent in Hc by done. done.
Qed.

Lemma InputFieldsFigure_post_init_result fields extra :
  InputFieldsFigure_post_init fields extra = Ok () ∨
  ∃ m, InputFieldsFigure_post_init fields extra = Raise (EValueError m).
Proof.
  unfold InputFieldsFigure_post_init.
  destruct (check_pairs_result (pairs fields)) as [->|[m ->]]; simpl; [|eauto].
  apply BaseFigure_validate_result.
Qed.

(** C4 (as amended): building an input figure succeeds only if no optional
    parameter is followed by a required one that is not keyword-only, that
    is, required parameters come first, except keyword-only ones.  Every
    field sequence with an optional parameter before a required
    non-keyword-only one makes [InputFigure._validate] (and
    [InputFieldsFigure.__post_init__]) raise [ValueError]; a sequence that
    respects this ordering, with monotonic parameter kinds, unique field and
    parameter names and existing extra targets, is accepted.  Validation
    always ends, with success or with a [ValueError]. *)
Theorem C4_required_before_optional
    (fields : list InputField) (extra : BaseFigureExtra) :
  ((∃ i j a b, (i < j)%nat ∧ fields !! i = Some a ∧ fields !! j = Some b ∧
      inp_is_required a = false ∧ inp_is_required b = true ∧
      param_kind b ≠ KW_ONLY) →
     (∃ m, InputFigure_validate fields extra = Raise (EValueError m)) ∧
     (∃ m, InputFieldsFigure_post_init fields extra = Raise (EValueError m))) ∧
  (required_first fields → kinds_monotonic fields →
     NoDup (name <$> fields) → NoDup (param_name <$> fields) →
     targets_exist fields extra →
     InputFigure_validate fields extra = Ok () ∧
     InputFieldsFigure_post_init fields extra = Ok ()) ∧
  (InputFigure_validate fields extra = Ok () ↔
     NoDup (name <$> fields) ∧ targets_exist fields extra ∧
     NoDup (param_name <$> fields) ∧
     kinds_monotonic fields ∧ required_first fields) ∧
  (InputFigure_validate fields extra = Ok () ∨
   ∃ m, InputFigure_validate fields extra = Raise (EValueError m)).
Proof.
  split_and!.
  - intros (i & j & a & b & Hlt & Ha & Hb & Hopt & Hreq & Hkw). split.
    + destruct (InputFigure_validate_result fields extra) as [Hok|?]; [|done].
      apply InputFigure_validate_ok in Hok as (_ & _ & _ & _ & Hfirst).
      destruct Hkw. by apply (Hfirst i j a b).
    + destruct (InputFieldsFigure_post_init_result fields extra) as [Hok|?]; [|done].
      apply InputFieldsFigure_post_init_ok in Hok as (_ & _ & _ & Hfirst).
      destruct Hkw. by apply (Hfirst i j a b).
  - intros Hfirst Hmono Hn Hp Ht. split.
    + by apply InputFigure_validate_ok.
    + by apply InputFieldsFigure_post_init_ok.
  - apply InputFigure_validate_ok.
  - apply InputFigure_validate_result.
Qed.

Lemma C4_required_before_optional_witness :
  let a := {| name := "a"; inp_is_required := false; param_kind := POS_OR_KW;
              param_name := "a" |} in
  let b := {| name := "b"; inp_is_required := true; param_kind := POS_OR_KW;
              param_name := "b" |} in
  (∃ m, InputFigure_validate [a; b] NoExtra = Raise (EValueError m)) ∧
  InputFigure_validate [b; a] NoExtra = Ok ().
Proof.
  intros a b. split.
  - destruct (C4_required_before_optional [a; b] NoExtra) as (Hbad & _).
    apply Hbad. exists 0%nat, 1%nat, a, b.
    split_and!; [lia|reflexivity|reflexivity|reflexivity|reflexivity|done].
  - destruct (C4_required_before_optional [b; a] NoExtra) as (_ & Hgood & _).
    apply Hgood.
    + intros [|[|i]] [|[|j]] x y Hlt Hx Hy; simpl in *; simplify_eq; try lia; done.
    + intros [|[|i]] [|[|j]] x y Hlt Hx Hy; simpl in *; simplify_eq; try lia; done.
    + apply NoDup_cons. split; [by intros ?%list_elem_of_singleton|apply NoDup_singleton].
    + apply NoDup_cons. split; [by intros ?%list_elem_of_singleton|apply NoDup_singleton].
    + done.
Defined.

(** C4 as stated fails both ways: [(a, b=...)], a required parameter followed
    by an optional one, breaks "optional precede required" and is accepted;
    [(a=..., b)] respects it and is refused. *)
Lemma C4_counterexample :
  let req n := {| name := n; inp_is_required := true; param_kind := POS_OR_KW;
                  param_name := n |} in
  let opt n := {| name := n; inp_is_required := false; param_kind := POS_OR_KW;
                  param_name := n |} in
  (¬ optional_first [req "a"; opt "b"] ∧
   InputFigure_validate [req "a"; opt "b"] NoExtra = Ok () ∧
   InputFieldsFigure_post_init [req "a"; opt "b"] NoExtra = Ok ()) ∧
  (optional_first [opt "a"; req "b"] ∧ kinds_monotonic [opt "a"; req "b"] ∧
   NoDup (name <$> [opt "a"; req "b"]) ∧
   InputFigure_validate [opt "a"; req "b"] NoExtra
     = Raise (EValueError NotRequiredAfterRequired) ∧
   InputFieldsFigure_post_init [opt "a"; req "b"] NoExtra
     = Raise (EValueError NotRequiredAfterRequired)) ∧
  ¬ optional_first_enforced.
Proof.
  intros req opt.
  assert (¬ optional_first [req "a"; opt "b"]) as Hviol.
  { intros Hfirst.
    pose proof (Hfirst 0%nat 1%nat (req "a") (opt "b") eq_refl eq_refl eq_refl
                  ltac:(done) eq_refl). lia. }
  split_and!; [done|reflexivity|reflexivity| | |by repeat constructor; set_solver
               |reflexivity|reflexivity|].
  - intros [|[|i]] [|[|j]] x y Hx Hy; simpl in *; simplify_eq; try done; lia.
  - intros [|[|i]] [|[|j]] x y Hlt Hx Hy; simpl in *; simplify_eq; try lia; done.
  - intros Hclaim. destruct (Hclaim [req "a"; opt "b"] NoExtra) as [Hbad _].
    destruct (Hbad Hviol) as [m Hm]. discriminate Hm.
Qed.

(** ** Request checkers *)

Lemma check_zip_ok {C R} (check : C → R → result unit) (cs : list C) (rs : list R) :
  check_zip check cs rs = Ok () ↔
  ∀ i c req, cs !! i = Some c → rs !! i = Some req → check c req = Ok ().
Proof.
  revert rs. induction cs as [|c cs IH]; intros rs; simpl.
  - split; [|done]. by intros _ i c req ?.
  - destruct rs as [|req rs]; simpl.
    + split; [|done]. by intros _ i c' req' _ ?.
    + destruct (check c req) as [[]|e] eqn:Hc; simpl.
      * rewrite IH. split.
        -- intros Hall [|i] c' req' Hc' Hr'; simpl in *; [by simplify_eq|].
           by apply (Hall i).
        -- intros Hall i c' req' Hc' Hr'. by apply (Hall (S i)).
      * split; [done|]. intros Hall.
        rewrite (Hall 0%nat c req eq_refl eq_refl) in Hc. done.
Qed.

Section checker_laws.
Context `{TypeTools} {T : Type}.
Implicit Types (a b c : RequestChecker T) (mediator : Mediator T) (r : Request).

Lemma check_request_xor a b mediator r :
  check_request (XorRequestChecker a b) mediator r =
  let! exceptions := catch_cannot_provide (check_request a mediator r) [] in
  let! exceptions := catch_cannot_provide (check_request b mediator r) exceptions in
  if bool_decide (length exceptions = 0%nat) then Raise (ECannotProvide silent)
  else if bool_decide (length exceptions = 2%nat) then
    Raise (ECannotProvide {| msg := None; sub_errors := exceptions;
                             is_terminal := false; is_demonstrative := false |})
  else Ok ().
Proof. reflexivity. Qed.

Lemma check_request_stack_end (cs : list (RequestChecker T)) mediator r :
  check_request (StackEndRC cs) mediator r =
  let stack := request_stack mediator in
  let offset := Z.of_nat (length stack) - Z.of_nat (length cs) in
  if bool_decide (offset < 0) then Raise (cannot_provide MsgRequestStackTooSmall)
  else check_zip (λ c req, check_request c mediator req) cs
         (drop (Z.to_nat offset) stack).
Proof. reflexivity. Qed.

End checker_laws.

(** C6 (as amended): on every request and for arbitrary checkers, [a ^ b]
    succeeds exactly when one of [a], [b] succeeds and the other raises
    [CannotProvide]; when both succeed it raises a [CannotProvide] without
    sub-errors; when both raise [CannotProvide] it raises a [CannotProvide]
    whose sub-errors are these two, in order; an exception other than
    [CannotProvide] of [a], or of [b] once [a] has returned or raised
    [CannotProvide], is passed on, whatever the other checker does.  For
    checkers that keep the contract of [check_request] (return or raise
    [CannotProvide]), [a ^ b] succeeds iff exactly one of them succeeds. *)
Theorem C6_xor_succeeds_iff_exactly_one `{TypeTools} {T : Type}
    (a b : RequestChecker T) (mediator : Mediator T) (r : Request) :
  let ra := check_request a mediator r in
  let rb := check_request b mediator r in
  let rx := check_request (XorRequestChecker a b) mediator r in
  (rx = Ok () ↔
     (ra = Ok () ∧ ∃ e, rb = Raise (ECannotProvide e))
     ∨ ((∃ e, ra = Raise (ECannotProvide e)) ∧ rb = Ok ())) ∧
  (ra = Ok () → rb = Ok () →
     rx = Raise (ECannotProvide
                   {| msg := None; sub_errors := [];
                      is_terminal := false; is_demonstrative := false |})) ∧
  (∀ ea eb, ra = Raise (ECannotProvide ea) → rb = Raise (ECannotProvide eb) →
     rx = Raise (ECannotProvide
                   {| msg := None; sub_errors := [ea; eb];
                      is_terminal := false; is_demonstrative := false |})) ∧
  (∀ e, (∀ cp, e ≠ ECannotProvide cp) →
     (ra = Raise e → rx = Raise e) ∧
     (conforms ra → rb = Raise e → rx = Raise e)) ∧
  (conforms ra → conforms rb →
     (rx = Ok () ↔ (ra = Ok () ∧ rb ≠ Ok ()) ∨ (ra ≠ Ok () ∧ rb = Ok ()))).
Proof.
  intros ra rb rx. unfold rx. rewrite check_request_xor. fold ra rb.
  split_and!.
  - destruct ra as [[]|[ea| | | | |]], rb as [[]|[eb| | | | |]]; simpl;
      naive_solver.
  - intros -> ->. done.
  - intros ea eb -> ->. done.
  - intros e He. split.
    + intros ->. destruct e as [cp| | | | |]; [by destruct (He cp)|done..].
    + intros [->|[ea ->]] ->; destruct e as [cp| | | | |];
        first [by destruct (He cp)|done].
  - intros [->|[ea ->]] [->|[eb ->]]; simpl.
    + split; [done|]. intros [[_ ?]|[? _]]; done.
    + split; [|done]. intros _. left. done.
    + split; [|done]. intros _. right. done.
    + split; [done|]. intros [[? _]|[_ ?]]; done.
Qed.

Lemma C6_xor_succeeds_iff_exactly_one_witness :
  let mediator : Mediator unit := {| request_stack := []; provide_from_next := Ok () |} in
  let request := LocatedRequest (FieldLocation "a") in
  check_request (XorRequestChecker (ExactFieldNameRC "a") (ExactFieldNameRC "b"))
    mediator request = Ok () ∧
  check_request (XorRequestChecker (ExactFieldNameRC "a") AnyRequestChecker)
    mediator request = Raise (ECannotProvide silent).
Proof.
  intros mediator request. split.
  - destruct (C6_xor_succeeds_iff_exactly_one (ExactFieldNameRC "a")
                (ExactFieldNameRC "b") mediator request) as (Hone & _).
    apply Hone. left. split; [reflexivity|]. eexists. reflexivity.
  - destruct (C6_xor_succeeds_iff_exactly_one (ExactFieldNameRC "a")
                AnyRequestChecker mediator request) as (_ & Hboth & _).
    apply Hboth; reflexivity.
Defined.

(** C6 as worded fails for a checker that raises another exception: the
    checker that [create_req_checker] builds from a generic without arguments
    raises [NotSubscribedError] on the request located at that generic, the
    checker that accepts everything succeeds, so exactly one succeeds, and
    [a ^ b] raises [NotSubscribedError]. *)
Lemma C6_counterexample :
  let mediator : Mediator unit := {| request_stack := []; provide_from_next := Ok () |} in
  let request := LocatedRequest (@TypeHintLocation toy_tools TGenericList) in
  let a := ExactOriginRC (TGenericList : @TypeHint toy_tools) in
  create_req_checker (PredTypeHint TGenericList) = Ok a ∧
  check_request a mediator request = Raise ENotSubscribedError ∧
  check_request AnyRequestChecker mediator request = Ok () ∧
  check_request (XorRequestChecker a AnyRequestChecker) mediator request
    = Raise ENotSubscribedError ∧
  ¬ xor_succeeds_iff_exactly_one_does (H:=toy_tools) (T:=unit).
Proof.
  intros mediator request a. split_and!; [reflexivity..|].
  intros Hclaim.
  destruct (Hclaim a AnyRequestChecker mediator request) as [_ Hback].
  discriminate Hback. right. split; [discriminate|reflexivity].
Qed.

(** C7: [StackEndRC(cs)] succeeds iff the request stack is at least as long
    as [cs] and every checker of [cs] succeeds on the request at the same
    position among the last [len(cs)] requests of the stack; it raises
    [CannotProvide] ("Request stack is too small") when the stack is shorter,
    and succeeds for the empty list of checkers. *)
Theorem C7_stack_end_checks_the_tail `{TypeTools} {T : Type}
    (cs : list (RequestChecker T)) (mediator : Mediator T) (r : Request) :
  let stack := request_stack mediator in
  (check_request (StackEndRC cs) mediator r = Ok () ↔
     (length cs ≤ length stack)%nat ∧
     ∀ i c req, cs !! i = Some c →
       stack !! (length stack - length cs + i)%nat = Some req →
       check_request c mediator req = Ok ()) ∧
  ((length stack < length cs)%nat →
     check_request (StackEndRC cs) mediator r
     = Raise (ECannotProvide
                {| msg := Some MsgRequestStackTooSmall; sub_errors := [];
                   is_terminal := false; is_demonstrative := false |})) ∧
  (cs = [] → check_request (StackEndRC cs) mediator r = Ok ()).
Proof.
  intros stack. rewrite check_request_stack_end. fold stack. cbv zeta.
  split_and!.
  - case_bool_decide as Hoff.
    + split; [done|]. intros [? _]. lia.
    + rewrite check_zip_ok.
      replace (Z.to_nat (Z.of_nat (length stack) - Z.of_nat (length cs)))
        with (length stack - length cs)%nat by lia.
      split.
      * intros Hall. split; [lia|]. intros i c req Hc Hr.
        apply (Hall i); [done|]. by rewrite lookup_drop.
      * intros [_ Hall] i c req Hc Hr. rewrite lookup_drop in Hr.
        by apply (Hall i).
  - intros Hlt. rewrite bool_decide_eq_true_2 by lia. done.
  - intros ->. rewrite bool_decide_eq_false_2 by (simpl; lia). done.
Qed.

Lemma C7_stack_end_checks_the_tail_witness :
  let stack := [LocatedRequest (FieldLocation "root");
                LocatedRequest (FieldLocation "a");
                LocatedRequest (FieldLocation "b")] in
  let mediator : Mediator unit := {| request_stack := stack; provide_from_next := Ok () |} in
  check_request (StackEndRC [ExactFieldNameRC "a"; ExactFieldNameRC "b"])
    mediator PlainRequest = Ok () ∧
  check_request (StackEndRC (replicate 4 AnyRequestChecker)) mediator PlainRequest
  = Raise (cannot_provide MsgRequestStackTooSmall).
Proof.
  intros stack mediator. split.
  - destruct (C7_stack_end_checks_the_tail
                [ExactFieldNameRC "a"; ExactFieldNameRC "b"] mediator PlainRequest)
      as (Hiff & _). apply Hiff.
    split; [simpl; lia|].
    intros [|[|i]] c req Hc Hr; simpl in *; simplify_eq; reflexivity.
  - destruct (C7_stack_end_checks_the_tail
                (replicate 4 AnyRequestChecker) mediator PlainRequest)
      as (_ & Hshort & _). apply Hshort.
    simpl. lia.
Defined.

(** C8: when the wrapped provider resolves to the routine [f] and
    [provide_from_next] to [g], [ChainingProvider(FIRST, provider)] returns the
    routine that runs [f] and then [g] on its result, [g(f(x))], and
    [ChainingProvider(LAST, provider)] the routine that runs [g] and then [f],
    [f(g(x))]; an exception of the first stage is the outcome of the chain. *)
Theorem C8_chaining_composes `{TypeTools} {Data : Type}
    (provider : Provider) (mediator : Mediator (Processor (Data:=Data)))
    (request : Request) (f g : Processor) :
  apply_provider provider mediator request = Ok f →
  provide_from_next mediator = Ok g →
  (∃ h, apply_provider (ChainingProvider FIRST provider) mediator request = Ok h ∧
        (∀ x, h x = (let! y := f x in g y)) ∧
        (∀ x y, f x = Ok y → h x = g y)) ∧
  (∃ h, apply_provider (ChainingProvider LAST provider) mediator request = Ok h ∧
        (∀ x, h x = (let! y := g x in f y)) ∧
        (∀ x y, g x = Ok y → h x = f y)).
Proof.
  intros Hf Hg. split.
  - exists (_make_chain f g). split_and!.
    + simpl. by rewrite Hf, Hg.
    + done.
    + intros x y Hy. unfold _make_chain. by rewrite Hy.
  - exists (_make_chain g f). split_and!.
    + simpl. by rewrite Hf, Hg.
    + done.
    + intros x y Hy. unfold _make_chain. by rewrite Hy.
Qed.

Lemma C8_chaining_composes_witness :
  let f : Processor := λ x : Z, Ok (x + 1) in
  let g : Processor := λ x : Z, Ok (2 * x) in
  let mediator := {| request_stack := []; provide_from_next := Ok g |} in
  (∃ h, apply_provider (ChainingProvider FIRST (ValueProvider (λ _, true) f))
          mediator PlainRequest = Ok h ∧ h 3 = Ok 8) ∧
  (∃ h, apply_provider (ChainingProvider LAST (ValueProvider (λ _, true) f))
          mediator PlainRequest = Ok h ∧ h 3 = Ok 7).
Proof.
  intros f g mediator.
  destruct (C8_chaining_composes (ValueProvider (λ _, true) f) mediator
              PlainRequest f g eq_refl eq_refl)
    as [(h1 & Hh1 & _ & Hc1) (h2 & Hh2 & _ & Hc2)].
  split.
  - exists h1. split; [exact Hh1|]. by rewrite (Hc1 3 4 eq_refl).
  - exists h2. split; [exact Hh2|]. by rewrite (Hc2 3 6 eq_refl).
Defined.

(** C5 (as amended): [create_req_checker] turns a string that is an
    identifier into the exact-field-name checker; any other string into the
    field-name checker of the compiled pattern, which full-matches the name
    (an exception of [re.compile] is passed on); a compiled pattern into its
    field-name checker; it returns a [RequestChecker] unchanged; anything else
    is a type hint, which gives the exact-type checker of its normal form,
    whatever its origin, the exact-origin checker of the hint itself when it
    is a generic without arguments, and [ValueError] when normalisation
    raises [ValueError] or yields a type variable.  Only [match_origin] gives
    a subclass checker for a protocol or abstract origin, and an exact-origin
    checker otherwise. *)
Theorem C5_create_req_checker_cases `{TypeTools} {T : Type} :
  (∀ s, isidentifier s = true →
     create_req_checker (T:=T) (PredStr s) = Ok (ExactFieldNameRC s)) ∧
  (∀ s pattern, isidentifier s = false → re_compile s = Ok pattern →
     create_req_checker (T:=T) (PredStr s) = Ok (ReFieldNameRC pattern) ∧
     ∀ (mediator : Mediator T) name,
       check_request (ReFieldNameRC pattern) mediator
         (LocatedRequest (FieldLocation name)) = Ok ()
       ↔ fullmatch pattern name = true) ∧
  (∀ s e, isidentifier s = false → re_compile s = Raise e →
     create_req_checker (T:=T) (PredStr s) = Raise e) ∧
  (∀ pattern,
     create_req_checker (T:=T) (PredPattern pattern) = Ok (ReFieldNameRC pattern)) ∧
  (∀ rc : RequestChecker T, create_req_checker (PredChecker rc) = Ok rc) ∧
  (∀ tp norm, normalize_type tp = Ok norm → is_norm_tv norm = false →
     create_req_checker (T:=T) (PredTypeHint tp) = Ok (ExactTypeRC norm)) ∧
  (∀ tp, normalize_type tp = Raise ENotSubscribedError →
     create_req_checker (T:=T) (PredTypeHint tp) = Ok (ExactOriginRC tp)) ∧
  (∀ tp norm, normalize_type tp = Ok norm → is_norm_tv norm = true →
     create_req_checker (T:=T) (PredTypeHint tp)
     = Raise (EValueError CanNotCreateRequestChecker)) ∧
  (∀ tp m, normalize_type tp = Raise (EValueError m) →
     create_req_checker (T:=T) (PredTypeHint tp)
     = Raise (EValueError CanNotCreateRequestChecker)) ∧
  (∀ tp norm, is_parametrized tp = false → normalize_type tp = Ok norm →
     match_origin (T:=T) tp =
     Ok (if is_protocol (norm_origin norm) || isabstract (norm_origin norm)
         then SubclassRC (norm_origin norm)
         else ExactOriginRC (norm_origin norm))).
Proof.
  split_and!.
  - intros s Hs. simpl. by rewrite Hs.
  - intros s pattern Hs Hp. split.
    + simpl. by rewrite Hs, Hp.
    + intros mediator name. simpl. destruct (fullmatch pattern name); done.
  - intros s e Hs He. simpl. by rewrite Hs, He.
  - done.
  - done.
  - intros tp norm Hn Htv. simpl. unfold create_type_hint_req_checker.
    by rewrite Hn, Htv.
  - intros tp Hn. simpl. unfold create_type_hint_req_checker. by rewrite Hn.
  - intros tp norm Hn Htv. simpl. unfold create_type_hint_req_checker.
    by rewrite Hn, Htv.
  - intros tp m Hn. simpl. unfold create_type_hint_req_checker. by rewrite Hn.
  - intros tp norm Hp Hn. unfold match_origin. rewrite Hp, Hn. simpl.
    by destruct (is_protocol (norm_origin norm) || isabstract (norm_origin norm)).
Qed.

Lemma C5_create_req_checker_cases_witness :
  create_req_checker (T:=unit) (PredStr "user_name") = Ok (ExactFieldNameRC "user_name") ∧
  create_req_checker (T:=unit) (PredStr "a.b") = Ok (ReFieldNameRC "a.b") ∧
  create_req_checker (T:=unit) (PredStr "(") = Raise EReError ∧
  create_req_checker (T:=unit) (PredTypeHint TInt) = Ok (ExactTypeRC (ToyNormType TInt)) ∧
  create_req_checker (T:=unit) (PredTypeHint TGenericList)
    = Ok (ExactOriginRC TGenericList) ∧
  create_req_checker (T:=unit) (PredTypeHint TTypeVar)
    = Raise (EValueError CanNotCreateRequestChecker) ∧
  create_req_checker (T:=unit) (PredTypeHint TBroken)
    = Raise (EValueError CanNotCreateRequestChecker) ∧
  match_origin (T:=unit) TSupportsInt = Ok (SubclassRC TSupportsInt).
Proof.
  destruct (C5_create_req_checker_cases (T:=unit))
    as (Hid & Hre & Herr & _ & _ & Hty & Hns & Htv & Hve & Hmo).
  split_and!.
  - apply Hid. reflexivity.
  - apply (Hre "a.b" "a.b"); reflexivity.
  - apply Herr; reflexivity.
  - apply (Hty TInt); reflexivity.
  - apply Hns. reflexivity.
  - apply (Htv TTypeVar ToyNormTV); reflexivity.
  - apply (Hve TBroken BareValueError). reflexivity.
  - apply (Hmo TSupportsInt (ToyNormType TSupportsInt)); reflexivity.
Defined.

(** C5 as stated fails on a protocol or abstract class: its hint normalises,
    and [create_req_checker] answers with the exact-type checker, not with a
    subclass checker. *)
Lemma C5_counterexample :
  is_protocol (norm_origin (ToyNormType TSupportsInt)) = true ∧
  create_req_checker (T:=unit) (PredTypeHint TSupportsInt)
    = Ok (ExactTypeRC (ToyNormType TSupportsInt)) ∧
  isabstract (norm_origin (ToyNormType TAbstractBase)) = true ∧
  create_req_checker (T:=unit) (PredTypeHint TAbstractBase)
    = Ok (ExactTypeRC (ToyNormType TAbstractBase)) ∧
  ¬ abstract_origin_gives_subclass.
Proof.
  split_and!; [reflexivity..|].
  intros Hclaim.
  specialize (Hclaim TSupportsInt (ToyNormType TSupportsInt) eq_refl eq_refl eq_refl).
  discriminate Hclaim.
Qed.

(** * Further properties of the checkers and providers *)

Section checker_algebra.
Context `{TypeTools} {T : Type}.
Implicit Types (a b c : RequestChecker T) (cs : list (RequestChecker T)).
Implicit Types (mediator : Mediator T) (r : Request).

Lemma check_request_or cs mediator r :
  check_request (OrRequestChecker cs) mediator r
  = or_loop (λ c, check_request c mediator r) cs [].
Proof. reflexivity. Qed.

Lemma check_request_and cs mediator r :
  check_request (AndRequestChecker cs) mediator r
  = and_loop (λ c, check_request c mediator r) cs.
Proof. reflexivity. Qed.

Lemma check_request_neg c mediator r :
  check_request (NegRequestChecker c) mediator r
  = match check_request c mediator r with
    | Ok _ => Raise (ECannotProvide silent)
    | Raise (ECannotProvide _) => Ok ()
    | Raise e => Raise e
    end.
Proof. reflexivity. Qed.
End checker_algebra.

Lemma or_loop_all_fail {C} (check : C → result unit) (cs : list C)
    (es acc : list CannotProvide) :
  Forall2 (λ c e, check c = Raise (ECannotProvide e)) cs es →
  or_loop check cs acc
  = Raise (ECannotProvide {| msg := None; sub_errors := acc ++ es;
                             is_terminal := false; is_demonstrative := false |}).
Proof.
  intros Hall. revert acc. induction Hall as [|c e cs es Hc _ IH]; intros acc; simpl.
  - by rewrite app_nil_r.
  - rewrite Hc, IH. by rewrite <-app_assoc.
Qed.

Lemma or_loop_skip {C} (check : C → result unit) (pre post : list C)
    (es acc : list CannotProvide) :
  Forall2 (λ c e, check c = Raise (ECannotProvide e)) pre es →
  or_loop check (pre ++ post) acc = or_loop check post (acc ++ es).
Proof.
  intros Hall. revert acc. induction Hall as [|c e cs es' Hc _ IH]; intros acc; simpl.
  - by rewrite app_nil_r.
  - rewrite Hc, IH. by rewrite <-app_assoc.
Qed.

Lemma or_loop_ok {C} (check : C → result unit) (cs : list C) (acc : list CannotProvide) :
  or_loop check cs acc = Ok () ↔
  ∃ pre c post es, cs = pre ++ c :: post ∧
    Forall2 (λ c e, check c = Raise (ECannotProvide e)) pre es ∧ check c = Ok ().
Proof.
  revert acc. induction cs as [|c cs IH]; intros acc; simpl.
  - split; [done|]. intros (pre & c & post & es & Heq & _). by destruct pre.
  - destruct (check c) as [[]|e] eqn:Hc.
    + split; [|done]. intros _. exists [], c, cs, []. by repeat split.
    + destruct e as [e| | | | |];
        try (split; [done|]; intros ([|c' pre] & c'' & post & es & Heq & Hall & Hok);
             simplify_eq/=; [congruence|];
             apply Forall2_cons_inv_l in Hall as (? & ? & ? & ? & ?); congruence).
      rewrite IH. split.
      * intros (pre & c' & post & es & -> & Hall & Hok).
        exists (c :: pre), c', post, (e :: es). repeat split; [|done]. by constructor.
      * intros ([|c' pre] & c'' & post & es & Heq & Hall & Hok); simplify_eq/=.
        { congruence. }
        apply Forall2_cons_inv_l in Hall as (e' & es' & _ & Hall & ->).
        by exists pre, c'', post, es'.
Qed.

Lemma and_loop_ok {C} (check : C → result unit) (cs : list C) :
  and_loop check cs = Ok () ↔ Forall (λ c, check c = Ok ()) cs.
Proof.
  induction cs as [|c cs IH]; simpl; [done|].
  destruct (check c) as [[]|e] eqn:Hc; simpl.
  - rewrite IH. split; [by constructor|]. by inversion 1.
  - split; [done|]. inversion 1; congruence.
Qed.

Lemma and_loop_first_failure {C} (check : C → result unit) (pre post : list C) c e :
  Forall (λ c, check c = Ok ()) pre → check c = Raise e →
  and_loop check (pre ++ c :: post) = Raise e.
Proof.
  intros Hall Hc. induction Hall as [|c' pre Hc' _ IH]; simpl.
  - by rewrite Hc.
  - by rewrite Hc'.
Qed.

(** X1: [OrRequestChecker] tries its checkers in order.  It succeeds exactly
    when some checker succeeds after all the earlier ones raised
    [CannotProvide] (the later ones are not consulted); when all of them raise
    [CannotProvide] it raises one [CannotProvide] whose sub-errors are theirs,
    in order (none for the empty list); another exception of a checker reached
    this way leaves the loop as it is. *)
Theorem X1_or_first_success_or_all_errors `{TypeTools} {T : Type}
    (cs : list (RequestChecker T)) (mediator : Mediator T) (r : Request) :
  let check := λ c, check_request c mediator r in
  (check (OrRequestChecker cs) = Ok () ↔
     ∃ pre c post es, cs = pre ++ c :: post ∧
       Forall2 (λ c e, check c = Raise (ECannotProvide e)) pre es ∧
       check c = Ok ()) ∧
  (∀ es, Forall2 (λ c e, check c = Raise (ECannotProvide e)) cs es →
     check (OrRequestChecker cs)
     = Raise (ECannotProvide {| msg := None; sub_errors := es;
                                is_terminal := false; is_demonstrative := false |})) ∧
  (∀ pre c post es e,
     cs = pre ++ c :: post →
     Forall2 (λ c e, check c = Raise (ECannotProvide e)) pre es →
     check c = Raise e → (∀ cp, e ≠ ECannotProvide cp) →
     check (OrRequestChecker cs) = Raise e).
Proof.
  intros check. unfold check. split_and!.
  - rewrite check_request_or. apply or_loop_ok.
  - intros es Hall. rewrite check_request_or.
    by rewrite (or_loop_all_fail _ _ es []).
  - intros pre c post es e -> Hall Hc He. rewrite check_request_or.
    rewrite (or_loop_skip _ _ _ es) by done. simpl. rewrite Hc.
    destruct e as [cp| | | | |]; [by destruct (He cp)|done..].
Qed.

Lemma X1_or_first_success_or_all_errors_witness :
  let mediator : Mediator unit := {| request_stack := []; provide_from_next := Ok () |} in
  let request := LocatedRequest (FieldLocation "b") in
  check_request (OrRequestChecker [ExactFieldNameRC "a"; ExactFieldNameRC "c"])
    mediator request
  = Raise (ECannotProvide
      {| msg := None;
         sub_errors := [ {| msg := Some (MsgFieldNameMustBe "a"); sub_errors := [];
                            is_terminal := false; is_demonstrative := false |};
                         {| msg := Some (MsgFieldNameMustBe "c"); sub_errors := [];
                            is_terminal := false; is_demonstrative := false |} ];
         is_terminal := false; is_demonstrative := false |}) ∧
  check_request (OrRequestChecker [ExactFieldNameRC "a"; ExactTypeRC (ToyNormType TInt : @NormType toy_tools)])
    mediator (LocatedRequest (@TypeHintLocation toy_tools TGenericList))
  = Raise ENotSubscribedError.
Proof.
  intros mediator request. split.
  - destruct (X1_or_first_success_or_all_errors
                [ExactFieldNameRC "a"; ExactFieldNameRC "c"] mediator request)
      as (_ & Hall & _).
    apply Hall. repeat constructor.
  - destruct (X1_or_first_success_or_all_errors
                [ExactFieldNameRC "a"; ExactTypeRC (ToyNormType TInt : @NormType toy_tools)] mediator
                (LocatedRequest (@TypeHintLocation toy_tools TGenericList)))
      as (_ & _ & Hexn).
    eapply (Hexn [ExactFieldNameRC "a"] _ [] [_]); [reflexivity| |reflexivity|done].
    repeat constructor.
Defined.

(** X2: [AndRequestChecker] succeeds exactly when every checker succeeds (so
    always for the empty list); otherwise it raises the exception of the first
    checker that fails, unchanged, and the checkers after it are not
    consulted. *)
Theorem X2_and_all_or_first_failure `{TypeTools} {T : Type}
    (cs : list (RequestChecker T)) (mediator : Mediator T) (r : Request) :
  let check := λ c, check_request c mediator r in
  (check (AndRequestChecker cs) = Ok () ↔ Forall (λ c, check c = Ok ()) cs) ∧
  (∀ pre c post e,
     cs = pre ++ c :: post → Forall (λ c, check c = Ok ()) pre →
     check c = Raise e →
     check (AndRequestChecker cs) = Raise e).
Proof.
  intros check. unfold check. split.
  - rewrite check_request_and. apply and_loop_ok.
  - intros pre c post e -> Hpre Hc. rewrite check_request_and.
    by apply and_loop_first_failure.
Qed.

Lemma X2_and_all_or_first_failure_witness :
  let mediator : Mediator unit := {| request_stack := []; provide_from_next := Ok () |} in
  let request := LocatedRequest (FieldLocation "b") in
  check_request
    (AndRequestChecker [AnyRequestChecker; ExactFieldNameRC "a"; ExactFieldNameRC "c"])
    mediator request
  = Raise (cannot_provide (MsgFieldNameMustBe "a")).
Proof.
  intros mediator request.
  destruct (X2_and_all_or_first_failure
              [AnyRequestChecker; ExactFieldNameRC "a"; ExactFieldNameRC "c"]
              mediator request) as (_ & Hfail).
  apply (Hfail [AnyRequestChecker] (ExactFieldNameRC "a") [ExactFieldNameRC "c"]);
    [reflexivity| |reflexivity].
  repeat constructor.
Defined.

(** X3: [-c] succeeds exactly when [c] raises [CannotProvide]; it fails
    exactly when [c] succeeds, and then with a [CannotProvide] that carries
    nothing.  Any other exception of [c] passes through.  A double negation
    succeeds exactly when [c] does, but replaces the [CannotProvide] of [c] by
    the empty one. *)
Theorem X3_neg_inverts `{TypeTools} {T : Type}
    (c : RequestChecker T) (mediator : Mediator T) (r : Request) :
  let check := λ c, check_request c mediator r in
  (check (__neg__ c) = Ok () ↔ ∃ e, check c = Raise (ECannotProvide e)) ∧
  (∀ e, check (__neg__ c) = Raise (ECannotProvide e) ↔ check c = Ok () ∧ e = silent) ∧
  (∀ e, (∀ cp, e ≠ ECannotProvide cp) →
     (check (__neg__ c) = Raise e ↔ check c = Raise e)) ∧
  (check (__neg__ (__neg__ c)) = Ok () ↔ check c = Ok ()) ∧
  (∀ e, check c = Raise (ECannotProvide e) →
     check (__neg__ (__neg__ c)) = Raise (ECannotProvide silent)).
Proof.
  intros check. unfold check, __neg__. rewrite !check_request_neg.
  destruct (check_request c mediator r) as [[]|[cp| | | | |]]; simpl;
    split_and!; try intros e; try intros He; try split;
    try solve [done | naive_solver | by destruct (He cp)].
Qed.

Lemma X3_neg_inverts_witness :
  let mediator : Mediator unit := {| request_stack := []; provide_from_next := Ok () |} in
  let request := LocatedRequest (FieldLocation "b") in
  check_request (__neg__ (__neg__ (ExactFieldNameRC "a"))) mediator request
  = Raise (ECannotProvide silent).
Proof.
  intros mediator request.
  destruct (X3_neg_inverts (ExactFieldNameRC "a") mediator request)
    as (_ & _ & _ & _ & Hdouble).
  by eapply Hdouble.
Defined.

(** X4: De Morgan's laws for the checker operators, on every request and for
    arbitrary checkers.  [-(a | b)] and [(-a) & (-b)] have the same outcome,
    error included.  [-(a & b)] and [(-a) | (-b)] succeed on the same
    requests and raise the same exceptions other than [CannotProvide]; where
    they refuse, both raise [CannotProvide]. *)
Theorem X4_de_morgan `{TypeTools} {T : Type}
    (a b : RequestChecker T) (mediator : Mediator T) (r : Request) :
  let check := λ c, check_request c mediator r in
  check (__neg__ (__or__ a b)) = check (__and__ (__neg__ a) (__neg__ b)) ∧
  (check (__neg__ (__and__ a b)) = Ok ()
     ↔ check (__or__ (__neg__ a) (__neg__ b)) = Ok ()) ∧
  ((∃ e, check (__neg__ (__and__ a b)) = Raise (ECannotProvide e))
     ↔ ∃ e, check (__or__ (__neg__ a) (__neg__ b)) = Raise (ECannotProvide e)) ∧
  (∀ e, (∀ cp, e ≠ ECannotProvide cp) →
     (check (__neg__ (__and__ a b)) = Raise e
        ↔ check (__or__ (__neg__ a) (__neg__ b)) = Raise e)).
Proof.
  intros check. unfold check, __neg__, __or__, __and__.
  rewrite !check_request_neg, !check_request_or, !check_request_and. simpl.
  rewrite ?check_request_neg.
  destruct (check_request a mediator r) as [[]|[cpa| | | | |]]; simpl;
    destruct (check_request b mediator r) as [[]|[cpb| | | | |]]; simpl;
    split_and!; try done; try naive_solver.
Qed.

(** X5: [a ^ b] agrees with its decomposition [(a & -b) | (-a & b)], for
    arbitrary checkers and on every request: both succeed on the same requests,
    both refuse with [CannotProvide] on the same requests, and both pass on the
    same exception otherwise.  Success of [a ^ b] does not depend on the order
    of the operands. *)
Theorem X5_xor_decomposition `{TypeTools} {T : Type}
    (a b : RequestChecker T) (mediator : Mediator T) (r : Request) :
  let check := λ c, check_request c mediator r in
  let decomposed := __or__ (__and__ a (__neg__ b)) (__and__ (__neg__ a) b) in
  (check (__xor__ a b) = Ok () ↔ check decomposed = Ok ()) ∧
  ((∃ e, check (__xor__ a b) = Raise (ECannotProvide e))
     ↔ ∃ e, check decomposed = Raise (ECannotProvide e)) ∧
  (∀ e, (∀ cp, e ≠ ECannotProvide cp) →
     (check (__xor__ a b) = Raise e ↔ check decomposed = Raise e)) ∧
  (check (__xor__ a b) = Ok () ↔ check (__xor__ b a) = Ok ()).
Proof.
  intros check decomposed. unfold decomposed, check, __neg__, __or__, __and__, __xor__.
  rewrite !check_request_xor, !check_request_or. simpl.
  rewrite ?check_request_neg.
  destruct (check_request a mediator r) as [[]|[cpa| | | | |]]; simpl;
    destruct (check_request b mediator r) as [[]|[cpb| | | | |]]; simpl;
    split_and!; try done; try naive_solver.
Qed.

Lemma at_field_location_conforms `{TypeTools} (r : Request) (k : string → result unit) :
  (∀ name, conforms (k name)) → conforms (at_field_location r k).
Proof.
  intros Hk. destruct r as [|[name|tp]]; simpl; [right; by eexists|apply Hk|right; by eexists].
Qed.

Lemma at_field_location_ok `{TypeTools} (r : Request) (k : string → result unit) :
  at_field_location r k = Ok () ↔
  ∃ name, r = LocatedRequest (FieldLocation name) ∧ k name = Ok ().
Proof.
  destruct r as [|[name|tp]]; simpl; [naive_solver| |naive_solver].
  split; [by exists name|]. by intros (? & [= <-] & ?).
Qed.

Lemma at_type_hint_location_ok `{TypeTools} (r : Request) (k : TypeHint → result unit) :
  at_type_hint_location r k = Ok () ↔
  ∃ tp, location_type r = Some tp ∧ k tp = Ok ().
Proof.
  destruct r as [|loc]; simpl; [naive_solver|].
  destruct (match loc with
            | FieldLocation name => field_location_type name
            | TypeHintLocation type => Some type
            end) as [tp|]; naive_solver.
Qed.

Lemma at_type_hint_location_typed `{TypeTools} (r : Request) (tp : TypeHint)
    (k : TypeHint → result unit) :
  location_type r = Some tp → at_type_hint_location r k = k tp.
Proof.
  destruct r as [|loc]; [done|]. unfold at_type_hint_location. by intros ->.
Qed.

Lemma at_type_hint_location_untyped `{TypeTools} (r : Request)
    (k : TypeHint → result unit) :
  r ≠ PlainRequest → location_type r = None →
  at_type_hint_location r k
  = Raise (cannot_provide (MsgRequestLocationMustBe "TypeHintLocation")).
Proof.
  destruct r as [|loc]; [done|]. unfold at_type_hint_location. by intros _ ->.
Qed.

(** X6: a checker that [create_req_checker] builds from a string looks at
    the field name only.  It keeps the contract of [check_request] on every
    request (it returns or raises [CannotProvide], whatever the mediator);
    it accepts only requests located at a field; built from an identifier it
    accepts exactly the requests located at the field of that name, built
    from another string exactly those whose field name the compiled pattern
    matches in full. *)
Theorem X6_string_predicate_checks_field_name `{TypeTools} {T : Type}
    (s : string) (rc : RequestChecker T) (mediator : Mediator T) (r : Request) :
  create_req_checker (PredStr s) = Ok rc →
  conforms (check_request rc mediator r) ∧
  (check_request rc mediator r = Ok () →
     ∃ name, r = LocatedRequest (FieldLocation name)) ∧
  (isidentifier s = true →
     (check_request rc mediator r = Ok () ↔ r = LocatedRequest (FieldLocation s))) ∧
  (∀ pattern, isidentifier s = false → re_compile s = Ok pattern →
     (check_request rc mediator r = Ok () ↔
        ∃ name, r = LocatedRequest (FieldLocation name)
                ∧ fullmatch pattern name = true)).
Proof.
  unfold create_req_checker. destruct (isidentifier s) eqn:Hid.
  - intros [= <-]. cbn [check_request]. split_and!.
    + apply at_field_location_conforms. intros name.
      case_bool_decide; [by left|right; by eexists].
    + rewrite at_field_location_ok. naive_solver.
    + intros _. rewrite at_field_location_ok. split.
      * intros (name & -> & Hok). case_bool_decide; by simplify_eq.
      * intros ->. exists s. by rewrite bool_decide_eq_true_2.
    + done.
  - destruct (re_compile s) as [pattern|e] eqn:Hre; simpl; [|done].
    intros [= <-]. cbn [check_request]. split_and!.
    + apply at_field_location_conforms. intros name.
      destruct (fullmatch pattern name); [by left|right; by eexists].
    + rewrite at_field_location_ok. naive_solver.
    + done.
    + intros pattern' _ [= <-]. rewrite at_field_location_ok.
      split; intros (name & -> & Hok); exists name; split; try done;
        by destruct (fullmatch pattern name).
Qed.

Lemma X6_string_predicate_checks_field_name_witness :
  let mediator : Mediator unit := {| request_stack := []; provide_from_next := Ok () |} in
  check_request (ExactFieldNameRC "user_name") mediator
    (LocatedRequest (FieldLocation "user_name")) = Ok () ∧
  conforms (check_request (ExactFieldNameRC "user_name") mediator
              (LocatedRequest (@TypeHintLocation toy_tools TInt))).
Proof.
  intros mediator.
  split.
  - destruct (X6_string_predicate_checks_field_name "user_name"
                (ExactFieldNameRC "user_name") mediator
                (LocatedRequest (FieldLocation "user_name")) eq_refl)
      as (_ & _ & Hid & _).
    by apply Hid.
  - by destruct (X6_string_predicate_checks_field_name "user_name"
                (ExactFieldNameRC "user_name") mediator
                (LocatedRequest (@TypeHintLocation toy_tools TInt)) eq_refl)
      as (Hconf & _).
Defined.

(** X7: a checker that [create_req_checker] builds from a type hint [tp]
    looks only at the type of a location that is an instance of
    [TypeHintLocation], whichever class the location has besides.  It accepts
    only requests with such a location; it refuses a request without location,
    and a request whose location is not an instance of [TypeHintLocation], with
    [CannotProvide].  When [tp] normalises to a type equal to itself, the
    checker accepts every request whose location has the type [tp], a field
    location of that type included.  When [tp] is a generic without arguments
    ([NotSubscribedError]), the checker is built, but checking a request
    located at [tp] itself raises [NotSubscribedError], not [CannotProvide]:
    the location's type is normalised without a handler. *)
Theorem X7_type_hint_predicate `{TypeTools} {T : Type}
    (tp : TypeHint) (rc : RequestChecker T) (mediator : Mediator T) :
  create_req_checker (PredTypeHint tp) = Ok rc →
  (∀ r, check_request rc mediator r = Ok () → ∃ tp', location_type r = Some tp') ∧
  check_request rc mediator PlainRequest
    = Raise (cannot_provide MsgRequestMustBeLocated) ∧
  (∀ r, r ≠ PlainRequest → location_type r = None →
     check_request rc mediator r
     = Raise (cannot_provide (MsgRequestLocationMustBe "TypeHintLocation"))) ∧
  (∀ r norm, location_type r = Some tp →
     normalize_type tp = Ok norm → norm_eqb norm norm = true →
     check_request rc mediator r = Ok ()) ∧
  (∀ r, location_type r = Some tp →
     normalize_type tp = Raise ENotSubscribedError →
     check_request rc mediator r = Raise ENotSubscribedError).
Proof.
  unfold create_req_checker, create_type_hint_req_checker.
  destruct (normalize_type tp) as [norm|e] eqn:Hnorm.
  - destruct (is_norm_tv norm); [done|]. intros [= <-]. cbn [check_request].
    split_and!; try done.
    + intros r. rewrite at_type_hint_location_ok. naive_solver.
    + intros r Hne Hloc. by apply at_type_hint_location_untyped.
    + intros r norm' Hloc [= <-] Heq. rewrite (at_type_hint_location_typed r tp) by done.
      by rewrite Hnorm; simpl; rewrite Heq.
  - destruct e; try done. intros [= <-]. cbn [check_request].
    split_and!; try done.
    + intros r. rewrite at_type_hint_location_ok. naive_solver.
    + intros r Hne Hloc. by apply at_type_hint_location_untyped.
    + intros r Hloc _. rewrite (at_type_hint_location_typed r tp) by done.
      by rewrite Hnorm.
Qed.

Lemma X7_type_hint_predicate_witness :
  let mediator : Mediator unit := {| request_stack := []; provide_from_next := Ok () |} in
  check_request (ExactTypeRC (ToyNormType TInt : @NormType toy_tools)) mediator
    (LocatedRequest (@FieldLocation toy_tools "age")) = Ok () ∧
  check_request (ExactTypeRC (ToyNormType TInt : @NormType toy_tools)) mediator
    (LocatedRequest (@FieldLocation toy_tools "name"))
  = Raise (cannot_provide (MsgRequestLocationMustBe "TypeHintLocation")) ∧
  check_request (ExactOriginRC (TGenericList : @TypeHint toy_tools)) mediator
    (LocatedRequest (@TypeHintLocation toy_tools TGenericList))
  = Raise ENotSubscribedError.
Proof.
  intros mediator.
  destruct (X7_type_hint_predicate (TInt : @TypeHint toy_tools)
              (ExactTypeRC (ToyNormType TInt : @NormType toy_tools)) mediator eq_refl)
    as (_ & _ & Hno & Hok & _).
  destruct (X7_type_hint_predicate (TGenericList : @TypeHint toy_tools)
              (ExactOriginRC (TGenericList : @TypeHint toy_tools)) mediator eq_refl)
    as (_ & _ & _ & _ & Hns).
  split_and!.
  - by apply (Hok _ (ToyNormType TInt)).
  - by apply Hno.
  - by apply Hns.
Defined.

Lemma check_zip_first_failure {C R} (check : C → R → result unit)
    (cs : list C) (rs : list R) (i : nat) c req e :
  cs !! i = Some c → rs !! i = Some req → check c req = Raise e →
  (∀ j c' req', (j < i)%nat → cs !! j = Some c' → rs !! j = Some req' →
     check c' req' = Ok ()) →
  check_zip check cs rs = Raise e.
Proof.
  revert cs rs. induction i as [|i IH]; intros [|c0 cs] [|r0 rs] Hc Hr He Hbefore;
    simplify_eq/=.
  - by rewrite He.
  - rewrite (Hbefore 0%nat c0 r0) by (done || lia). simpl.
    apply IH; try done. intros j c' req' Hj. apply (Hbefore (S j)). lia.
Qed.

(** X8: [StackEndRC] does not look at the request it is given, only at the
    stack.  When the stack is long enough, it raises the exception of the
    first checker (in stack order) that fails on its aligned request of the
    stack tail, unchanged; the checkers after it are not consulted.  A
    one-checker [StackEndRC] behaves on a non-empty stack as its checker on the
    last request of the stack. *)
Theorem X8_stack_end_first_failure `{TypeTools} {T : Type}
    (cs : list (RequestChecker T)) (mediator : Mediator T) (r : Request) :
  let stack := request_stack mediator in
  (∀ r', check_request (StackEndRC cs) mediator r
         = check_request (StackEndRC cs) mediator r') ∧
  (∀ i c req e,
     (length cs ≤ length stack)%nat →
     cs !! i = Some c →
     stack !! (length stack - length cs + i)%nat = Some req →
     check_request c mediator req = Raise e →
     (∀ j c' req', (j < i)%nat → cs !! j = Some c' →
        stack !! (length stack - length cs + j)%nat = Some req' →
        check_request c' mediator req' = Ok ()) →
     check_request (StackEndRC cs) mediator r = Raise e) ∧
  (∀ c req, cs = [c] → last stack = Some req →
     check_request (StackEndRC cs) mediator r = check_request c mediator req).
Proof.
  intros stack. split_and!.
  - done.
  - intros i c req e Hlen Hc Hreq He Hbefore.
    rewrite check_request_stack_end. cbn zeta. fold stack.
    rewrite bool_decide_eq_false_2 by lia.
    replace (Z.to_nat (Z.of_nat (length stack) - Z.of_nat (length cs)))
      with (length stack - length cs)%nat by lia.
    apply (check_zip_first_failure _ _ _ i c req); try done.
    + by rewrite lookup_drop.
    + intros j c' req' Hj Hc'. rewrite lookup_drop. by apply Hbefore.
  - intros c req -> Hlast.
    rewrite check_request_stack_end. cbn zeta. fold stack.
    destruct (stack) as [|r0 stack'] using rev_ind; [done|].
    rewrite last_snoc in Hlast. simplify_eq.
    rewrite length_app. simpl.
    rewrite bool_decide_eq_false_2 by lia.
    replace (Z.to_nat _) with (length stack') by lia.
    rewrite drop_app_length. simpl.
    by destruct (check_request c mediator req) as [[]|].
Qed.

Lemma X8_stack_end_first_failure_witness :
  let stack := [LocatedRequest (FieldLocation "root");
                LocatedRequest (FieldLocation "a");
                LocatedRequest (FieldLocation "b")] in
  let mediator : Mediator unit := {| request_stack := stack; provide_from_next := Ok () |} in
  check_request (StackEndRC [ExactFieldNameRC "a"; ExactFieldNameRC "c"])
    mediator PlainRequest = Raise (cannot_provide (MsgFieldNameMustBe "c")) ∧
  check_request (StackEndRC [ExactFieldNameRC "b"]) mediator PlainRequest = Ok ().
Proof.
  intros stack mediator. split.
  - destruct (X8_stack_end_first_failure
                [ExactFieldNameRC "a"; ExactFieldNameRC "c"] mediator PlainRequest)
      as (_ & Hfail & _).
    apply (Hfail 1%nat (ExactFieldNameRC "c") (LocatedRequest (FieldLocation "b")));
      [simpl; lia|reflexivity|reflexivity|reflexivity|].
    intros [|j] c' req' Hj Hc Hr; [|lia]. by simplify_eq/=.
  - destruct (X8_stack_end_first_failure [ExactFieldNameRC "b"] mediator PlainRequest)
      as (_ & _ & Hone).
    by rewrite (Hone (ExactFieldNameRC "b") (LocatedRequest (FieldLocation "b"))
                  eq_refl eq_refl).
Defined.

Section provider_laws.
Context `{TypeTools} {Data : Type}.
Implicit Types (p : Provider (Data:=Data)) (ps : list (Provider (Data:=Data))).
Implicit Types (mediator : Mediator (Processor (Data:=Data))) (r : Request).

Lemma apply_provider_concat ps mediator r :
  apply_provider (ConcatProvider ps) mediator r
  = concat_loop (λ p, apply_provider p mediator r) ps [].
Proof. reflexivity. Qed.
End provider_laws.

Lemma concat_loop_skip {P R} (apply : P → result R) (pre post : list P)
    (es acc : list CannotProvide) :
  Forall2 (λ p e, apply p = Raise (ECannotProvide e)) pre es →
  concat_loop apply (pre ++ post) acc = concat_loop apply post (acc ++ es).
Proof.
  intros Hall. revert acc. induction Hall as [|c e cs es' Hc _ IH]; intros acc; simpl.
  - by rewrite app_nil_r.
  - rewrite Hc, IH. by rewrite <-app_assoc.
Qed.

Lemma concat_loop_ok {P R} (apply : P → result R) (ps : list P)
    (acc : list CannotProvide) (v : R) :
  concat_loop apply ps acc = Ok v ↔
  ∃ pre p post es, ps = pre ++ p :: post ∧
    Forall2 (λ p e, apply p = Raise (ECannotProvide e)) pre es ∧ apply p = Ok v.
Proof.
  revert acc. induction ps as [|p ps IH]; intros acc; simpl.
  - split; [done|]. intros (pre & c & post & es & Heq & _). by destruct pre.
  - destruct (apply p) as [v'|e] eqn:Hp.
    + split.
      * intros [= <-]. exists [], p, ps, []. by repeat split.
      * intros ([|p' pre] & p'' & post & es & Heq & Hall & Hok); simplify_eq/=.
        { congruence. }
        apply Forall2_cons_inv_l in Hall as (? & ? & ? & ? & ?); congruence.
    + destruct e as [e| | | | |];
        try (split; [done|]; intros ([|c' pre] & c'' & post & es & Heq & Hall & Hok);
             simplify_eq/=; [congruence|];
             apply Forall2_cons_inv_l in Hall as (? & ? & ? & ? & ?); congruence).
      rewrite IH. split.
      * intros (pre & c' & post & es & -> & Hall & Hok).
        exists (p :: pre), c', post, (e :: es). repeat split; [|done]. by constructor.
      * intros ([|c' pre] & c'' & post & es & Heq & Hall & Hok); simplify_eq/=.
        { congruence. }
        apply Forall2_cons_inv_l in Hall as (e' & es' & _ & Hall & ->).
        by exists pre, c'', post, es'.
Qed.

(** The outcome of the loop does not depend on the errors collected so far,
    up to the content of [CannotProvide]. *)
Lemma concat_loop_acc {P R} (apply : P → result R) (ps : list P)
    (acc acc' : list CannotProvide) :
  same_outcome (concat_loop apply ps acc) (concat_loop apply ps acc').
Proof.
  revert acc acc'. induction ps as [|p ps IH]; intros acc acc'; simpl; [done|].
  destruct (apply p) as [v|[e| | | | |]]; simpl; try done; apply IH.
Qed.

Lemma same_outcome_refl {A} (r : result A) : same_outcome r r.
Proof. by destruct r as [a|[]]. Qed.

Lemma same_outcome_trans {A} (r1 r2 r3 : result A) :
  same_outcome r1 r2 → same_outcome r2 r3 → same_outcome r1 r3.
Proof.
  destruct r1 as [?|[]], r2 as [?|[]], r3 as [?|[]]; simpl; try done; congruence.
Qed.

Lemma concat_loop_nested {P R} (apply : P → result R) (qs post : list P)
    (acc0 acc acc' : list CannotProvide) :
  same_outcome
    match concat_loop apply qs acc0 with
    | Ok r => Ok r
    | Raise (ECannotProvide e) => concat_loop apply post (acc ++ [e])
    | Raise e => Raise e
    end
    (concat_loop apply (qs ++ post) acc').
Proof.
  revert acc0 acc'. induction qs as [|q qs IH]; intros acc0 acc'; simpl.
  - apply concat_loop_acc.
  - destruct (apply q) as [v|[e| | | | |]]; simpl; try done; apply IH.
Qed.

Lemma concat_loop_flatten {P R} (apply : P → result R) (pre qs post : list P)
    (nested : P) (acc acc' : list CannotProvide) :
  apply nested = concat_loop apply qs [] →
  same_outcome (concat_loop apply (pre ++ nested :: post) acc)
               (concat_loop apply (pre ++ qs ++ post) acc').
Proof.
  intros Hnested. revert acc acc'.
  induction pre as [|p pre IH]; intros acc acc'; simpl.
  - rewrite Hnested. apply concat_loop_nested.
  - destruct (apply p) as [v|[e| | | | |]]; simpl; try done; apply IH.
Qed.

(** X9: [ConcatProvider] asks its providers in order and returns the value
    of the first one that succeeds after all the earlier ones raised
    [CannotProvide]; the later ones are not asked.  When all of them raise
    [CannotProvide] (or there is none) it raises one [CannotProvide] whose
    sub-errors are theirs, in order; another exception of a provider reached
    this way ends the search. *)
Theorem X9_concat_first_success `{TypeTools} {Data : Type}
    (ps : list (Provider (Data:=Data))) (mediator : Mediator Processor)
    (r : Request) :
  let apply := λ p, apply_provider p mediator r in
  (∀ v, apply (ConcatProvider ps) = Ok v ↔
     ∃ pre p post es, ps = pre ++ p :: post ∧
       Forall2 (λ p e, apply p = Raise (ECannotProvide e)) pre es ∧
       apply p = Ok v) ∧
  (∀ es, Forall2 (λ p e, apply p = Raise (ECannotProvide e)) ps es →
     apply (ConcatProvider ps)
     = Raise (ECannotProvide {| msg := None; sub_errors := es;
                                is_terminal := false; is_demonstrative := false |})) ∧
  (∀ pre p post es e,
     ps = pre ++ p :: post →
     Forall2 (λ p e, apply p = Raise (ECannotProvide e)) pre es →
     apply p = Raise e → (∀ cp, e ≠ ECannotProvide cp) →
     apply (ConcatProvider ps) = Raise e).
Proof.
  intros apply. unfold apply. split_and!.
  - intros v. rewrite apply_provider_concat. apply concat_loop_ok.
  - intros es Hall. rewrite apply_provider_concat.
    rewrite <-(app_nil_r ps). by rewrite (concat_loop_skip _ _ _ es).
  - intros pre p post es e -> Hall Hp He. rewrite apply_provider_concat.
    rewrite (concat_loop_skip _ _ _ es) by done. simpl. rewrite Hp.
    destruct e as [cp| | | | |]; [by destruct (He cp)|done..].
Qed.

Lemma X9_concat_first_success_witness :
  let f : Processor := λ x : Z, Ok (x + 1) in
  let is_located := λ request : @Request toy_tools,
    match request with LocatedRequest _ => true | PlainRequest => false end in
  let mediator := {| request_stack := []; provide_from_next := Ok f |} in
  apply_provider
    (ConcatProvider [ValueProvider is_located f; ValueProvider is_located f])
    mediator PlainRequest
  = Raise (ECannotProvide {| msg := None; sub_errors := [silent; silent];
                             is_terminal := false; is_demonstrative := false |}).
Proof.
  intros f is_located mediator.
  destruct (X9_concat_first_success
              [ValueProvider is_located f; ValueProvider is_located f]
              mediator PlainRequest) as (_ & Hall & _).
  apply Hall. repeat constructor.
Defined.

(** X10: a [ConcatProvider] nested in a [ConcatProvider] can be flattened:
    with the inner providers put in its place the outcome is the same value
    or the same exception; only the nesting of the sub-errors of a final
    [CannotProvide] differs.  A [ConcatProvider] of one provider has the
    outcome of that provider. *)
Theorem X10_concat_flatten `{TypeTools} {Data : Type}
    (pre qs post : list (Provider (Data:=Data))) (p : Provider)
    (mediator : Mediator Processor) (r : Request) :
  let apply := λ p, apply_provider p mediator r in
  same_outcome (apply (ConcatProvider (pre ++ ConcatProvider qs :: post)))
               (apply (ConcatProvider (pre ++ qs ++ post))) ∧
  same_outcome (apply (ConcatProvider [p])) (apply p).
Proof.
  intros apply. unfold apply. split.
  - rewrite !apply_provider_concat. apply concat_loop_flatten.
    apply apply_provider_concat.
  - rewrite apply_provider_concat. simpl.
    by destruct (apply_provider p mediator r) as [v|[]].
Qed.

(** X11: bounding composes with the checker operators.  A provider bound by
    [a] and then by [b] is the provider bound by [b & a]: the same outcome,
    error included.  A provider bound by [a | b] has the outcome, up to the
    content of [CannotProvide], of the concatenation of its copies bound by
    [a] and by [b], provided [b] keeps the contract of [check_request].  A
    failing checker is the provider's failure, whatever the provider. *)
Theorem X11_bounding_composes `{TypeTools} {Data : Type}
    (a b : RequestChecker Processor) (p : Provider (Data:=Data))
    (mediator : Mediator Processor) (r : Request) :
  apply_provider (BoundingProvider b (BoundingProvider a p)) mediator r
  = apply_provider (BoundingProvider (__and__ b a) p) mediator r ∧
  (conforms (check_request b mediator r) →
   same_outcome
     (apply_provider (BoundingProvider (__or__ a b) p) mediator r)
     (apply_provider (ConcatProvider [BoundingProvider a p; BoundingProvider b p])
        mediator r)) ∧
  (∀ e q, check_request a mediator r = Raise e →
     apply_provider (BoundingProvider a q) mediator r = Raise e).
Proof.
  split_and!.
  - unfold __and__. cbn [apply_provider]. rewrite check_request_and. simpl.
    destruct (check_request b mediator r) as [[]|]; simpl; [|done].
    by destruct (check_request a mediator r) as [[]|].
  - intros Hb. unfold __or__. rewrite apply_provider_concat.
    cbn [apply_provider]. rewrite check_request_or. simpl.
    destruct (check_request a mediator r) as [[]|[cpa| | | | |]]; simpl; try done.
    + destruct (apply_provider p mediator r) as [v|[cpp| | | | |]]; simpl; try done.
      destruct Hb as [->|[e ->]]; simpl; [|done].
      done.
    + destruct Hb as [->|[e ->]]; simpl; [|done].
      by destruct (apply_provider p mediator r) as [v|[cpp| | | | |]].
  - intros e q Ha. cbn [apply_provider]. by rewrite Ha.
Qed.

Lemma X11_bounding_composes_witness :
  let f : Processor := λ x : Z, Ok (x + 1) in
  let mediator := {| request_stack := []; provide_from_next := Ok f |} in
  let request := LocatedRequest (@FieldLocation toy_tools "b") in
  let p := ValueProvider (λ _, true) f in
  same_outcome
    (apply_provider
       (BoundingProvider (__or__ (ExactFieldNameRC "a") (ExactFieldNameRC "b")) p)
       mediator request)
    (apply_provider
       (ConcatProvider [BoundingProvider (ExactFieldNameRC "a") p;
                        BoundingProvider (ExactFieldNameRC "b") p])
       mediator request) ∧
  apply_provider (BoundingProvider (ExactFieldNameRC "a") p) mediator request
  = Raise (cannot_provide (MsgFieldNameMustBe "a")).
Proof.
  intros f mediator request p.
  destruct (X11_bounding_composes (ExactFieldNameRC "a") (ExactFieldNameRC "b")
              p mediator request) as (_ & Hor & Hfail).
  split.
  - apply Hor. by left.
  - by apply Hfail.
Defined.

(** X12: a [ChainingProvider] fails with the exception of its own provider
    before it asks for the next processor, and with the exception of
    [provide_from_next] otherwise, whichever the chain order.  The chain it
    builds is associative and runs the second stage only on a result of the
    first. *)
Theorem X12_chaining_failures `{TypeTools} {Data : Type}
    (chain : Chain) (provider : Provider) (mediator : Mediator (Processor (Data:=Data)))
    (request : Request) :
  (∀ e, apply_provider provider mediator request = Raise e →
     apply_provider (ChainingProvider chain provider) mediator request = Raise e) ∧
  (∀ f e, apply_provider provider mediator request = Ok f →
     provide_from_next mediator = Raise e →
     apply_provider (ChainingProvider chain provider) mediator request = Raise e) ∧
  (∀ (f g h : Processor (Data:=Data)) x,
     _make_chain (_make_chain f g) h x = _make_chain f (_make_chain g h) x) ∧
  (∀ (f g : Processor (Data:=Data)) x e, f x = Raise e → _make_chain f g x = Raise e).
Proof.
  split_and!.
  - intros e Hp. cbn [apply_provider]. by rewrite Hp.
  - intros f e Hp Hn. cbn [apply_provider]. by rewrite Hp; simpl; rewrite Hn.
  - intros f g h x. unfold _make_chain. by destruct (f x).
  - intros f g x e Hf. unfold _make_chain. by rewrite Hf.
Qed.

Lemma X12_chaining_failures_witness :
  let f : Processor := λ x : Z, Ok (x + 1) in
  let mediator : Mediator (Processor (Data:=Z)) :=
    {| request_stack := []; provide_from_next := Raise (ECannotProvide silent) |} in
  apply_provider (ChainingProvider LAST (ValueProvider (λ _, true) f))
    mediator (@PlainRequest toy_tools)
  = Raise (ECannotProvide silent).
Proof.
  intros f mediator.
  destruct (X12_chaining_failures LAST (ValueProvider (λ _, true) f) mediator
              PlainRequest) as (_ & Hnext & _).
  by apply (Hnext f).
Defined.

(** * Further properties of the figures and crowns *)

Lemma count_distinct_names {A} (g : A → string) (fields : list A) :
  count_distinct (g <$> fields) ≠ length fields ↔ ¬ NoDup (g <$> fields).
Proof. by rewrite <-count_distinct_NoDup, length_fmap. Qed.

(** X13: [InputFigure._validate] and [InputFieldsFigure.__post_init__] run the
    same checks, but the second one does not look at the parameter names and
    checks the order first.  So a figure passes [InputFigure._validate]
    exactly when it passes [InputFieldsFigure.__post_init__] and its parameter
    names are distinct; when field names are duplicated the first always
    reports the duplicated field names, while the second reports a wrong order
    whenever there is one. *)
Theorem X13_figure_validations_agree (fields : list InputField) (extra : BaseFigureExtra) :
  (InputFigure_validate fields extra = Ok () ↔
     InputFieldsFigure_post_init fields extra = Ok ()
     ∧ NoDup (param_name <$> fields)) ∧
  (¬ NoDup (name <$> fields) →
     InputFigure_validate fields extra = Raise (EValueError FieldNamesDuplicated)) ∧
  (∀ e, check_pairs (pairs fields) = Raise e →
     InputFieldsFigure_post_init fields extra = Raise e) ∧
  (check_pairs (pairs fields) = Ok () → ¬ NoDup (name <$> fields) →
     InputFieldsFigure_post_init fields extra = Raise (EValueError FieldNamesDuplicated)).
Proof.
  split_and!.
  - rewrite InputFigure_validate_ok, InputFieldsFigure_post_init_ok. naive_solver.
  - intros Hdup. unfold InputFigure_validate, BaseFigure_validate.
    by rewrite bool_decide_eq_true_2 by by apply count_distinct_names.
  - intros e He. unfold InputFieldsFigure_post_init. by rewrite He.
  - intros Hok Hdup. unfold InputFieldsFigure_post_init, BaseFigure_validate.
    rewrite Hok. simpl.
    by rewrite bool_decide_eq_true_2 by by apply count_distinct_names.
Qed.

Lemma X13_figure_validations_agree_witness :
  let a := {| name := "a"; inp_is_required := false;
              param_kind := POS_OR_KW; param_name := "a" |} in
  let b := {| name := "a"; inp_is_required := true;
              param_kind := POS_OR_KW; param_name := "b" |} in
  InputFigure_validate [a; b] NoExtra = Raise (EValueError FieldNamesDuplicated) ∧
  InputFieldsFigure_post_init [a; b] NoExtra
  = Raise (EValueError NotRequiredAfterRequired).
Proof.
  intros a b.
  destruct (X13_figure_validations_agree [a; b] NoExtra) as (_ & Hdup & Horder & _).
  split.
  - apply Hdup. subst a b. simpl. rewrite NoDup_cons. set_solver.
  - by apply Horder.
Defined.

(** X14: the errors of [BaseFigure._validate].  It reports duplicated field
    names exactly when two fields share a name, whatever the extra is, and
    before it looks at the extra targets.  It reports wild targets exactly when
    the field names are distinct and some extra target names no field; the
    reported list then holds exactly the targets that name no field, in the
    order of the targets. *)
Theorem X14_base_figure_errors (fields : list InputField) (extra : BaseFigureExtra) :
  (BaseFigure_validate fields extra = Raise (EValueError FieldNamesDuplicated)
     ↔ ¬ NoDup (name <$> fields)) ∧
  ((∃ wild_targets,
      BaseFigure_validate fields extra
      = Raise (EValueError (ExtraTargetsWild wild_targets)))
     ↔ NoDup (name <$> fields) ∧
       ∃ targets t, extra = ExtraTargets targets ∧ t ∈ targets ∧ t ∉ name <$> fields) ∧
  (∀ wild_targets targets,
     BaseFigure_validate fields extra
     = Raise (EValueError (ExtraTargetsWild wild_targets)) →
     extra = ExtraTargets targets →
     wild_targets `sublist_of` targets ∧
     ∀ t, t ∈ wild_targets ↔ t ∈ targets ∧ t ∉ name <$> fields).
Proof.
  unfold BaseFigure_validate.
  destruct (decide (NoDup (name <$> fields))) as [Hnd|Hdup].
  - rewrite bool_decide_eq_false_2 by by rewrite count_distinct_names; intros [].
    destruct extra as [| |targets| |]; try by (split_and!; naive_solver).
    case_bool_decide as Hw.
    + split_and!.
      * done.
      * split; [|by eexists]. intros _. split; [done|].
        destruct (filter _ targets) as [|t w] eqn:Hf; [done|].
        assert (t ∈ filter (λ target, target ∉ name <$> fields) targets) as Ht
          by (rewrite Hf; set_solver).
        apply list_elem_of_filter in Ht as [? ?]. by exists targets, t.
      * intros w targets' [= <-] [= <-]. split; [apply sublist_filter|].
        intros t. by rewrite list_elem_of_filter, (comm and).
    + split_and!; try done.
      split; [by intros [? ?]|]. intros (_ & targets' & t & [= <-] & Hin & Hout).
      assert (t ∈ filter (λ target, target ∉ name <$> fields) targets) as Ht
        by by apply list_elem_of_filter.
      rewrite Hw in Ht. by apply elem_of_nil in Ht.
  - rewrite bool_decide_eq_true_2 by by apply count_distinct_names.
    split_and!; try done. split; [by intros [? ?]|]. by intros [? _].
Qed.

Lemma X14_base_figure_errors_witness :
  let a := {| name := "a"; inp_is_required := true;
              param_kind := POS_OR_KW; param_name := "a" |} in
  ∃ w, BaseFigure_validate [a] (ExtraTargets ["x"; "a"; "y"])
       = Raise (EValueError (ExtraTargetsWild w)).
Proof.
  intros a.
  destruct (X14_base_figure_errors [a] (ExtraTargets ["x"; "a"; "y"]))
    as (_ & Hwild & _).
  apply Hwild. subst a. simpl. split.
  - apply NoDup_singleton.
  - exists ["x"; "a"; "y"], "y". split_and!; [done|set_solver|set_solver].
Defined.

(** X15: [ListCrown.list_len] is one more than the greatest key of the map,
    so it is greater than every key, whatever the order of the entries; on an
    empty map it raises [ValueError] ([max] of an empty sequence); when the
    keys are exactly [0 .. n-1] it is [n]. *)
Theorem X15_list_len_bounds {C : Type} (map : list (Z * C)) :
  (map = [] → list_len map = Raise (EValueError BareValueError)) ∧
  (map ≠ [] →
     ∃ n, list_len map = Ok n ∧ n - 1 ∈ dict_keys map
          ∧ ∀ k, k ∈ dict_keys map → k < n) ∧
  (∀ n, 0 < n → (∀ k, k ∈ dict_keys map ↔ 0 ≤ k < n) → list_len map = Ok n).
Proof.
  unfold list_len. split_and!.
  - by intros ->.
  - intros Hne.
    destruct (py_max_nonempty (dict_keys map)) as [m Hm].
    { by destruct map. }
    rewrite Hm. simpl. apply py_max_spec in Hm as [Hin Hmax].
    exists (m + 1). split_and!; [done|by replace (m + 1 - 1) with m by lia|].
    intros k Hk. apply Hmax in Hk. lia.
  - intros n Hn Hkeys.
    assert (py_max (dict_keys map) = Ok (n - 1)) as ->.
    { apply py_max_spec. split.
      - apply Hkeys. lia.
      - intros y Hy. apply Hkeys in Hy. lia. }
    simpl. f_equal. lia.
Qed.

Lemma X15_list_len_bounds_witness :
  list_len [(2, "c"); (0, "a"); (1, "b")] = Ok 3 ∧
  list_len (C:=string) [] = Raise (EValueError BareValueError).
Proof.
  split.
  - destruct (X15_list_len_bounds [(2, "c"); (0, "a"); (1, "b")]) as (_ & _ & Hfull).
    apply Hfull; [lia|]. intros k. unfold dict_keys. simpl.
    rewrite !elem_of_cons, elem_of_nil. lia.
  - destruct (X15_list_len_bounds (C:=string) []) as (Hempty & _). by apply Hempty.
Defined.

(** * Further properties of the structure maker *)

Section unmapped.
Context {F : Type} `{BaseField F}.
Implicit Types (ftp : list (F * option KeyPath)).

Lemma foldl_drop_unmapped {D} (step : D → F * option KeyPath → D) ftp :
  (∀ d f, step d (f, None) = d) →
  ∀ d, foldl step d (drop_unmapped ftp) = foldl step d ftp.
Proof.
  intros Hstep. unfold drop_unmapped.
  induction ftp as [|[f [p|]] ftp IH]; intros d; [done| |].
  - rewrite filter_cons_True by (simpl; eauto). simpl. apply IH.
  - rewrite filter_cons_False by (simpl; by intros [? ?]). simpl.
    rewrite Hstep. apply IH.
Qed.

Lemma make_paths_to_fields_drop_unmapped ftp :
  make_paths_to_fields (drop_unmapped ftp) = make_paths_to_fields ftp.
Proof. by apply foldl_drop_unmapped. Qed.

Lemma initial_paths_to_leaves_drop_unmapped {Leaf} (field_crown : string → Leaf) ftp :
  initial_paths_to_leaves field_crown (drop_unmapped ftp)
  = initial_paths_to_leaves field_crown ftp.
Proof. by apply foldl_drop_unmapped. Qed.

Lemma mapped_paths_drop_unmapped ftp :
  mapped_paths (drop_unmapped ftp) = mapped_paths ftp.
Proof.
  unfold mapped_paths, drop_unmapped.
  induction ftp as [|[f [p|]] ftp IH]; [done| |].
  - rewrite filter_cons_True by (simpl; eauto). csimpl. by rewrite IH.
  - by rewrite filter_cons_False by (simpl; by intros [? ?]).
Qed.

Lemma optional_fields_at_list_drop_unmapped ftp :
  optional_fields_at_list (drop_unmapped ftp) = optional_fields_at_list ftp.
Proof.
  unfold drop_unmapped.
  induction ftp as [|[f [p|]] ftp IH]; [done| |].
  - rewrite filter_cons_True by (simpl; eauto). simpl. by rewrite IH.
  - rewrite filter_cons_False by (simpl; by intros [? ?]). rewrite IH. simpl.
    by destruct (optional_fields_at_list ftp).
Qed.

Lemma validate_structure_drop_unmapped
    (get_prefix_groups : list KeyPath → list (KeyPath * list KeyPath)) ftp :
  _validate_structure get_prefix_groups (drop_unmapped ftp)
  = _validate_structure get_prefix_groups ftp.
Proof.
  unfold _validate_structure.
  by rewrite make_paths_to_fields_drop_unmapped, mapped_paths_drop_unmapped,
    optional_fields_at_list_drop_unmapped.
Qed.

Lemma make_paths_to_leaves_drop_unmapped {Leaf} (field_crown : string → Leaf)
    (gaps_filler : KeyPath → Leaf) ftp :
  _make_paths_to_leaves field_crown gaps_filler (drop_unmapped ftp)
  = _make_paths_to_leaves field_crown gaps_filler ftp.
Proof.
  unfold _make_paths_to_leaves. by rewrite initial_paths_to_leaves_drop_unmapped.
Qed.

Lemma skipped_required_fields_elem ftp id :
  id ∈ skipped_required_fields ftp ↔
  ∃ f, (f, None) ∈ ftp ∧ is_required f = true ∧ field_id f = id.
Proof.
  unfold skipped_required_fields. rewrite list_elem_of_fmap. split.
  - intros ([f p] & -> & [[Hp Hr] Hin]%list_elem_of_filter). simpl in *. subst p.
    by exists f.
  - intros (f & Hin & Hr & <-). exists (f, None). split; [done|].
    by apply list_elem_of_filter.
Qed.
End unmapped.

(** X16: [make_inp_structure] first refuses skipped required fields.  When a
    required field is not mapped, it raises the terminal, demonstrative
    "Required fields ... are skipped" error, which lists exactly the ids of
    the required fields that are not mapped, whatever else is wrong with the
    mapping.  When every unmapped field is optional, the unmapped fields have
    no effect: without the entries whose path is [None] the maker gives the
    same result or the same error. *)
Theorem X16_skipped_required_fields {F : Type} `{BaseField F}
    (get_prefix_groups : list KeyPath → list (KeyPath * list KeyPath))
    (fields_to_paths : list (F * option KeyPath)) :
  let inp := make_inp_structure get_prefix_groups InpFieldCrown _fill_input_gap in
  (∀ f, (f, None) ∈ fields_to_paths → is_required f = true →
     ∃ ids,
       inp fields_to_paths
       = Raise (ECannotProvide
                  {| msg := Some (MsgRequiredFieldsSkipped ids); sub_errors := [];
                     is_terminal := true; is_demonstrative := true |}) ∧
       field_id f ∈ ids ∧
       ∀ id, id ∈ ids ↔
             ∃ g, (g, None) ∈ fields_to_paths ∧ is_required g = true ∧ field_id g = id) ∧
  ((∀ f, (f, None) ∈ fields_to_paths → is_required f = false) →
     inp fields_to_paths = inp (drop_unmapped fields_to_paths)).
Proof.
  intros inp. unfold inp, make_inp_structure. split.
  - intros f Hin Hreq.
    assert (field_id f ∈ skipped_required_fields fields_to_paths) as Hf.
    { apply skipped_required_fields_elem. by exists f. }
    exists (skipped_required_fields fields_to_paths).
    rewrite bool_decide_eq_true_2 by (intros Heq; rewrite Heq in Hf; by apply elem_of_nil in Hf).
    split_and!; [done|done|]. intros id. apply skipped_required_fields_elem.
  - intros Hopt.
    assert (∀ ftp : list (F * option KeyPath),
              (∀ f, (f, None) ∈ ftp → is_required f = false) →
              skipped_required_fields ftp = []) as Hnone.
    { intros ftp Hftp.
      destruct (skipped_required_fields ftp) as [|id ids] eqn:Hs; [done|].
      assert (id ∈ skipped_required_fields ftp) as Hid by (rewrite Hs; set_solver).
      apply skipped_required_fields_elem in Hid as (f & Hin & Hreq & _).
      rewrite (Hftp f Hin) in Hreq. done. }
    rewrite (Hnone fields_to_paths Hopt), (Hnone (drop_unmapped fields_to_paths)).
    + rewrite !bool_decide_eq_false_2 by by intros ?.
      by rewrite make_paths_to_leaves_drop_unmapped, validate_structure_drop_unmapped.
    + intros f [_ Hin]%list_elem_of_filter. by apply Hopt.
Qed.

Lemma X16_skipped_required_fields_witness :
  let a := {| name := "a"; inp_is_required := true;
              param_kind := POS_OR_KW; param_name := "a" |} in
  let b := {| name := "b"; inp_is_required := true;
              param_kind := POS_OR_KW; param_name := "b" |} in
  ∃ ids,
    make_inp_structure (λ _, []) InpFieldCrown _fill_input_gap
      [(a, Some [KStr "x"]); (b, None); (a, Some [KStr "x"])]
    = Raise (ECannotProvide
               {| msg := Some (MsgRequiredFieldsSkipped ids); sub_errors := [];
                  is_terminal := true; is_demonstrative := true |}) ∧ "b" ∈ ids.
Proof.
  intros a b.
  destruct (X16_skipped_required_fields (λ _, [])
              [(a, Some [KStr "x"]); (b, None); (a, Some [KStr "x"])])
    as (Hskipped & _).
  destruct (Hskipped b) as (ids & Hraise & Hin & _); [set_solver|done|].
  by exists ids.
Defined.

(** X17: the outcome of [make_out_structure] depends only on the fields
    that are mapped: entries whose path is [None] can be removed from the
    mapping without changing the result or the error, and the same holds for
    [_make_paths_to_leaves] and [_validate_structure]. *)
Theorem X17_unmapped_fields_are_ignored {F : Type} `{BaseField F} {Leaf : Type}
    (get_prefix_groups : list KeyPath → list (KeyPath * list KeyPath))
    (field_crown : string → Leaf) (gaps_filler : KeyPath → Leaf)
    (fields_to_paths : list (F * option KeyPath)) :
  make_out_structure get_prefix_groups field_crown gaps_filler
    (drop_unmapped fields_to_paths)
  = make_out_structure get_prefix_groups field_crown gaps_filler fields_to_paths ∧
  _make_paths_to_leaves field_crown gaps_filler (drop_unmapped fields_to_paths)
  = _make_paths_to_leaves field_crown gaps_filler fields_to_paths ∧
  _validate_structure get_prefix_groups (drop_unmapped fields_to_paths)
  = _validate_structure get_prefix_groups fields_to_paths.
Proof.
  unfold make_out_structure.
  by rewrite make_paths_to_leaves_drop_unmapped, validate_structure_drop_unmapped.
Qed.

Lemma py_getitem_last {A} (xs : list A) :
  py_getitem xs (-1) = match last xs with Some x => Ok x | None => Raise EIndexError end.
Proof.
  destruct xs as [|x0 xs'] using rev_ind.
  - done.
  - rewrite last_snoc. unfold py_getitem. rewrite length_app. simpl.
    rewrite bool_decide_eq_true_2 by lia.
    replace (Z.to_nat _) with (length xs') by lia.
    by rewrite list_lookup_middle.
Qed.

Section optional_at_list.
Context {F : Type} `{BaseField F}.
Implicit Types (ftp : list (F * option KeyPath)).

Lemma optional_fields_at_list_empty_path ftp f :
  (f, Some []) ∈ ftp → is_optional f = true →
  optional_fields_at_list ftp = Raise EIndexError.
Proof.
  intros Hin Hopt. induction ftp as [|[g p] ftp IH]; [by apply elem_of_nil in Hin|].
  apply elem_of_cons in Hin as [[= <- <-]|Hin].
  - simpl. by rewrite Hopt.
  - specialize (IH Hin). simpl. rewrite IH.
    destruct p as [p|]; simpl; [|done].
    destruct (is_optional g); simpl; [|done].
    rewrite py_getitem_last. by destruct (last p).
Qed.

Lemma optional_fields_at_list_ok ftp :
  (∀ f, (f, Some []) ∈ ftp → is_optional f = false) →
  ∃ ids, optional_fields_at_list ftp = Ok ids ∧
    ∀ id, id ∈ ids ↔
      ∃ f p k, (f, Some p) ∈ ftp ∧ is_optional f = true
               ∧ last p = Some (KInt k) ∧ field_id f = id.
Proof.
  induction ftp as [|[g p] ftp IH]; intros Hempty.
  - exists []. split; [done|]. intros id. split; [by intros ?%elem_of_nil|].
    by intros (? & ? & ? & ?%elem_of_nil & _).
  - destruct IH as (ids & Hids & Hspec).
    { intros f Hf. apply Hempty. by right. }
    simpl. rewrite Hids.
    assert (∀ id (keep : bool),
      (keep = true ↔ ∃ q k, p = Some q ∧ is_optional g = true ∧ last q = Some (KInt k)) →
      (id ∈ (if keep then field_id g :: ids else ids) ↔
       ∃ f p0 k, (f, Some p0) ∈ (g, p) :: ftp ∧ is_optional f = true
                 ∧ last p0 = Some (KInt k) ∧ field_id f = id)) as Hkeep.
    { intros id keep Hk. split.
      - destruct keep.
        + intros [->|Hin]%elem_of_cons.
          * destruct (proj1 Hk eq_refl) as (q & k & -> & Ho & Hl).
            exists g, q, k. split_and!; try done. by left.
          * apply Hspec in Hin as (f & p0 & k & Hin & ?). exists f, p0, k.
            split; [by right|done].
        + intros Hin. apply Hspec in Hin as (f & p0 & k & Hin & ?). exists f, p0, k.
          split; [by right|done].
      - intros (f & p0 & k & [[= -> <-]|Hin]%elem_of_cons & Ho & Hl & <-).
        + rewrite (proj2 Hk) by by exists p0, k. by left.
        + assert (field_id f ∈ ids) by (apply Hspec; by exists f, p0, k).
          destruct keep; [by right|done]. }
    destruct p as [p|]; simpl.
    + destruct (is_optional g) eqn:Ho; simpl.
      * rewrite py_getitem_last. destruct (last p) as [key|] eqn:Hl; simpl.
        -- eexists. split; [done|]. intros id. apply (Hkeep id (is_int key)).
           destruct key as [s|k]; simpl; split; try done.
           ++ intros (q & k & [= <-] & _ & Hl'). congruence.
           ++ intros _. by exists p, k.
        -- apply last_None in Hl as ->.
           rewrite (Hempty g) in Ho by by left. done.
      * eexists. split; [done|]. intros id. apply (Hkeep id false). split; [done|].
        intros (q & k & _ & ? & _). done.
    + eexists. split; [done|]. intros id. apply (Hkeep id false). split; [done|].
      by intros (q & k & ? & _).
Qed.
End optional_at_list.

(** X18: the last check of [_validate_structure].  When no path is shared
    and no path is a prefix of another, an optional field mapped to a path that
    ends in a list index is refused with the terminal, demonstrative "Optional
    fields ... can not be mapped to list elements" error, which lists exactly
    the ids of such fields; without such a field the structure is accepted.
    An optional field mapped to the empty path makes the check itself fail
    with [IndexError], because [path[-1]] is evaluated on the empty tuple. *)
Theorem X18_optional_fields_at_list {F : Type} `{BaseField F}
    (get_prefix_groups : list KeyPath → list (KeyPath * list KeyPath))
    (fields_to_paths : list (F * option KeyPath)) :
  (∀ i j f g p, ¬ collide fields_to_paths i j f g p) →
  get_prefix_groups (mapped_paths fields_to_paths) = [] →
  let at_list := λ f, ∃ p k, (f, Some p) ∈ fields_to_paths ∧ is_optional f = true
                             ∧ last p = Some (KInt k) in
  (∀ f, (f, Some []) ∈ fields_to_paths → is_optional f = true →
     _validate_structure get_prefix_groups fields_to_paths = Raise EIndexError) ∧
  ((∀ f, (f, Some []) ∈ fields_to_paths → is_optional f = false) →
     (_validate_structure get_prefix_groups fields_to_paths = Ok ()
        ↔ ∀ f, ¬ at_list f) ∧
     (∀ f, at_list f →
        ∃ ids,
          _validate_structure get_prefix_groups fields_to_paths
          = Raise (ECannotProvide
                     {| msg := Some (MsgOptionalFieldsAtList ids); sub_errors := [];
                        is_terminal := true; is_demonstrative := true |}) ∧
          ∀ id, id ∈ ids ↔ ∃ g, at_list g ∧ field_id g = id)).
Proof.
  intros Hnocoll Hprefix at_list. unfold _validate_structure.
  rewrite (no_collision_no_duplicates _ Hnocoll), Hprefix. simpl.
  split.
  - intros f Hin Hopt. by rewrite (optional_fields_at_list_empty_path _ f).
  - intros Hempty.
    destruct (optional_fields_at_list_ok fields_to_paths Hempty) as (ids & -> & Hids).
    simpl.
    assert (∀ id, id ∈ ids ↔ ∃ g, at_list g ∧ field_id g = id) as Hids'.
    { intros id. rewrite Hids. unfold at_list. naive_solver. }
    split.
    + case_bool_decide as Hne.
      * split; [done|]. intros Hnone. destruct ids as [|id ids]; [done|].
        destruct (proj1 (Hids' id)) as (g & Hg & _); [by left|].
        by destruct (Hnone g).
      * subst ids. split; [|done].
        intros _ f Hf. apply (elem_of_nil (field_id f)). apply Hids'. by exists f.
    + intros f Hf. exists ids. rewrite bool_decide_eq_true_2; [done|].
      intros ->. apply (elem_of_nil (field_id f)). apply Hids'. by exists f.
Qed.

Lemma X18_optional_fields_at_list_witness :
  let a := {| name := "a"; inp_is_required := false;
              param_kind := POS_OR_KW; param_name := "a" |} in
  _validate_structure (λ _, []) [(a, Some [])] = Raise EIndexError ∧
  ∃ ids, _validate_structure (λ _, []) [(a, Some [KStr "x"; KInt 0])]
         = Raise (ECannotProvide
                    {| msg := Some (MsgOptionalFieldsAtList ids); sub_errors := [];
                       is_terminal := true; is_demonstrative := true |}).
Proof.
  intros a.
  assert (∀ p, ∀ i j f g q, ¬ collide [(a, Some p)] i j f g q) as Hnocoll.
  { intros p [|[|i]] [|[|j]] f g q (Hne & Hi & Hj); simplify_eq/=. }
  split.
  - destruct (X18_optional_fields_at_list (λ _, []) [(a, Some [])] (Hnocoll [])
                eq_refl) as (Hempty & _).
    apply (Hempty a); [set_solver|done].
  - destruct (X18_optional_fields_at_list (λ _, [])
                [(a, Some [KStr "x"; KInt 0])] (Hnocoll _) eq_refl) as (_ & Hlist).
    destruct Hlist as (_ & Hraise).
    { intros f [[= _ ?]|[]%elem_of_nil]%elem_of_cons. }
    destruct (Hraise a) as (ids & Hids & _); [|by exists ids].
    exists [KStr "x"; KInt 0], 0. split_and!; [set_solver|done|done].
Defined.

Section filled_NoDup.
Context {Leaf : Type}.
Implicit Types (d : list (KeyPath * Leaf)) (L : list (KeyPath * gset Z)).

Lemma fill_gaps_NoDup (gaps_filler : KeyPath → Leaf) path S (idxs : list Z) :
  ∀ d, NoDup (dict_keys d) →
       NoDup (dict_keys (foldl (fill_step gaps_filler path S) d idxs)).
Proof.
  induction idxs as [|i idxs IH]; intros d Hd; simpl; [done|].
  apply IH. unfold fill_step. destruct (decide (i ∈ S)); [done|].
  by apply dict_set_NoDup.
Qed.

Lemma fill_all_gaps_NoDup (gaps_filler : KeyPath → Leaf) L :
  ∀ d d', fill_all_gaps gaps_filler L d = Ok d' →
          NoDup (dict_keys d) → NoDup (dict_keys d').
Proof.
  induction L as [|[path S] L IH]; intros d d' Hfill Hd; simpl in Hfill.
  - by simplify_eq.
  - destruct (py_max (elements S)) as [top|e]; simpl in Hfill; [|done].
    eapply IH; [done|]. by apply fill_gaps_NoDup.
Qed.
End filled_NoDup.

Section structure_post.
Context {F : Type} `{BaseField F}.
Implicit Types (ftp : list (F * option KeyPath)).

Lemma no_collision_same_field ftp f g p :
  (∀ i j f g p, ¬ collide ftp i j f g p) →
  (f, Some p) ∈ ftp → (g, Some p) ∈ ftp → f = g.
Proof.
  intros Hnocoll [i Hi]%list_elem_of_lookup [j Hj]%list_elem_of_lookup.
  destruct (decide (i = j)) as [->|Hne]; [congruence|].
  by destruct (Hnocoll i j f g p).
Qed.

Lemma optional_fields_at_list_nil ftp :
  optional_fields_at_list ftp = Ok [] →
  ∀ f p k, (f, Some p) ∈ ftp → is_optional f = true → last p ≠ Some (KInt k).
Proof.
  intros Hok f p k Hin Hopt Hlast.
  destruct (optional_fields_at_list_ok ftp) as (ids & Hids & Hspec).
  - intros g Hg. destruct (is_optional g) eqn:Hg'; [|done].
    by rewrite (optional_fields_at_list_empty_path ftp g) in Hok.
  - rewrite Hok in Hids. simplify_eq.
    apply (elem_of_nil (field_id f)). apply Hspec. by exists f, p, k.
Qed.

Lemma validate_structure_ok
    (get_prefix_groups : list KeyPath → list (KeyPath * list KeyPath)) ftp :
  _validate_structure get_prefix_groups ftp = Ok () →
  (∀ i j f g p, ¬ collide ftp i j f g p) ∧
  get_prefix_groups (mapped_paths ftp) = [] ∧
  optional_fields_at_list ftp = Ok [].
Proof.
  intros Hok. split.
  - intros i j f g p Hc.
    by rewrite (validate_structure_duplicates get_prefix_groups ftp i j f g p Hc) in Hok.
  - unfold _validate_structure in Hok.
    case_bool_decide as Hd; [done|].
    case_bool_decide as Hp.
    { by destruct (prefix_details _ _). }
    split; [done|].
    destruct (optional_fields_at_list ftp) as [ids|e]; simpl in Hok; [|done].
    case_bool_decide as Hi; [done|]. by subst.
Qed.
End structure_post.

(** X19: what [make_out_structure] guarantees when it returns.  No two fields
    are mapped to the same path, no path of the mapping uses a parent both as
    a dict and as a list, and no optional field sits at a list index.  The
    result has distinct keys; every mapped field is found at its path, as the
    crown of that field; every other entry is a gap of a list, filled by
    [gaps_filler]. *)
Theorem X19_structure_postconditions {F : Type} `{BaseField F} {Leaf : Type}
    (get_prefix_groups : list KeyPath → list (KeyPath * list KeyPath))
    (field_crown : string → Leaf) (gaps_filler : KeyPath → Leaf)
    (fields_to_paths : list (F * option KeyPath))
    (paths_to_leaves : list (KeyPath * Leaf)) :
  make_out_structure get_prefix_groups field_crown gaps_filler fields_to_paths
    = Ok paths_to_leaves →
  (∀ i j f g p, ¬ collide fields_to_paths i j f g p) ∧
  (∀ parent, ¬ mixed_at (mapped_paths fields_to_paths) parent) ∧
  (∀ f p k, (f, Some p) ∈ fields_to_paths → is_optional f = true →
     last p ≠ Some (KInt k)) ∧
  NoDup (dict_keys paths_to_leaves) ∧
  (∀ f p, (f, Some p) ∈ fields_to_paths →
     dict_get paths_to_leaves p = Some (field_crown (field_id f))) ∧
  (∀ key leaf, dict_get paths_to_leaves key = Some leaf →
     (∃ f, (f, Some key) ∈ fields_to_paths ∧ leaf = field_crown (field_id f)) ∨
     (is_gap (mapped_paths fields_to_paths) key ∧ leaf = gaps_filler key)).
Proof.
  unfold make_out_structure. intros Hok.
  destruct (_make_paths_to_leaves _ _ _) as [ptl|e] eqn:Hleaves; simpl in Hok; [|done].
  destruct (_validate_structure _ _) as [[]|e] eqn:Hval; simpl in Hok; [|done].
  simplify_eq.
  destruct (validate_structure_ok _ _ Hval) as (Hnocoll & _ & Hopt).
  assert (∀ parent, ¬ mixed_at (mapped_paths fields_to_paths) parent) as Hmixed.
  { intros parent Hm.
    destruct (make_paths_to_leaves_raises field_crown gaps_filler _ _ Hm)
      as (sp & _ & Hraise).
    congruence. }
  destruct (make_paths_to_leaves_ok field_crown gaps_filler _ Hmixed)
    as (ptl' & Hptl' & Hspec).
  rewrite Hleaves in Hptl'. simplify_eq.
  assert (∀ key v, dict_get (initial_paths_to_leaves field_crown fields_to_paths) key
                   = Some v →
            ∃ f, (f, Some key) ∈ fields_to_paths ∧ v = field_crown (field_id f))
    as Hinit by apply initial_paths_to_leaves_get.
  split_and!; try done.
  - by apply optional_fields_at_list_nil.
  - unfold _make_paths_to_leaves in Hleaves.
    destruct (_get_paths_to_list _) as [L|e]; simpl in Hleaves; [|done].
    eapply fill_all_gaps_NoDup; [done|]. apply initial_paths_to_leaves_NoDup.
  - intros f p Hin.
    assert (p ∈ mapped_paths fields_to_paths) as Hp
      by (apply mapped_paths_elem; by exists f).
    destruct (Hspec p) as [_ Hkeep]. rewrite Hkeep by by apply mapped_path_not_gap.
    assert (is_Some (dict_get (initial_paths_to_leaves field_crown fields_to_paths) p))
      as [v Hv].
    { apply dict_get_is_Some. by apply initial_paths_to_leaves_keys. }
    rewrite Hv. destruct (Hinit p v Hv) as (g & Hg & ->).
    by rewrite (no_collision_same_field _ f g p Hnocoll Hin Hg).
  - intros key leaf Hget.
    assert (key ∈ dict_keys ptl') as Hkey by by eapply dict_get_Some_keys.
    apply (make_paths_to_leaves_keys field_crown gaps_filler _ _ Hleaves) in Hkey
      as [Hmapped|Hgap].
    + left. destruct (Hspec key) as [_ Hkeep].
      rewrite Hkeep in Hget by by apply mapped_path_not_gap. by apply Hinit.
    + right. split; [done|]. destruct (Hspec key) as [Hfill _].
      rewrite Hfill in Hget by done. by simplify_eq.
Qed.

Lemma X19_structure_postconditions_witness :
  let a := {| name := "a"; inp_is_required := true;
              param_kind := POS_OR_KW; param_name := "a" |} in
  let b := {| name := "b"; inp_is_required := true;
              param_kind := POS_OR_KW; param_name := "b" |} in
  ∃ ptl,
    make_out_structure (λ _, []) InpFieldCrown _fill_input_gap
      [(a, Some [KStr "x"; KInt 2]); (b, Some [KStr "x"; KInt 0])] = Ok ptl ∧
    dict_get ptl [KStr "x"; KInt 2] = Some (InpFieldCrown "a").
Proof.
  intros a b.
  assert (∃ ptl, make_out_structure (λ _, []) InpFieldCrown _fill_input_gap
            [(a, Some [KStr "x"; KInt 2]); (b, Some [KStr "x"; KInt 0])] = Ok ptl)
    as [ptl Hptl] by (eexists; vm_compute; reflexivity).
  exists ptl. split; [exact Hptl|].
  destruct (X19_structure_postconditions _ _ _ _ _ Hptl)
    as (_ & _ & _ & _ & Hfield & _).
  apply (Hfield a). set_solver.
Defined.

Section filled_paths.
Implicit Types (paths keys : list KeyPath) (parent key : KeyPath).

Lemma sub_of_snoc parent (k : Key) (x : KeyPath * Key) :
  sub_of (parent ++ [k]) x → x = (parent, k) ∨ sub_of parent x.
Proof.
  destruct x as [sp k']. intros (j & Hj & Hsp). simpl in *.
  destruct (decide (j < length parent)%nat) as [Hlt|Hge].
  - right. exists j. simpl. rewrite lookup_app_l in Hj by done.
    split; [done|]. by rewrite take_app_le in Hsp by lia.
  - left. apply lookup_lt_Some in Hj as Hlen. rewrite length_app in Hlen.
    simpl in Hlen. assert (j = length parent) as -> by lia.
    rewrite list_lookup_middle in Hj by done. rewrite take_app_length in Hsp.
    by simplify_eq.
Qed.

Lemma sub_of_snoc_last parent (k : Key) : sub_of (parent ++ [k]) (parent, k).
Proof.
  exists (length parent). simpl. split; [by apply list_lookup_middle|].
  by rewrite take_app_length.
Qed.

Lemma sub_of_through paths parent top (x : KeyPath * Key) :
  index_under paths parent top → sub_of parent x → ∃ p, p ∈ paths ∧ sub_of p x.
Proof.
  intros (q & Hq & i & Hi & Htake) Hsub. simpl in *. exists q. split; [done|].
  eapply sub_of_take; [done|]. by rewrite <-Htake.
Qed.

Lemma sub_of_filled paths keys (x : KeyPath * Key) :
  (∀ key, key ∈ keys ↔ key ∈ paths ∨ is_gap paths key) →
  (∃ p, p ∈ keys ∧ sub_of p x) →
  (∃ p, p ∈ paths ∧ sub_of p x) ∨
  (∃ i, x.2 = KInt i ∧ is_gap paths (x.1 ++ [KInt i])).
Proof.
  intros Hkeys (p & Hp & Hsub). apply Hkeys in Hp as [Hp|Hgap].
  - left. by exists p.
  - pose proof Hgap as Hgap'.
    destruct Hgap as (parent0 & top & i & [Hmax _] & Hi & Hni & ->).
    apply sub_of_snoc in Hsub as [->|Hsub].
    + right. by exists i.
    + left. by eapply sub_of_through.
Qed.

Lemma index_under_filled paths keys parent j :
  (∀ key, key ∈ keys ↔ key ∈ paths ∨ is_gap paths key) →
  index_under keys parent j ↔
  index_under paths parent j ∨ is_gap paths (parent ++ [KInt j]).
Proof.
  intros Hkeys. split.
  - intros Hidx. destruct (sub_of_filled paths keys (parent, KInt j) Hkeys Hidx)
      as [?|(i & [= <-] & Hgap)]; [by left|by right].
  - intros [(p & Hp & Hsub)|Hgap].
    + exists p. split; [|done]. apply Hkeys. by left.
    + exists (parent ++ [KInt j]). split; [apply Hkeys; by right|].
      apply sub_of_snoc_last.
Qed.

Lemma filled_no_gap paths keys :
  (∀ key, key ∈ keys ↔ key ∈ paths ∨ is_gap paths key) →
  ∀ key, ¬ is_gap keys key.
Proof.
  intros Hkeys key (parent & top & i & [Htop Hmax] & Hi & Hni & ->).
  assert (max_index_under paths parent top) as Hmax'.
  { apply (index_under_filled _ _ _ _ Hkeys) in Htop as [Htop|Hgap].
    - split; [done|]. intros j Hj. apply Hmax.
      apply (index_under_filled _ _ _ _ Hkeys). by left.
    - destruct Hgap as (parent0 & top0 & i0 & [Htop0 _] & Hi0 & _ & Heq).
      apply app_inj_tail in Heq as [-> [= ->]].
      assert (top0 ≤ i0); [|lia].
      apply Hmax. apply (index_under_filled _ _ _ _ Hkeys). by left. }
  apply Hni. apply (index_under_filled _ _ _ _ Hkeys). right.
  exists parent, top, i. split; [done|]. split; [done|]. split; [|done].
  intros Hidx. apply Hni. apply (index_under_filled _ _ _ _ Hkeys). by left.
Qed.

Lemma filled_no_mixed paths keys :
  (∀ key, key ∈ keys ↔ key ∈ paths ∨ is_gap paths key) →
  (∀ parent, ¬ mixed_at paths parent) →
  ∀ parent, ¬ mixed_at keys parent.
Proof.
  intros Hkeys Hnomix parent (p & q & i & s & Hp & Hq & Hp1 & Hp2 & Hq1 & Hq2).
  assert (∃ p', p' ∈ paths ∧ sub_of p' (parent, KStr s)) as (q' & Hq' & Hsq).
  { destruct (sub_of_filled paths keys (parent, KStr s) Hkeys) as [?|(? & ? & _)];
      [|done|done].
    exists q. split; [done|]. by apply sub_of_iff. }
  assert (∃ i' p', p' ∈ paths ∧ sub_of p' (parent, KInt i')) as (i' & p' & Hp' & Hsp).
  { destruct (sub_of_filled paths keys (parent, KInt i) Hkeys) as [(p' & ? & ?)|Hgap].
    - exists p. split; [done|]. by apply sub_of_iff.
    - by exists i, p'.
    - destruct Hgap as (i0 & [= <-] & parent0 & top & i1 & [Htop _] & _ & _ & Heq).
      simpl in Heq. apply app_inj_tail in Heq as [<- _].
      destruct Htop as (p' & ? & ?). by exists top, p'. }
  apply (Hnomix parent). exists p', q', i', s.
  apply sub_of_iff in Hsp as [? ?]. apply sub_of_iff in Hsq as [? ?]. done.
Qed.
End filled_paths.

Section refill.
Context {Leaf : Type}.
Implicit Types (d : list (KeyPath * Leaf)) (L : list (KeyPath * gset Z)).

Lemma fill_step_id (gaps_filler : KeyPath → Leaf) path S (idxs : list Z) d :
  (∀ i, i ∈ idxs → i ∈ S) → foldl (fill_step gaps_filler path S) d idxs = d.
Proof.
  induction idxs as [|i idxs IH]; intros Hall; simpl; [done|].
  unfold fill_step at 2. rewrite decide_True by (apply Hall; by left).
  apply IH. intros j Hj. apply Hall. by right.
Qed.

Lemma fill_all_gaps_no_gaps (gaps_filler : KeyPath → Leaf) L d :
  (∀ key, ¬ gap_key L key) → (∀ sp S, (sp, S) ∈ L → S ≠ ∅) →
  fill_all_gaps gaps_filler L d = Ok d.
Proof.
  induction L as [|[path S] L IH]; intros Hnogap Hne; simpl; [done|].
  destruct (py_max_nonempty (elements S)) as [top Htop].
  { intros Hnil. apply (Hne path S); [by left|]. by apply elements_empty_inv, leibniz_equiv in Hnil. }
  rewrite Htop. simpl. unfold fill_gaps. rewrite fill_step_id.
  - apply IH.
    + intros key (sp & S' & top' & i & Hin & ?). apply (Hnogap key).
      exists sp, S', top', i. split; [by right|done].
    + intros sp S' Hin. apply (Hne sp S'). by right.
  - intros i Hi. apply elem_of_seqZ in Hi.
    destruct (decide (i ∈ S)) as [|Hni]; [done|].
    destruct (Hnogap (path ++ [KInt i])). exists path, S, top, i.
    split; [by left|]. split; [done|]. split; [lia|]. done.
Qed.
End refill.

(** X20: the mapping that [_make_paths_to_leaves] returns is complete.  Under
    every parent that is used as a list, every position from 0 to the greatest
    index is a key of the result, so no gap is left; no parent is used both as
    a dict and as a list; and filling the gaps of the result again changes
    nothing. *)
Theorem X20_filled_mapping_is_complete {F : Type} `{BaseField F} {Leaf : Type}
    (field_crown : string → Leaf) (gaps_filler : KeyPath → Leaf)
    (fields_to_paths : list (F * option KeyPath))
    (paths_to_leaves : list (KeyPath * Leaf)) :
  _make_paths_to_leaves field_crown gaps_filler fields_to_paths = Ok paths_to_leaves →
  let keys := dict_keys paths_to_leaves in
  (∀ parent top i, max_index_under keys parent top → 0 ≤ i ≤ top →
     index_under keys parent i) ∧
  (∀ key, ¬ is_gap keys key) ∧
  (∀ parent, ¬ mixed_at keys parent) ∧
  (∃ paths_to_lists,
     _get_paths_to_list keys = Ok paths_to_lists ∧
     fill_all_gaps gaps_filler paths_to_lists paths_to_leaves = Ok paths_to_leaves).
Proof.
  intros Hok keys.
  pose proof (make_paths_to_leaves_keys field_crown gaps_filler _ _ Hok) as Hkeys.
  fold keys in Hkeys.
  assert (∀ parent, ¬ mixed_at (mapped_paths fields_to_paths) parent) as Hmixed.
  { intros parent Hm.
    destruct (make_paths_to_leaves_raises field_crown gaps_filler _ _ Hm)
      as (sp & _ & Hraise).
    congruence. }
  pose proof (filled_no_gap _ _ Hkeys) as Hnogap.
  pose proof (filled_no_mixed _ _ Hkeys Hmixed) as Hnomix.
  destruct (get_paths_to_list_ok keys Hnomix) as [L HL].
  destruct (get_paths_to_list_spec keys L HL) as [HLin HLex].
  split_and!; try done.
  - intros parent top i Hmax Hi.
    destruct (decide (i = top)) as [->|Hne]; [by destruct Hmax|].
    destruct Hmax as [Htop Hmax].
    destruct (HLex parent top Htop) as [S HS].
    destruct (HLin parent S HS) as [_ HSi].
    destruct (decide (i ∈ S)) as [Hin|Hni]; [by apply HSi|].
    destruct (Hnogap (parent ++ [KInt i])). exists parent, top, i.
    split; [done|]. split; [lia|]. split; [|done]. by rewrite <-HSi.
  - exists L. split; [done|]. apply fill_all_gaps_no_gaps.
    + intros key Hgap. apply (Hnogap key). by apply (gap_key_is_gap keys L).
    + intros sp S HS. by destruct (HLin sp S HS).
Qed.

Lemma X20_filled_mapping_is_complete_witness :
  let a := {| name := "a"; inp_is_required := true;
              param_kind := POS_OR_KW; param_name := "a" |} in
  ∃ ptl,
    _make_paths_to_leaves InpFieldCrown _fill_input_gap
      [(a, Some [KStr "x"; KInt 2])] = Ok ptl ∧
    ∀ key, ¬ is_gap (dict_keys ptl) key.
Proof.
  intros a.
  assert (∃ ptl, _make_paths_to_leaves InpFieldCrown _fill_input_gap
            [(a, Some [KStr "x"; KInt 2])] = Ok ptl)
    as [ptl Hptl] by (eexists; vm_compute; reflexivity).
  exists ptl. split; [exact Hptl|].
  by destruct (X20_filled_mapping_is_complete _ _ _ _ Hptl) as (_ & Hnogap & _).
Defined.

Section sub_paths_once.
Implicit Types (path : KeyPath) (Y : gset (KeyPath * Key)).

Lemma iterate_path_once path n :
  ∀ Y, let r := iterate_path path n Y in
    NoDup r.1 ∧ (∀ x, x ∈ r.1 → x ∉ Y) ∧ (∀ x, x ∈ r.2 ↔ x ∈ Y ∨ x ∈ r.1).
Proof.
  induction n as [|i IH]; intros Y; simpl.
  - split_and!; [constructor|by intros x ?%elem_of_nil|].
    intros x. rewrite elem_of_nil. naive_solver.
  - destruct (path !! i) as [key|]; simpl.
    + destruct (decide ((take i path, key) ∈ Y)) as [Hin|Hout]; simpl.
      * split_and!; [constructor|by intros x ?%elem_of_nil|].
        intros x. rewrite elem_of_nil. naive_solver.
      * destruct (IH ({[(take i path, key)]} ∪ Y)) as (Hnd & Hfresh & Hset).
        split_and!.
        -- constructor; [|done]. intros Hin. apply Hfresh in Hin. set_solver.
        -- intros x [->|Hx]%elem_of_cons; [done|]. apply Hfresh in Hx. set_solver.
        -- intros x. rewrite Hset, elem_of_cons. set_solver.
    + split_and!; [constructor|by intros x ?%elem_of_nil|].
      intros x. rewrite elem_of_nil. naive_solver.
Qed.

Lemma iterate_sub_paths_from_once (paths : list KeyPath) :
  ∀ Y, NoDup (iterate_sub_paths_from paths Y)
       ∧ ∀ x, x ∈ iterate_sub_paths_from paths Y → x ∉ Y.
Proof.
  induction paths as [|path paths IH]; intros Y; simpl.
  - split; [constructor|by intros x ?%elem_of_nil].
  - destruct (iterate_path_once path (length path) Y) as (Hnd & Hfresh & Hset).
    destruct (IH (iterate_path path (length path) Y).2) as [Hnd' Hfresh'].
    split.
    + apply NoDup_app. split_and!; [done| |done].
      intros x Hx Hx'. apply Hfresh' in Hx'. apply Hx'. apply Hset. by right.
    + intros x [Hx|Hx]%elem_of_app; [by apply Hfresh|].
      apply Hfresh' in Hx. intros HY. apply Hx. apply Hset. by left.
Qed.
End sub_paths_once.

(** X21: [_iterate_sub_paths] yields every pair [(path[:i], path[i])] of
    every given path, and yields each pair once, also when paths share
    prefixes or are repeated: stopping at the first pair already yielded
    loses nothing. *)
Theorem X21_sub_paths_yielded_once (paths : list KeyPath) :
  NoDup (_iterate_sub_paths paths) ∧
  ∀ sub_path key,
    (sub_path, key) ∈ _iterate_sub_paths paths ↔
    ∃ path i, path ∈ paths ∧ path !! i = Some key ∧ sub_path = take i path.
Proof.
  split.
  - apply iterate_sub_paths_from_once.
  - intros sub_path key. rewrite iterate_sub_paths_spec. unfold sub_of. simpl.
    naive_solver.
Qed.

(** * Further properties of the extra policies and sieves makers *)

Lemma branches_of_empty_path (next : gen (KeyPath * Key)) :
  branches_of_path [] (branch_range []) ∅ next = GRaise EIndexError.
Proof. reflexivity. Qed.

Lemma paths_to_branches_empty_path (pre post : list KeyPath) :
  (∀ p, p ∈ pre → p ≠ []) →
  ∃ l, gen_to_list (paths_to_branches_from (pre ++ [] :: post) ∅)
       = (l, Some EIndexError) ∧
       ∀ x, x ∈ l → branch_of pre x.1 x.2.
Proof.
  induction pre as [|p pre IH]; intros Hne.
  - exists []. split; [done|]. by intros x ?%elem_of_nil.
  - destruct IH as (l & Hl & Hin).
    { intros q Hq. apply Hne. by right. }
    assert (p ≠ []) as Hp by (apply Hne; by left).
    destruct (branches_of_path_list p (branch_range p)
                (paths_to_branches_from (pre ++ [] :: post) ∅)) as (l0 & Hl0 & Hin0).
    { intros i Hi%branch_range_elem.
      destruct (branch_pair_valid p i Hp Hi) as (k & Hk & _). by exists k. }
    exists (l0 ++ l).
    change ((p :: pre) ++ [] :: post) with (p :: (pre ++ [] :: post)).
    cbn [paths_to_branches_from]. rewrite Hl0, Hl. split; [done|].
    intros x [Hx|Hx]%elem_of_app.
    + apply Hin0 in Hx as (i & Hi%branch_range_elem & Hk & Hs).
      destruct (branch_pair_valid p i Hp Hi) as (k & Hk' & Hsub).
      exists p. split; [by left|]. destruct x as [sp k0]. simpl in *.
      rewrite Hk' in Hk. by simplify_eq.
    + destruct (Hin x Hx) as (q & Hq & Hsub). exists q. split; [by right|done].
Qed.

Lemma extra_policies_loop_raise (policy : DictExtraPolicy) (g : gen (KeyPath * Key)) e :
  (gen_to_list g).2 = Some e →
  ∀ d, extra_policies_loop g policy d = Raise e
       ∨ extra_policies_loop g policy d = Raise collect_with_list
         ∧ policy = ExtraCollect ∧ ∃ x, x ∈ (gen_to_list g).1 ∧ is_int x.2 = true.
Proof.
  induction g as [|[path key] rest IH|e']; intros Hend d; simpl in *.
  - done.
  - destruct (bool_decide (policy = ExtraCollect) && is_int key) eqn:Hc.
    + right. apply andb_true_iff in Hc as [Hp%bool_decide_eq_true Hk].
      split_and!; try done. exists (path, key). split; [by left|done].
    + destruct (IH Hend (dict_set d path policy)) as [?|(? & ? & x & ? & ?)];
        [by left|right].
      split_and!; try done. exists x. split; [by right|done].
  - left. by simplify_eq.
Qed.

(** X22: a leaf at the empty path breaks [make_extra_policies].  When [()]
    is one of the leaf paths, the maker never returns: [_paths_to_branches]
    evaluates [path[-1]] on the empty tuple, and the maker raises [IndexError],
    unless the policy is [ExtraCollect] and a list index was met before, in
    which case it raises the "collecting extra_in with list mapping" error.
    With another policy it raises [IndexError] exactly when [()] is a leaf
    path. *)
Theorem X22_empty_leaf_path_breaks_policies {Leaf : Type}
    (extra_in : ExtraIn) (paths_to_leaves : list (KeyPath * Leaf)) :
  let paths := dict_keys paths_to_leaves in
  let outcome := make_extra_policies extra_in paths_to_leaves in
  ([] ∈ paths →
     (outcome = Raise EIndexError ∨
      outcome = Raise collect_with_list ∧ _get_extra_policy extra_in = ExtraCollect
      ∧ int_branch_key paths) ∧
     ∀ path_to_extra_policy, outcome ≠ Ok path_to_extra_policy) ∧
  (outcome = Raise EIndexError → [] ∈ paths) ∧
  (_get_extra_policy extra_in ≠ ExtraCollect →
     (outcome = Raise EIndexError ↔ [] ∈ paths)).
Proof.
  intros paths outcome.
  assert ([] ∈ paths →
          outcome = Raise EIndexError ∨
          outcome = Raise collect_with_list ∧ _get_extra_policy extra_in = ExtraCollect
          ∧ int_branch_key paths) as Hempty.
  { intros Hin. apply list_elem_of_split_l in Hin as (pre & post & Heq & Hfirst).
    destruct (paths_to_branches_empty_path pre post) as (l & Hl & Hlin).
    { by intros p Hp ->. }
    unfold outcome, make_extra_policies, _paths_to_branches. fold paths. rewrite Heq.
    destruct (extra_policies_loop_raise (_get_extra_policy extra_in)
                (paths_to_branches_from (pre ++ [] :: post) ∅) EIndexError)
      with (d := [([] : KeyPath, _get_extra_policy extra_in)])
      as [?|(? & ? & [b k] & Hx & Hint)]; [by rewrite Hl|by left|right].
    split_and!; try done. rewrite Hl in Hx. simpl in *.
    destruct k as [s|i]; [done|]. exists b, i.
    destruct (Hlin _ Hx) as (q & Hq & Hsub). exists q. split; [|done].
    apply elem_of_app. by left. }
  assert (outcome = Raise EIndexError → [] ∈ paths) as Hconv.
  { intros Hraise. destruct (decide ([] ∈ paths)) as [|Hout]; [done|]. exfalso.
    destruct (paths_to_branches_list paths) as (l & Hl & Hin).
    { by intros p Hp ->. }
    destruct (extra_policies_loop_spec (_get_extra_policy extra_in)
                (paths_to_branches_from paths ∅)
                [([], _get_extra_policy extra_in)]) as [Hcoll Hok].
    rewrite Hl in Hcoll, Hok. simpl in *.
    unfold outcome, make_extra_policies, _paths_to_branches in Hraise. fold paths in Hraise.
    destruct (decide (_get_extra_policy extra_in = ExtraCollect
                      ∧ Exists (λ x : KeyPath * Key, is_int x.2 = true) l))
      as [[Hp Hex]|Hno].
    - rewrite Hcoll in Hraise; [done|]. split; [done|]. by apply Exists_exists.
    - destruct Hok as (d' & Hd' & _); [|done|congruence].
      intros [Hp Hex]. apply Hno. split; [done|]. by apply Exists_exists. }
  split_and!.
  - intros Hin. split; [by apply Hempty|].
    intros d Hd. destruct (Hempty Hin) as [?|[? _]]; congruence.
  - done.
  - intros Hpol. split; [done|]. intros Hin.
    by destruct (Hempty Hin) as [?|(_ & ? & _)].
Qed.

Lemma X22_empty_leaf_path_breaks_policies_witness :
  make_extra_policies ExtraInSkip [([KStr "a"], InpFieldCrown "a"); ([], InpFieldCrown "b")]
  = Raise EIndexError.
Proof.
  destruct (X22_empty_leaf_path_breaks_policies ExtraInSkip
              [([KStr "a"], InpFieldCrown "a"); ([], InpFieldCrown "b")])
    as (_ & _ & Hiff).
  apply Hiff; [done|]. unfold dict_keys. simpl. set_solver.
Defined.

Section sieve_errors.
Context {St : Type}.
Implicit Types (fields : list (OutputField St)) (field : OutputField St)
  (items : list (KeyPath * LeafOutCrown St)).

Lemma fields_dict_unknown fields id :
  fields_dict fields id = Raise EKeyError ↔ ∀ f, f ∈ fields → out_id f ≠ id.
Proof.
  unfold fields_dict.
  destruct (list_find _ fields) as [[i f]|] eqn:Hfind.
  - apply list_find_Some in Hfind as (Hi & Hid & _). split; [done|].
    intros Hall. destruct (Hall f); [|done]. by eapply list_elem_of_lookup_2.
  - split; [|done]. intros _ f Hin. apply list_find_None in Hfind.
    by apply (proj1 (Forall_forall _ _) Hfind).
Qed.

Lemma fields_dict_elem fields id f :
  fields_dict fields id = Ok f → f ∈ fields.
Proof.
  unfold fields_dict.
  destruct (list_find _ fields) as [[i g]|] eqn:Hfind; [|done]. intros [= <-].
  apply list_find_Some in Hfind as (Hi & _). by eapply list_elem_of_lookup_2.
Qed.

Lemma known_or_unknown fields items :
  (∃ path id, (path, OutFieldCrown id) ∈ items
              ∧ fields_dict fields id = Raise EKeyError)
  ∨ (∀ path id, (path, OutFieldCrown id) ∈ items → ∃ f, fields_dict fields id = Ok f).
Proof.
  induction items as [|[path leaf] items IH].
  - right. by intros ? ? ?%elem_of_nil.
  - destruct IH as [(path' & id & Hin & ?)|IH].
    { left. exists path', id. split; [by right|done]. }
    destruct leaf as [id|placeholder].
    + destruct (fields_dict_result fields id) as [[field Hfield]|Hunk].
      * right. intros path' id' [[= <- <-]|Hin]%elem_of_cons; [by exists field|].
        by eapply IH.
      * left. exists path, id. split; [by left|done].
    + right. intros path' id' [[=]|Hin]%elem_of_cons. by eapply IH.
Qed.
End sieve_errors.

(** X23: how [make_sieves] fails.  An exception of [provide_schema] is
    passed on.  Otherwise it fails only with [KeyError], for a field crown that
    names an id that no field of the shape has, or with an exception other than
    [CannotProvide] that the omit-default checker raises on a field with a
    default, which [apply_rc] passes on.  So with a checker that keeps the
    contract of [check_request] it raises [KeyError] exactly when some field
    crown names an unknown field, and returns in every other case: the
    [raise ValueError] of [_create_sieve] is not reached, because a sieve is
    only created for a field that has a default. *)
Theorem X23_make_sieves_failures {St : Type}
    (fields : list (OutputField St)) (provided_schema : result (SievesSchema St))
    (paths_to_leaves : list (KeyPath * LeafOutCrown St)) :
  let unknown := ∃ path id, (path, OutFieldCrown id) ∈ paths_to_leaves
                            ∧ ∀ f, f ∈ fields → out_id f ≠ id in
  let outcome := make_sieves fields provided_schema paths_to_leaves in
  (∀ e, provided_schema = Raise e → outcome = Raise e) ∧
  (∀ e, outcome = Raise e →
     provided_schema = Raise e
     ∨ e = EKeyError ∧ unknown
     ∨ ∃ schema f, provided_schema = Ok schema ∧ f ∈ fields ∧ has_default f = true
                   ∧ omit_default schema f = Raise e ∧ ∀ cp, e ≠ ECannotProvide cp) ∧
  (∀ schema, provided_schema = Ok schema →
     (∀ f, f ∈ fields → conforms (omit_default schema f)) →
     (outcome = Raise EKeyError ↔ unknown) ∧
     ((∃ sieves, outcome = Ok sieves) ↔ ¬ unknown) ∧
     (∀ e, outcome = Raise e → e = EKeyError)).
Proof.
  intros unknown outcome.
  assert (unknown ↔ ∃ path id, (path, OutFieldCrown id) ∈ paths_to_leaves
                               ∧ fields_dict fields id = Raise EKeyError) as Hunk.
  { unfold unknown. by setoid_rewrite fields_dict_unknown. }
  assert (∀ e, outcome = Raise e →
     provided_schema = Raise e
     ∨ e = EKeyError ∧ unknown
     ∨ ∃ schema f, provided_schema = Ok schema ∧ f ∈ fields ∧ has_default f = true
                   ∧ omit_default schema f = Raise e ∧ ∀ cp, e ≠ ECannotProvide cp)
    as Hraise.
  { intros e. unfold outcome, make_sieves.
    destruct provided_schema as [schema|e0]; simpl; [|intros [= <-]; by left].
    intros [[-> Hex]|(path & id & f & Hin & Hf & Hd & Ho & He)]%make_sieves_loop_raises.
    - right. left. split; [done|]. by apply Hunk.
    - right. right. exists schema, f. split_and!; try done. by eapply fields_dict_elem. }
  split_and!.
  - intros e ->. done.
  - done.
  - intros schema Hschema Hconf.
    assert ((∃ sieves, outcome = Ok sieves) ↔ ¬ unknown) as Hok.
    { unfold outcome, make_sieves. rewrite Hschema. simpl.
      rewrite make_sieves_loop_returns. unfold sieves_decided. rewrite Hunk. split.
      - intros Hall (path & id & Hin & Hno).
        destruct (Hall path id Hin) as (f & Hf & _). congruence.
      - intros Hno path id Hin.
        destruct (known_or_unknown fields paths_to_leaves) as [Hex|Hall]; [done|].
        destruct (Hall path id Hin) as [f Hf]. exists f. split; [done|].
        intros _. apply Hconf. by eapply fields_dict_elem. }
    assert (∀ e, outcome = Raise e → e = EKeyError ∧ unknown) as Honly.
    { intros e [He|[[-> Hu]|(schema' & f & Hs & Hin & _ & Ho & He)]]%Hraise.
      - congruence.
      - done.
      - assert (schema' = schema) as -> by congruence.
        destruct (Hconf f Hin) as [Hc|[cp Hc]]; rewrite Hc in Ho; [done|].
        simplify_eq. by destruct (He cp). }
    split_and!.
    + split; [by intros [_ ?]%Honly|].
      intros Hu. destruct outcome as [sieves|e] eqn:Hout.
      * destruct (proj1 Hok); [by exists sieves|done].
      * by destruct (Honly e eq_refl) as [-> _].
    + done.
    + by intros e [-> _]%Honly.
Qed.

Lemma X23_make_sieves_failures_witness :
  let a : OutputField unit :=
    {| out_id := "a"; out_default := DefaultValue (PyInt 0); out_is_required := true |} in
  let schema : SievesSchema unit := {| omit_default := λ _, Ok () |} in
  make_sieves [a] (Ok schema)
    [([KStr "a"], OutFieldCrown "a"); ([KStr "b"], OutFieldCrown "b")]
  = Raise EKeyError.
Proof.
  intros a schema.
  destruct (X23_make_sieves_failures [a] (Ok schema)
              [([KStr "a"], OutFieldCrown "a"); ([KStr "b"], OutFieldCrown "b")])
    as (_ & _ & Hconforming).
  destruct (Hconforming schema eq_refl) as (Hiff & _).
  { intros f _. by left. }
  apply Hiff. exists [KStr "b"], "b". split; [set_solver|].
  intros f ->%list_elem_of_singleton. done.
Defined.

(** * Properties of the field mapping *)

Section python_strings.
Implicit Types (s stem suffix : string) (c : ascii).

Lemma endswith_refl s : endswith s s = true.
Proof. destruct s; cbn [endswith]; by rewrite bool_decide_eq_true_2. Qed.

Lemma endswith_app stem suffix : endswith (stem +:+ suffix) suffix = true.
Proof.
  induction stem as [|a stem IH]; simpl; [apply endswith_refl|].
  by case_bool_decide.
Qed.

Lemma endswith_inv s suffix :
  endswith s suffix = true → ∃ stem, s = stem +:+ suffix.
Proof.
  induction s as [|a s IH]; simpl.
  - case_bool_decide; [|done]. intros _. by exists "".
  - case_bool_decide as Heq; [intros _; by exists ""|].
    intros (stem & ->)%IH. by exists (String a stem).
Qed.

Lemma app_one_char_inv stem c : stem +:+ String c "" = String c "" → stem = "".
Proof.
  by destruct stem as [|a [|b stem]].
Qed.

Lemma endswith_snoc stem c :
  endswith (stem +:+ String c "") (String c (String c "")) = endswith stem (String c "").
Proof.
  induction stem as [|a stem IH].
  - change ("" +:+ String c "") with (String c "").
    cbn [endswith]. by repeat case_bool_decide.
  - change (String a stem +:+ String c "") with (String a (stem +:+ String c "")).
    cbn [endswith]. rewrite IH.
    destruct (decide (String a stem = String c "")) as [Heq|Hne].
    + simplify_eq. by rewrite !bool_decide_eq_true_2.
    + rewrite (bool_decide_eq_false_2 (String a stem = _)) by done.
      rewrite bool_decide_eq_false_2; [done|].
      intros [= -> Heq]. apply app_one_char_inv in Heq. by subst.
Qed.

Lemma rstrip_snoc stem c : rstrip (stem +:+ String c "") c = rstrip stem c.
Proof.
  induction stem as [|a stem IH]; simpl.
  - by rewrite !bool_decide_eq_true_2.
  - by rewrite IH.
Qed.

Lemma rstrip_noop s c : endswith s (String c "") = false → rstrip s c = s.
Proof.
  induction s as [|a s IH]; simpl; [done|].
  case_bool_decide as Heq; [done|]. intros Hs. rewrite (IH Hs).
  destruct (decide (s = "" ∧ a = c)) as [[-> ->]|Hne]; [done|].
  destruct (bool_decide (s = "")) eqn:H1, (bool_decide (a = c)) eqn:H2; simpl; try done.
  apply bool_decide_eq_true in H1, H2. by destruct Hne.
Qed.

(** [name.rstrip('_')] under the guard of [_generate_key]: exactly one
    underscore goes. *)
Lemma rstrip_guarded s :
  endswith s "_" = true → endswith s "__" = false →
  ∃ stem, s = stem +:+ "_" ∧ endswith stem "_" = false ∧ rstrip s "_" = stem.
Proof.
  intros (stem & ->)%endswith_inv Hdouble. exists stem.
  rewrite (endswith_snoc stem "_") in Hdouble.
  split_and!; [done|done|]. rewrite (rstrip_snoc stem "_"). by apply rstrip_noop.
Qed.
End python_strings.

Lemma py_index_first {A} `{EqDecision A} (xs : list A) (x : A) (i : nat) :
  xs !! i = Some x → (∀ j, (j < i)%nat → xs !! j ≠ Some x) →
  py_index xs x = Ok (Z.of_nat i).
Proof.
  intros Hi Hfirst. unfold py_index.
  destruct (list_find _ xs) as [[j y]|] eqn:Hfind.
  - apply list_find_Some in Hfind as (Hj & -> & Hbefore).
    destruct (decide (i = j)) as [->|Hne]; [done|].
    destruct (decide (i < j)%nat) as [Hlt|Hge].
    + by destruct (Hbefore i x Hi Hlt).
    + destruct (Hfirst j); [lia|done].
  - apply list_find_None in Hfind.
    destruct (proj1 (Forall_forall _ _) Hfind x); [|done].
    by eapply list_elem_of_lookup_2.
Qed.

Lemma py_index_NoDup {A} `{EqDecision A} (xs : list A) (x : A) (i : nat) :
  NoDup xs → xs !! i = Some x → py_index xs x = Ok (Z.of_nat i).
Proof.
  intros Hnd Hi. apply py_index_first; [done|]. intros j Hj Hx.
  pose proof (NoDup_lookup _ _ _ _ Hnd Hi Hx). lia.
Qed.

Lemma py_index_absent {A} `{EqDecision A} (xs : list A) (x : A) :
  x ∉ xs → py_index xs x = Raise (EValueError BareValueError).
Proof.
  intros Hout. unfold py_index.
  destruct (list_find _ xs) as [[j y]|] eqn:Hfind; [|done].
  apply list_find_Some in Hfind as (Hj & -> & _).
  destruct Hout. by eapply list_elem_of_lookup_2.
Qed.

(** X24: the key that [_generate_key] makes for a field.  With [as_list] it
    is the position of the field in the shape ([ValueError] for a field that
    is not in the shape), and trimming and the name style are not applied.
    Otherwise it is made of the field id: with [trim_trailing_underscore], an
    id that ends in exactly one underscore loses that underscore, while an id
    that ends in two underscores, or in none, is kept; so the name is the id,
    or the id is the name followed by one underscore.  The name style, if
    any, is applied after the trimming, and its exception is passed on. *)
Theorem X24_generate_key {F : Type} `{BaseField F} `{EqDecision F} {NameStyle : Type}
    (convert_snake_style : string → NameStyle → result string)
    (schema : StructureSchema F NameStyle) (shape_fields : list F) (field : F) :
  let key :=
    BuiltinStructureMaker._generate_key convert_snake_style schema shape_fields field in
  let styled := λ name : string,
    match name_style schema with
    | Some style => let! name := convert_snake_style name style in Ok (KStr name)
    | None => Ok (KStr name)
    end in
  (as_list schema = true →
     (∀ i, NoDup shape_fields → shape_fields !! i = Some field →
        key = Ok (KInt (Z.of_nat i))) ∧
     (field ∉ shape_fields → key = Raise (EValueError BareValueError))) ∧
  (as_list schema = false →
     (∃ name, key = styled name
              ∧ (name = field_id field ∨ field_id field = name +:+ "_")) ∧
     (trim_trailing_underscore schema = false → key = styled (field_id field)) ∧
     (endswith (field_id field) "_" = false → key = styled (field_id field)) ∧
     (∀ stem, field_id field = stem +:+ "__" → key = styled (field_id field)) ∧
     (∀ stem, trim_trailing_underscore schema = true →
        endswith stem "_" = false → field_id field = stem +:+ "_" →
        key = styled stem)).
Proof.
  intros key styled. unfold key, BuiltinStructureMaker._generate_key. split.
  - intros ->. split.
    + intros i Hnd Hi. by rewrite (py_index_NoDup _ _ i).
    + intros Hout. by rewrite py_index_absent.
  - intros ->.
    assert (∀ name, match name_style schema with
                    | Some style =>
                        let! name := convert_snake_style name style in Ok (KStr name)
                    | None => Ok (KStr name)
                    end = styled name) as Hstyled by done.
    split_and!.
    + destruct (trim_trailing_underscore schema && endswith (field_id field) "_"
                && negb (endswith (field_id field) "__")) eqn:Hguard.
      * apply andb_true_iff in Hguard as [[_ Hone]%andb_true_iff Htwo%negb_true_iff].
        destruct (rstrip_guarded _ Hone Htwo) as (stem & Hid & _ & ->).
        exists stem. split; [apply Hstyled|by right].
      * exists (field_id field). split; [apply Hstyled|by left].
    + intros ->. apply Hstyled.
    + intros ->. rewrite andb_false_r. apply Hstyled.
    + intros stem Hid.
      assert (endswith (field_id field) "__" = true) as ->
        by (rewrite Hid; apply endswith_app).
      simpl. rewrite andb_false_r. apply Hstyled.
    + intros stem -> Hstem Hid. rewrite Hid.
      rewrite (endswith_app stem "_"), (endswith_snoc stem "_"), Hstem. simpl.
      rewrite (rstrip_snoc stem "_"), rstrip_noop by done. apply Hstyled.
Qed.

Lemma X24_generate_key_witness :
  let from_ := {| name := "from_"; inp_is_required := true;
                  param_kind := POS_OR_KW; param_name := "from_" |} in
  let schema : StructureSchema InputField unit :=
    {| schema_skip := λ _, Raise (ECannotProvide silent);
       schema_only := λ _, Ok ();
       schema_map := λ _ _, Raise (ECannotProvide silent);
       trim_trailing_underscore := true; name_style := None; as_list := false |} in
  BuiltinStructureMaker._generate_key (λ n _, Ok n) schema [from_] from_
  = Ok (KStr "from").
Proof.
  intros from_ schema.
  destruct (X24_generate_key (λ n _, Ok n) schema [from_] from_) as (_ & Hname).
  destruct (Hname eq_refl) as (_ & _ & _ & _ & Htrim).
  by apply (Htrim "from").
Defined.

Section map_fields_spec.
Context {F : Type} `{BaseField F} `{EqDecision F} {NameStyle : Type}.
Variable convert_snake_style : string → NameStyle → result string.
Implicit Types (schema : StructureSchema F NameStyle) (field f : F).

Lemma apply_rc_true (request_checker : F → result unit) field :
  apply_rc request_checker field = Ok true ↔ request_checker field = Ok ().
Proof.
  unfold apply_rc. destruct (request_checker field) as [[]|[]]; naive_solver.
Qed.

Lemma apply_rc_false (request_checker : F → result unit) field :
  apply_rc request_checker field = Ok false
  ↔ ∃ e, request_checker field = Raise (ECannotProvide e).
Proof.
  unfold apply_rc. destruct (request_checker field) as [[]|[]]; naive_solver.
Qed.

Lemma map_field_ok schema shape_fields field entry :
  BuiltinStructureMaker.map_field convert_snake_style schema shape_fields field
    = Ok entry ↔
  ∃ key path,
    BuiltinStructureMaker._generate_key convert_snake_style schema shape_fields field
      = Ok key ∧
    (schema_map schema field key = Ok path
     ∨ path = Some [key] ∧ ∃ e, schema_map schema field key = Raise (ECannotProvide e)) ∧
    match path with
    | None => entry = (field, None)
    | Some p =>
        schema_skip schema field = Ok () ∧ entry = (field, None)
        ∨ (∃ e, schema_skip schema field = Raise (ECannotProvide e)) ∧
          ((∃ e, schema_only schema field = Raise (ECannotProvide e))
             ∧ entry = (field, None)
           ∨ schema_only schema field = Ok () ∧ entry = (field, Some p))
    end.
Proof.
  unfold BuiltinStructureMaker.map_field, BuiltinStructureMaker._create_map_provider.
  destruct (BuiltinStructureMaker._generate_key _ _ _ _) as [key|e]; simpl;
    [|naive_solver].
  assert (∀ path : option KeyPath,
    match path with
    | Some p =>
        let! skipped := apply_rc (schema_skip schema) field in
        if negb skipped then
          let! chosen := apply_rc (schema_only schema) field in
          if chosen then Ok (field, Some p) else Ok (field, None)
        else Ok (field, None)
    | None => Ok (field, None)
    end = Ok entry ↔
    match path with
    | None => entry = (field, None)
    | Some p =>
        schema_skip schema field = Ok () ∧ entry = (field, None)
        ∨ (∃ e, schema_skip schema field = Raise (ECannotProvide e)) ∧
          ((∃ e, schema_only schema field = Raise (ECannotProvide e))
             ∧ entry = (field, None)
           ∨ schema_only schema field = Ok () ∧ entry = (field, Some p))
    end) as Htail.
  { intros [p|]; [|naive_solver]. unfold apply_rc.
    destruct (schema_skip schema field) as [[]|[]]; simpl; try naive_solver.
    destruct (schema_only schema field) as [[]|[]]; simpl; naive_solver. }
  destruct (schema_map schema field key) as [path|[e| | | | |]] eqn:Hmap; simpl.
  - rewrite Htail. split; [intros ?; exists key, path; naive_solver|].
    intros (key' & path' & [= <-] & Hm & ?). rewrite Hmap in Hm. naive_solver.
  - rewrite (Htail (Some [key])).
    split; [intros ?; exists key, (Some [key]); naive_solver|].
    intros (key' & path' & [= <-] & Hm & ?). rewrite Hmap in Hm. naive_solver.
  - split; [done|]. intros (key' & path' & [= <-] & Hm & _).
    rewrite Hmap in Hm. naive_solver.
  - split; [done|]. intros (key' & path' & [= <-] & Hm & _).
    rewrite Hmap in Hm. naive_solver.
  - split; [done|]. intros (key' & path' & [= <-] & Hm & _).
    rewrite Hmap in Hm. naive_solver.
  - split; [done|]. intros (key' & path' & [= <-] & Hm & _).
    rewrite Hmap in Hm. naive_solver.
  - split; [done|]. intros (key' & path' & [= <-] & Hm & _).
    rewrite Hmap in Hm. naive_solver.
Qed.

Lemma map_fields_loop_ok schema shape_fields (extra_targets : list string)
    (fields : list F) entries :
  BuiltinStructureMaker.map_fields_loop convert_snake_style schema shape_fields
    extra_targets fields = Ok entries ↔
  Forall2 (λ field entry,
             BuiltinStructureMaker.map_field convert_snake_style schema shape_fields
               field = Ok entry)
    (filter (λ field, field_id field ∉ extra_targets) fields) entries.
Proof.
  revert entries. induction fields as [|field fields IH]; intros entries; simpl.
  - split; [intros [= <-]; constructor|by inversion 1].
  - case_bool_decide as Ht.
    + rewrite filter_cons_False by naive_solver. apply IH.
    + rewrite filter_cons_True by done.
      destruct (BuiltinStructureMaker.map_field _ _ _ _) as [entry|e] eqn:He; simpl.
      * destruct (BuiltinStructureMaker.map_fields_loop _ _ _ _ _) as [rest|e] eqn:Hr;
          simpl.
        -- split.
           ++ intros [= <-]. constructor; [done|]. by apply IH.
           ++ intros (entry' & rest' & Hentry & Hrest%IH & ->)%Forall2_cons_inv_l.
              congruence.
        -- split; [done|].
           intros (entry' & rest' & Hentry & Hrest%IH & ->)%Forall2_cons_inv_l.
           congruence.
      * split; [done|].
        intros (entry' & rest' & Hentry & _)%Forall2_cons_inv_l. congruence.
Qed.
End map_fields_spec.

(** X25: what [_map_fields] yields.  When it runs to its end, it yields one
    entry for every field of the shape that is not an extra target, in the
    order of the shape, and none for an extra target.  A field is given a path
    only if [skip] refuses it and [only] accepts it; the path is the one the
    mapping provider returns, or the one-element path of the generated key
    when the provider raises [CannotProvide].  A field is given [None] when
    the provider returns [None], when [skip] accepts it, or when [only]
    refuses it. *)
Theorem X25_map_fields_entries {F : Type} `{BaseField F} `{EqDecision F}
    {NameStyle : Type} (convert_snake_style : string → NameStyle → result string)
    (schema : StructureSchema F NameStyle) (shape_fields : list F)
    (extra_move : BaseFigureExtra) (fields_to_paths : list (F * option KeyPath)) :
  BuiltinStructureMaker._map_fields convert_snake_style schema shape_fields extra_move
    = Ok fields_to_paths →
  let generated := λ field key,
    BuiltinStructureMaker._generate_key convert_snake_style schema shape_fields field
    = Ok key in
  fields_to_paths.*1
    = filter (λ field,
                field_id field ∉ BuiltinStructureMaker.extra_targets_of extra_move)
        shape_fields ∧
  (∀ field path, (field, Some path) ∈ fields_to_paths →
     (∃ e, schema_skip schema field = Raise (ECannotProvide e)) ∧
     schema_only schema field = Ok () ∧
     ∃ key, generated field key ∧
       (schema_map schema field key = Ok (Some path)
        ∨ path = [key] ∧ ∃ e, schema_map schema field key = Raise (ECannotProvide e))) ∧
  (∀ field, (field, None) ∈ fields_to_paths →
     schema_skip schema field = Ok ()
     ∨ (∃ e, schema_only schema field = Raise (ECannotProvide e))
     ∨ ∃ key, generated field key ∧ schema_map schema field key = Ok None).
Proof.
  intros Hall generated. unfold BuiltinStructureMaker._map_fields in Hall.
  apply map_fields_loop_ok in Hall. split_and!.
  - induction Hall as [|field entry fields entries Hentry _ IH]; [done|].
    apply map_field_ok in Hentry as (key & [p|] & _ & _ & Hcase); simpl.
    + f_equal; [|done]. destruct Hcase as [[_ ->]|[_ [[_ ->]|[_ ->]]]]; done.
    + by subst.
  - intros field path Hin.
    apply list_elem_of_lookup in Hin as [i Hi].
    destruct (Forall2_lookup_r _ _ _ _ _ Hall Hi) as (field' & _ & Hentry).
    apply map_field_ok in Hentry as (key & [p|] & Hkey & Hmap & Hcase).
    + destruct Hcase as [[_ [=]]|[Hskip [[_ [=]]|[Honly [= <- <-]]]]].
      split_and!; [done|done|]. exists key. split; [done|].
      destruct Hmap as [?|[[= <-] ?]]; [by left|by right].
    + by simplify_eq.
  - intros field Hin.
    apply list_elem_of_lookup in Hin as [i Hi].
    destruct (Forall2_lookup_r _ _ _ _ _ Hall Hi) as (field' & _ & Hentry).
    apply map_field_ok in Hentry as (key & [p|] & Hkey & Hmap & Hcase).
    + destruct Hcase as [[Hskip [= <-]]|[Hskip [[Honly [= <-]]|[_ [=]]]]];
        [by left|right; by left].
    + simplify_eq. right. right. exists key. split; [done|].
      by destruct Hmap as [?|[[=] _]].
Qed.

Lemma X25_map_fields_entries_witness :
  let a := {| name := "a"; inp_is_required := true;
              param_kind := POS_OR_KW; param_name := "a" |} in
  let rest := {| name := "rest"; inp_is_required := true;
                 param_kind := POS_OR_KW; param_name := "rest" |} in
  let schema : StructureSchema InputField unit :=
    {| schema_skip := λ _, Raise (ECannotProvide silent);
       schema_only := λ _, Ok ();
       schema_map := λ _ _, Raise (ECannotProvide silent);
       trim_trailing_underscore := true; name_style := None; as_list := false |} in
  ∃ ftp,
    BuiltinStructureMaker._map_fields (λ n _, Ok n) schema [a; rest]
      (ExtraTargets ["rest"]) = Ok ftp ∧
    ftp.*1 = [a].
Proof.
  intros a rest schema.
  assert (∃ ftp, BuiltinStructureMaker._map_fields (λ n _, Ok n) schema [a; rest]
                   (ExtraTargets ["rest"]) = Ok ftp)
    as [ftp Hftp] by (eexists; vm_compute; reflexivity).
  exists ftp. split; [exact Hftp|].
  destruct (X25_map_fields_entries _ _ _ _ _ Hftp) as (Hfields & _).
  rewrite Hfields. reflexivity.
Defined.

Lemma dict_set_fresh {K V} `{EqDecision K} (d : list (K * V)) (k : K) (v : V) :
  k ∉ dict_keys d → dict_set d k v = d ++ [(k, v)].
Proof.
  unfold dict_keys. induction d as [|[k' v'] d IH]; intros Hk; simpl; [done|].
  rewrite fmap_cons, not_elem_of_cons in Hk. destruct Hk as [Hne Hk].
  rewrite decide_False by done. by rewrite IH.
Qed.

Section no_gaps.
Context {F : Type} `{BaseField F} {Leaf : Type}.
Implicit Types (ftp : list (F * option KeyPath)).

(** Without gaps the leaves are the field crowns, in the order of the
    mapping: [gaps_filler] is not called. *)
Lemma make_paths_to_leaves_no_gaps (field_crown : string → Leaf)
    (gaps_filler : KeyPath → Leaf) ftp :
  (∀ parent, ¬ mixed_at (mapped_paths ftp) parent) →
  (∀ key, ¬ is_gap (mapped_paths ftp) key) →
  _make_paths_to_leaves field_crown gaps_filler ftp
  = Ok (initial_paths_to_leaves field_crown ftp).
Proof.
  intros Hnomix Hnogap. unfold _make_paths_to_leaves.
  pose proof (initial_paths_to_leaves_keys field_crown ftp) as Hkeys.
  destruct (get_paths_to_list_ok
              (dict_keys (initial_paths_to_leaves field_crown ftp))) as [L HL].
  { intros parent Hm. apply (Hnomix parent).
    eapply mixed_at_ext; [|done]. intros p. apply Hkeys. }
  rewrite HL. simpl. apply fill_all_gaps_no_gaps.
  - intros key Hgap. apply (Hnogap key).
    apply (gap_key_is_gap _ _ _ HL) in Hgap. eapply is_gap_ext; [|done]. apply Hkeys.
  - intros sp S HS. by destruct (proj1 (get_paths_to_list_spec _ _ HL) sp S HS).
Qed.

(** The mapping that [_map_fields] makes with [as_list] when nothing is
    skipped or mapped by hand: the field at position [i] goes to [(i,)]. *)
Lemma as_list_mapped_elem (fields : list F) f p :
  (f, Some p) ∈ imap (λ i f, (f, Some [KInt (Z.of_nat i)])) fields ↔
  ∃ i, fields !! i = Some f ∧ p = [KInt (Z.of_nat i)].
Proof.
  rewrite elem_of_lookup_imap. split.
  - intros (i & g & [= <- ->] & Hi). by exists i.
  - intros (i & Hi & ->). by exists i, f.
Qed.

Lemma as_list_no_mixed (fields : list F) parent :
  ¬ mixed_at (mapped_paths (imap (λ i f, (f, Some [KInt (Z.of_nat i)])) fields)) parent.
Proof.
  intros (p & q & i & s & _ & Hq & _ & _ & _ & Hs).
  apply mapped_paths_elem in Hq as (f & (j & _ & ->)%as_list_mapped_elem).
  by destruct parent as [|? [|? ?]].
Qed.

Lemma as_list_index_under (fields : list F) parent j :
  index_under (mapped_paths (imap (λ i f, (f, Some [KInt (Z.of_nat i)])) fields))
    parent j ↔
  parent = [] ∧ ∃ i f, fields !! i = Some f ∧ j = Z.of_nat i.
Proof.
  split.
  - intros (p & Hp & Hsub).
    apply mapped_paths_elem in Hp as (f & (i & Hi & ->)%as_list_mapped_elem).
    apply sub_of_iff in Hsub as [Htake Hlook].
    destruct parent as [|? [|? ?]]; simplify_eq/=. split; [done|]. by exists i, f.
  - intros (-> & i & f & Hi & ->). exists [KInt (Z.of_nat i)]. split.
    + apply mapped_paths_elem. exists f. apply as_list_mapped_elem. by exists i.
    + by apply sub_of_iff.
Qed.

Lemma as_list_no_gap (fields : list F) key :
  ¬ is_gap (mapped_paths (imap (λ i f, (f, Some [KInt (Z.of_nat i)])) fields)) key.
Proof.
  intros (parent & top & i & [Htop _] & Hi & Hni & _).
  apply as_list_index_under in Htop as (-> & j & f & Hj & ->).
  apply Hni, as_list_index_under. split; [done|].
  destruct (lookup_lt_is_Some_2 fields (Z.to_nat i)) as [g Hg].
  { apply lookup_lt_Some in Hj. lia. }
  exists (Z.to_nat i), g. split; [done|lia].
Qed.

Lemma as_list_no_collision (fields : list F) i j f g p :
  ¬ collide (imap (λ i f, (f, Some [KInt (Z.of_nat i)])) fields) i j f g p.
Proof.
  intros (Hne & Hi & Hj). rewrite list_lookup_imap in Hi, Hj.
  destruct (fields !! i), (fields !! j); simplify_eq/=; lia.
Qed.

Lemma as_list_initial (field_crown : string → Leaf) (fields : list F) :
  initial_paths_to_leaves field_crown
    (imap (λ i f, (f, Some [KInt (Z.of_nat i)])) fields)
  = imap (λ i f, ([KInt (Z.of_nat i)], field_crown (field_id f))) fields.
Proof.
  induction fields as [|f fields IH] using rev_ind; [done|].
  rewrite !imap_app. simpl. rewrite Nat.add_0_r.
  rewrite initial_paths_to_leaves_snoc, IH. apply dict_set_fresh.
  unfold dict_keys. rewrite fmap_imap. intros (i & g & [= Heq] & Hi)%elem_of_lookup_imap.
  apply lookup_lt_Some in Hi. lia.
Qed.

Lemma as_list_optional (fields : list F) :
  ∃ ids,
    optional_fields_at_list (imap (λ i f, (f, Some [KInt (Z.of_nat i)])) fields) = Ok ids ∧
    ∀ id, id ∈ ids ↔ ∃ f, f ∈ fields ∧ is_optional f = true ∧ field_id f = id.
Proof.
  destruct (optional_fields_at_list_ok
              (imap (λ i f, (f, Some [KInt (Z.of_nat i)])) fields))
    as (ids & Hids & Hspec).
  { by intros f (i & _ & [=])%as_list_mapped_elem. }
  exists ids. split; [done|]. intros id. rewrite Hspec. split.
  - intros (f & p & k & (i & Hi & ->)%as_list_mapped_elem & Hopt & _ & <-).
    exists f. split; [by eapply list_elem_of_lookup_2|done].
  - intros (f & [i Hi]%list_elem_of_lookup & Hopt & <-).
    exists f, [KInt (Z.of_nat i)], (Z.of_nat i). split_and!; try done.
    apply as_list_mapped_elem. by exists i.
Qed.
End no_gaps.

Lemma filter_all {A} (P : A → Prop) `{∀ x, Decision (P x)} (l : list A) :
  (∀ x, x ∈ l → P x) → filter P l = l.
Proof.
  induction l as [|x l IH]; intros Hall; [done|].
  rewrite filter_cons_True by (apply Hall; by left).
  f_equal. apply IH. intros y Hy. apply Hall. by right.
Qed.

Section as_list_mapping.
Context {F : Type} `{BaseField F} `{EqDecision F} {NameStyle : Type}.
Implicit Types (schema : StructureSchema F NameStyle) (fields : list F).

Lemma as_list_map_fields (convert_snake_style : string → NameStyle → result string)
    schema fields extra_move :
  as_list schema = true → NoDup fields →
  BuiltinStructureMaker.extra_targets_of extra_move = [] →
  (∀ f key, f ∈ fields → ∃ e, schema_map schema f key = Raise (ECannotProvide e)) →
  (∀ f, f ∈ fields → ∃ e, schema_skip schema f = Raise (ECannotProvide e)) →
  (∀ f, f ∈ fields → schema_only schema f = Ok ()) →
  BuiltinStructureMaker._map_fields convert_snake_style schema fields extra_move
  = Ok (imap (λ i f, (f, Some [KInt (Z.of_nat i)])) fields).
Proof.
  intros Hlist Hnd Htargets Hmap Hskip Honly.
  unfold BuiltinStructureMaker._map_fields. rewrite Htargets.
  apply map_fields_loop_ok. rewrite filter_all by (intros f _; apply not_elem_of_nil).
  apply Forall2_same_length_lookup_2; [by rewrite length_imap|].
  intros i f entry Hi Hentry. rewrite list_lookup_imap, Hi in Hentry. simplify_eq/=.
  assert (f ∈ fields) as Hin by by eapply list_elem_of_lookup_2.
  apply map_field_ok. exists (KInt (Z.of_nat i)), (Some [KInt (Z.of_nat i)]).
  split_and!.
  - unfold BuiltinStructureMaker._generate_key. rewrite Hlist.
    by rewrite (py_index_NoDup _ _ i).
  - right. split; [done|]. by apply Hmap.
  - right. split; [by apply Hskip|]. right. split; [by apply Honly|done].
Qed.
End as_list_mapping.

Section as_list_structure.
Context {F : Type} `{BaseField F} {Leaf : Type}.
Implicit Types (fields : list F).

Lemma as_list_mapped_paths fields :
  mapped_paths (imap (λ i f, (f, Some [KInt (Z.of_nat i)])) fields)
  = imap (λ i _, [KInt (Z.of_nat i)]) fields.
Proof.
  unfold mapped_paths.
  induction fields as [|f fields IH] using rev_ind; [done|].
  by rewrite !imap_app, omap_app, IH.
Qed.

Lemma list_no_elements {A} (l : list A) : (∀ x, x ∉ l) → l = [].
Proof. destruct l as [|x l]; [done|]. intros Hno. destruct (Hno x). by left. Qed.

Lemma as_list_structure
    (get_prefix_groups : list KeyPath → list (KeyPath * list KeyPath))
    (field_crown : string → Leaf) (gaps_filler : KeyPath → Leaf) fields :
  get_prefix_groups (imap (λ i _, [KInt (Z.of_nat i)]) fields) = [] →
  let ftp := imap (λ i f, (f, Some [KInt (Z.of_nat i)])) fields in
  let expected := imap (λ i f, ([KInt (Z.of_nat i)], field_crown (field_id f))) fields in
  make_inp_structure get_prefix_groups field_crown gaps_filler ftp
  = make_out_structure get_prefix_groups field_crown gaps_filler ftp ∧
  ∃ ids,
    (∀ id, id ∈ ids ↔ ∃ f, f ∈ fields ∧ is_optional f = true ∧ field_id f = id) ∧
    make_out_structure get_prefix_groups field_crown gaps_filler ftp
    = if bool_decide (ids ≠ [])
      then Raise (ECannotProvide (terminal_error (MsgOptionalFieldsAtList ids)))
      else Ok expected.
Proof.
  intros Hprefix ftp expected. subst ftp expected. split.
  - unfold make_inp_structure, make_out_structure.
    rewrite bool_decide_eq_false_2; [done|]. intros Hne. apply Hne.
    apply list_no_elements. intros id Hid.
    apply skipped_required_fields_elem in Hid as (f & Hin & _).
    by apply elem_of_lookup_imap in Hin as (i & g & [=] & _).
  - destruct (as_list_optional fields) as (ids & Hids & Hspec).
    exists ids. split; [done|]. unfold make_out_structure.
    rewrite make_paths_to_leaves_no_gaps
      by (intros ?; apply as_list_no_mixed || apply as_list_no_gap).
    simpl. rewrite as_list_initial. unfold _validate_structure.
    rewrite no_collision_no_duplicates by apply as_list_no_collision.
    simpl. rewrite as_list_mapped_paths, Hprefix. simpl.
    rewrite Hids. simpl. by case_bool_decide.
Qed.
End as_list_structure.

(** X26: the structure of a model mapped as a list.  With [as_list], no
    mapping by hand, nothing skipped and no extra targets, the field at
    position [i] of the shape is mapped to the path [(i,)].  When all fields
    are required, [make_inp_structure] and [make_out_structure] return one
    field crown per field at [(0,)], [(1,)], ... in the order of the shape,
    without any placeholder.  As soon as one field is optional, both fail
    with the terminal "Optional fields ... can not be mapped to list elements"
    error, which names that field. *)
Theorem X26_as_list_structure {F : Type} `{BaseField F} `{EqDecision F}
    {NameStyle Leaf : Type}
    (convert_snake_style : string → NameStyle → result string)
    (get_prefix_groups : list KeyPath → list (KeyPath * list KeyPath))
    (field_crown : string → Leaf) (gaps_filler : KeyPath → Leaf)
    (schema : StructureSchema F NameStyle) (shape_fields : list F)
    (extra_move : BaseFigureExtra) :
  as_list schema = true → NoDup shape_fields →
  BuiltinStructureMaker.extra_targets_of extra_move = [] →
  (∀ f key, f ∈ shape_fields →
     ∃ e, schema_map schema f key = Raise (ECannotProvide e)) →
  (∀ f, f ∈ shape_fields → ∃ e, schema_skip schema f = Raise (ECannotProvide e)) →
  (∀ f, f ∈ shape_fields → schema_only schema f = Ok ()) →
  get_prefix_groups (imap (λ i _, [KInt (Z.of_nat i)]) shape_fields) = [] →
  let inp := BuiltinStructureMaker.make_inp_structure convert_snake_style
               get_prefix_groups field_crown gaps_filler schema shape_fields extra_move in
  let out := BuiltinStructureMaker.make_out_structure convert_snake_style
               get_prefix_groups field_crown gaps_filler schema shape_fields extra_move in
  ((∀ f, f ∈ shape_fields → is_required f = true) →
     inp = Ok (imap (λ i f, ([KInt (Z.of_nat i)], field_crown (field_id f)))
                 shape_fields)
     ∧ out = inp) ∧
  (∀ f, f ∈ shape_fields → is_required f = false →
     ∃ ids, field_id f ∈ ids ∧
       out = Raise (ECannotProvide
                      {| msg := Some (MsgOptionalFieldsAtList ids); sub_errors := [];
                         is_terminal := true; is_demonstrative := true |})
       ∧ inp = out).
Proof.
  intros Hlist Hnd Htargets Hmap Hskip Honly Hprefix inp out.
  unfold inp, out, BuiltinStructureMaker.make_inp_structure,
    BuiltinStructureMaker.make_out_structure.
  rewrite (as_list_map_fields convert_snake_style schema shape_fields extra_move)
    by done.
  simpl.
  destruct (as_list_structure get_prefix_groups field_crown gaps_filler shape_fields
              Hprefix) as (-> & ids & Hids & ->).
  split.
  - intros Hreq. rewrite bool_decide_eq_false_2; [done|].
    intros Hne. apply Hne. apply list_no_elements. intros id Hid.
    apply Hids in Hid as (f & Hin & Hopt & _).
    unfold is_optional in Hopt. by rewrite (Hreq f Hin) in Hopt.
  - intros f Hin Hopt. exists ids.
    assert (field_id f ∈ ids) as Hid.
    { apply Hids. exists f. unfold is_optional. by rewrite Hopt. }
    split; [done|]. rewrite bool_decide_eq_true_2; [done|].
    intros ->. by apply elem_of_nil in Hid.
Qed.

Lemma X26_as_list_structure_witness :
  let a := {| name := "a"; inp_is_required := true;
              param_kind := POS_OR_KW; param_name := "a" |} in
  let b := {| name := "b"; inp_is_required := true;
              param_kind := POS_OR_KW; param_name := "b" |} in
  let schema : StructureSchema InputField unit :=
    {| schema_skip := λ _, Raise (ECannotProvide silent);
       schema_only := λ _, Ok ();
       schema_map := λ _ _, Raise (ECannotProvide silent);
       trim_trailing_underscore := true; name_style := None; as_list := true |} in
  BuiltinStructureMaker.make_inp_structure (λ n _, Ok n) (λ _, [])
    InpFieldCrown _fill_input_gap schema [a; b] NoExtra
  = Ok [([KInt 0], InpFieldCrown "a"); ([KInt 1], InpFieldCrown "b")].
Proof.
  intros a b schema.
  assert (NoDup [a; b]) as Hnd.
  { apply NoDup_cons. split; [|apply NoDup_singleton].
    by intros [=]%list_elem_of_singleton. }
  destruct (X26_as_list_structure (λ n _, Ok n) (λ _, []) InpFieldCrown
              _fill_input_gap schema [a; b] NoExtra eq_refl Hnd eq_refl) as (Hall & _).
  - intros f key _. by eexists.
  - intros f _. by eexists.
  - done.
  - done.
  - destruct Hall as [Hinp _]; [|exact Hinp].
    intros f [->|[->|[]%elem_of_nil]%elem_of_cons]%elem_of_cons; done.
Defined.




(** * The namespace and the counter of the code tools *)

Section namespace_laws.
Context {V : Type}.
Implicit Types (dict : gmap string V) (items : list (string * V)).

Lemma add_all_ok dict items :
  ∀ dict',
    add_all dict items = Ok dict' ↔
    NoDup items.*1 ∧ (∀ name, name ∈ items.*1 → dict !! name = None)
    ∧ dict' = list_to_map items ∪ dict.
Proof.
  revert dict. induction items as [|[name value] items IH]; intros dict dict'; simpl.
  - rewrite (left_id_L ∅ (∪)). split; [intros [= <-]|naive_solver].
    split_and!; [constructor|by intros ? ?%elem_of_nil|done].
  - unfold BuiltinContextNamespace_add. rewrite NoDup_cons.
    case_bool_decide as Hin; simpl.
    + split; [done|]. intros (_ & Hfree & _).
      apply elem_of_dom in Hin as [v Hv]. rewrite Hfree in Hv by by left. done.
    + apply not_elem_of_dom in Hin. rewrite IH. split.
      * intros (Hnd & Hfree & ->). split; [|split].
        -- split; [|done]. intros Hname. specialize (Hfree name Hname).
           by rewrite lookup_insert_eq in Hfree.
        -- intros n [->|Hn]%elem_of_cons; [done|]. specialize (Hfree n Hn).
           apply lookup_insert_None in Hfree. by destruct Hfree.
        -- rewrite <-insert_union_l. symmetry. apply insert_union_r.
           apply not_elem_of_list_to_map_1. intros Hname. specialize (Hfree name Hname).
           by rewrite lookup_insert_eq in Hfree.
      * intros ([Hname Hnd] & Hfree & ->). split; [done|split].
        -- intros n Hn. apply lookup_insert_None. split; [apply Hfree; by right|].
           by intros ->.
        -- rewrite <-insert_union_l. apply insert_union_r.
           by apply not_elem_of_list_to_map_1.
Qed.
End namespace_laws.

(** X28: [BuiltinContextNamespace.add] never overwrites.  It raises
    [KeyError] exactly when the name is already bound, and then leaves the
    namespace as it is; otherwise the name is bound to the value and every
    other binding is kept.  A sequence of calls succeeds exactly when the
    names are distinct and new, and the namespace then holds all the pairs
    besides the old bindings, so the order of the calls does not matter. *)
Theorem X28_namespace_add_never_overwrites {V : Type}
    (dict : gmap string V) (name : string) (value : V) :
  (BuiltinContextNamespace_add dict name value = Raise EKeyError
     ↔ ∃ old, dict !! name = Some old) ∧
  (∀ dict', BuiltinContextNamespace_add dict name value = Ok dict' ↔
     dict !! name = None ∧ dict' !! name = Some value
     ∧ ∀ other, other ≠ name → dict' !! other = dict !! other) ∧
  (∀ items dict',
     add_all dict items = Ok dict' ↔
     NoDup items.*1 ∧ (∀ name, name ∈ items.*1 → dict !! name = None)
     ∧ dict' = list_to_map items ∪ dict) ∧
  (∀ items items' dict',
     items ≡ₚ items' → add_all dict items = Ok dict' → add_all dict items' = Ok dict') ∧
  (∀ items dict' other old,
     add_all dict items = Ok dict' → dict !! other = Some old →
     dict' !! other = Some old).
Proof.
  split_and!.
  - unfold BuiltinContextNamespace_add. case_bool_decide as Hin.
    + apply elem_of_dom in Hin as [old Hold]. split; [by exists old|done].
    + apply not_elem_of_dom in Hin. split; [done|]. intros [old Hold]. congruence.
  - intros dict'. unfold BuiltinContextNamespace_add. case_bool_decide as Hin.
    + apply elem_of_dom in Hin as [old Hold]. split; [done|]. intros [? _]. congruence.
    + apply not_elem_of_dom in Hin. split.
      * intros [= <-]. split_and!; [done|by rewrite lookup_insert_eq|].
        intros other Hne. by rewrite lookup_insert_ne.
      * intros (_ & Hname & Hother). f_equal. apply map_eq. intros n.
        destruct (decide (n = name)) as [->|Hne].
        -- by rewrite lookup_insert_eq.
        -- by rewrite lookup_insert_ne, Hother.
  - apply add_all_ok.
  - intros items items' dict' Hperm. rewrite !add_all_ok.
    intros (Hnd & Hfree & ->). split_and!.
    + by rewrite <-Hperm.
    + intros n Hn. apply Hfree. by rewrite Hperm.
    + f_equal. apply list_to_map_proper; [done|done].
  - intros items dict' other old (_ & Hfree & ->)%add_all_ok Hold.
    apply lookup_union_Some_raw. right. split; [|done].
    apply not_elem_of_list_to_map_1. intros Hin. rewrite Hfree in Hold by done. done.
Qed.

Lemma X28_namespace_add_never_overwrites_witness :
  BuiltinContextNamespace_add (V:=Z) {["x" := 1]} "x" 5 = Raise EKeyError ∧
  add_all (V:=Z) {["x" := 1]} [("y", 2); ("z", 3)]
  = add_all {["x" := 1]} [("z", 3); ("y", 2)].
Proof.
  destruct (X28_namespace_add_never_overwrites (V:=Z) {["x" := 1]} "x" 5)
    as (Hraise & _ & _ & Hperm & _).
  split.
  - apply Hraise. exists 1. reflexivity.
  - assert (∃ d, add_all (V:=Z) {["x" := 1]} [("y", 2); ("z", 3)] = Ok d) as [d Hd]
      by (eexists; vm_compute; reflexivity).
    rewrite Hd. symmetry. apply (Hperm [("y", 2); ("z", 3)]); [apply perm_swap|done].
Defined.

Section unique_ids_laws.
Implicit Types (counter : gmap string nat) (bases : list string) (b : string).

Lemma string_app_inj_l (base s1 s2 : string) : base +:+ s1 = base +:+ s2 → s1 = s2.
Proof. induction base as [|a base IH]; simpl; [done|]. intros [= ?]. by apply IH. Qed.

Lemma string_app_ne (base s : string) : s ≠ "" → base +:+ s ≠ base.
Proof.
  intros Hs. induction base as [|a base IH]; simpl; [done|]. intros [= ?]. by apply IH.
Qed.

Lemma unique_ids_length counter bases :
  length (unique_ids counter bases) = length bases.
Proof.
  revert counter. induction bases as [|b0 bases IH]; intros counter; simpl; [done|].
  by rewrite IH.
Qed.

Lemma unique_ids_lookup bases :
  ∀ counter i b, bases !! i = Some b →
    unique_ids counter bases !! i
    = Some (let idx := (default 0 (counter !! b)
                        + length (filter (λ x, x = b) (take i bases)))%nat in
            if bool_decide (idx = 0%nat) then b else b +:+ " " +:+ pretty idx).
Proof.
  induction bases as [|b0 bases IH]; intros counter i b Hi; [done|].
  destruct i as [|i]; simpl in Hi.
  - simplify_eq. simpl. by rewrite Nat.add_0_r.
  - cbn [unique_ids lookup list_lookup]. rewrite (IH _ i b Hi). f_equal.
    cbn [take _get_unique_id generate_idx fst snd].
    assert ((default 0 (<[b0:=S (default 0 (counter !! b0))]> counter !! b)
             + length (filter (λ x, x = b) (take i bases)))%nat
            = (default 0 (counter !! b)
               + length (filter (λ x, x = b) (b0 :: take i bases)))%nat) as ->; [|done].
    destruct (decide (b0 = b)) as [->|Hne].
    + rewrite lookup_insert_eq, filter_cons_True by done. simpl. lia.
    + by rewrite lookup_insert_ne, filter_cons_False by done.
Qed.
End unique_ids_laws.

(** X29: the ids of [_get_unique_id] are unique per base file name.  In any
    sequence of calls, two calls with the same base get different ids,
    whatever other bases are asked for in between and whatever the counter
    held before; with a new counter the first call for a base returns the
    base itself.  Across bases the ids are not unique: the second id of a
    base [b] is the first id of the base [b 1]. *)
Theorem X29_unique_ids_per_base (counter : gmap string nat) (bases : list string) :
  let ids := unique_ids counter bases in
  length ids = length bases ∧
  (∀ i j b idi idj, (i < j)%nat →
     bases !! i = Some b → bases !! j = Some b →
     ids !! i = Some idi → ids !! j = Some idj → idi ≠ idj) ∧
  (∀ i b, counter !! b = None → bases !! i = Some b → b ∉ take i bases →
     ids !! i = Some b) ∧
  (∀ b, unique_ids ∅ [b; b; b +:+ " 1"] = [b; b +:+ " 1"; b +:+ " 1"]).
Proof.
  intros ids. split_and!.
  - apply unique_ids_length.
  - intros i j b idi idj Hlt Hi Hj Hidi Hidj. unfold ids in *.
    rewrite (unique_ids_lookup _ _ _ _ Hi) in Hidi.
    rewrite (unique_ids_lookup _ _ _ _ Hj) in Hidj. simplify_eq. cbn zeta.
    assert (length (filter (λ x, x = b) (take i bases))
            < length (filter (λ x, x = b) (take j bases)))%nat as Hcount.
    { replace j with (i + S (j - S i))%nat by lia.
      rewrite <-take_take_drop, filter_app, length_app.
      rewrite (drop_S _ _ _ Hi). simpl. rewrite filter_cons_True by done. simpl. lia. }
    repeat case_bool_decide; try lia.
    + intros Heq. symmetry in Heq. by apply string_app_ne in Heq.
    + intros Heq%string_app_inj_l%string_app_inj_l%(inj pretty). lia.
  - intros i b Hnew Hi Hfirst. unfold ids. rewrite (unique_ids_lookup _ _ _ _ Hi).
    cbn zeta. rewrite Hnew. simpl.
    assert (filter (λ x, x = b) (take i bases) = []) as ->.
    { apply list_no_elements. intros x [-> Hx]%list_elem_of_filter. done. }
    done.
  - intros b. cbn [unique_ids _get_unique_id generate_idx fst snd].
    rewrite lookup_empty, lookup_insert_eq. simpl.
    destruct (decide (b +:+ " 1" = b)) as [Heq|Hne].
    { by apply string_app_ne in Heq. }
    rewrite lookup_insert_ne by done. rewrite lookup_insert_ne by done.
    rewrite lookup_empty. simpl. done.
Qed.

Lemma X29_unique_ids_per_base_witness :
  unique_ids ∅ ["f"; "g"; "f"] !! 2%nat ≠ unique_ids ∅ ["f"; "g"; "f"] !! 0%nat.
Proof.
  destruct (X29_unique_ids_per_base ∅ ["f"; "g"; "f"]) as (_ & Hdiff & _).
  assert (∃ id0, unique_ids ∅ ["f"; "g"; "f"] !! 0%nat = Some id0) as [id0 H0]
    by (eexists; reflexivity).
  assert (∃ id2, unique_ids ∅ ["f"; "g"; "f"] !! 2%nat = Some id2) as [id2 H2]
    by (eexists; reflexivity).
  rewrite H0, H2. intros [= Heq].
  apply (Hdiff 0%nat 2%nat "f" id0 id2); [lia|done|done|done|done|done].
Defined.

(** X30: the parameters of a figure that was built form a valid signature.
    [InputField.__post_init__] accepts a field exactly when its name and its
    parameter name are identifiers and it is not both positional-only and
    optional; a bad name is reported before a bad parameter name.  So in a
    figure that passed [InputFigure._validate] and whose fields were all built,
    the positional-only parameters come first and are all required. *)
Theorem X30_built_figure_signature (isidentifier : string → bool)
    (fields : list InputField) (extra : BaseFigureExtra) :
  (∀ field,
     InputField_post_init isidentifier field = None ↔
     isidentifier (name field) = true ∧ isidentifier (param_name field) = true
     ∧ (param_kind field = POS_ONLY → inp_is_required field = true)) ∧
  (∀ field, isidentifier (name field) = false →
     InputField_post_init isidentifier field = Some (NameMustBeIdentifier (name field))) ∧
  (Forall (λ field, InputField_post_init isidentifier field = None) fields →
   InputFigure_validate fields extra = Ok () →
   ∀ i j a b, (i ≤ j)%nat → fields !! i = Some a → fields !! j = Some b →
     param_kind b = POS_ONLY →
     param_kind a = POS_ONLY ∧ inp_is_required a = true).
Proof.
  assert (∀ field,
     InputField_post_init isidentifier field = None ↔
     isidentifier (name field) = true ∧ isidentifier (param_name field) = true
     ∧ (param_kind field = POS_ONLY → inp_is_required field = true)) as Hbuilt.
  { intros field. unfold InputField_post_init, BaseField_post_init. simpl.
    destruct (isidentifier (name field)); simpl; [|naive_solver].
    destruct (isidentifier (param_name field)); simpl; [|naive_solver].
    case_bool_decide as Hk; simpl; [|naive_solver].
    destruct (inp_is_required field); simpl; naive_solver. }
  split_and!.
  - done.
  - intros field Hname. unfold InputField_post_init, BaseField_post_init.
    by rewrite Hname.
  - intros Hall (_ & _ & _ & Hkinds & _)%InputFigure_validate_ok i j a b Hij Hi Hj Hb.
    assert (param_kind a = POS_ONLY) as Ha.
    { destruct (decide (i = j)) as [->|Hne]; [congruence|].
      assert (i < j)%nat as Hlt by lia.
      specialize (Hkinds i j a b Hlt Hi Hj). rewrite Hb in Hkinds.
      destruct (param_kind a); simpl in Hkinds; [done|lia|lia]. }
    split; [done|].
    rewrite Forall_forall in Hall.
    assert (a ∈ fields) as Hin by by eapply list_elem_of_lookup_2.
    apply Hall, Hbuilt in Hin as (_ & _ & Hreq). by apply Hreq.
Qed.

Lemma X30_built_figure_signature_witness :
  let a := {| name := "a"; inp_is_required := false;
              param_kind := POS_ONLY; param_name := "a" |} in
  InputField_post_init ascii_isidentifier a ≠ None.
Proof.
  intros a.
  destruct (X30_built_figure_signature ascii_isidentifier [] NoExtra) as (Hbuilt & _).
  rewrite Hbuilt. intros (_ & _ & Hreq). by specialize (Hreq eq_refl).
Defined.
